(** * mimesis: check-digit algorithms and the shared random source

    A shallow embedding of the parts of the mimesis package that compute
    structured identifiers (Luhn, ISBN, CPR, CPF, fiscal code, card
    numbers) and of the [Random] helper class they draw from.

    Conventions.
    - Python [int] is [Z]; [%] is [Z.modulo] and [//] is [Z.div] (both
      floor, as in Python, for the positive moduli used here).
    - Python [str] is [string]; only ASCII text is modelled.
    - Python [float] weights and draws are modelled by exact rationals
      [Q]; the binary rounding of products and sums is not modelled.
    - A method that draws from [self.random] is a function from the
      generator state to an outcome and the new state; an exception
      keeps the draws made before it. *)

From Stdlib Require Import ZArith QArith Qround List String Ascii Bool Lia Lqa.
From Stdlib Require Import Numbers.DecimalString FinFun Qpower Qabs.
Import ListNotations.

#[local] Open Scope list_scope.
#[local] Open Scope string_scope.
#[local] Open Scope Z_scope.

(** ** Python values and built-ins *)

Module Py.

Inductive exn : Type :=
| AttributeError (name : string)
| ValueError (msg : string)
| IndexError
| KeyError (key : string)
| TypeError
| NonEnumerableError
| OverflowError.

(** The result of running a call: a value, an exception, or no answer
    within the loop budget (only [while True] loops can give [Timeout]). *)
Inductive outcome (A : Type) : Type :=
| Return (a : A)
| Raise (e : exn)
| Timeout.
Arguments Return {A} a.
Arguments Raise {A} e.
Arguments Timeout {A}.

Definition ord (c : ascii) : Z := Z.of_nat (nat_of_ascii c).
Definition chr (z : Z) : ascii := ascii_of_nat (Z.to_nat z).

(** [str.isdigit] on an ASCII character. *)
Definition isdigit (c : ascii) : bool := (48 <=? ord c) && (ord c <=? 57).

(** [int(c)] for a one-character string. *)
Definition int_char (c : ascii) : outcome Z :=
  if isdigit c then Return (ord c - 48)
  else Raise (ValueError "invalid literal for int()").

(** [int(c)] under an [isdigit] guard, where it cannot raise. *)
Definition digit_value (c : ascii) : Z := ord c - 48.

(** [str(n)] for an integer. *)
Definition str (z : Z) : string := NilZero.string_of_int (Z.to_int z).

(** [f"{n:02d}"]. *)
Definition fmt02d (z : Z) : string :=
  let s := str z in
  if (String.length s <? 2)%nat then "0" ++ s else s.

Definition chars (s : string) : list ascii := list_ascii_of_string s.
Definition join (l : list ascii) : string := string_of_list_ascii l.

Definition len {A} (l : list A) : Z := Z.of_nat (List.length l).

Definition sum (l : list Z) : Z := fold_left Z.add l 0.

(** [range(start, stop, step)] for a non-zero step. *)
Definition range (start stop step : Z) : list Z :=
  let n := if 0 <? step then (stop - start + step - 1) / step
           else (start - stop - step - 1) / (- step) in
  map (fun k => start + Z.of_nat k * step) (seq 0 (Z.to_nat n)).

(** [l[i]] at an index known to be in range. *)
Definition getitem (l : list Z) (i : Z) : Z := nth (Z.to_nat i) l 0.

Fixpoint list_set {A} (l : list A) (i : nat) (v : A) : list A :=
  match l, i with
  | [], _ => []
  | _ :: r, O => v :: r
  | x :: r, S j => x :: list_set r j v
  end.

(** [l[i] = v] at an index known to be in range. *)
Definition setitem (l : list Z) (i : Z) (v : Z) : list Z :=
  list_set l (Z.to_nat i) v.

(** [l[i]] with Python's negative indices and [IndexError]. *)
Definition index {A} (l : list A) (i : Z) : outcome A :=
  let j := if i <? 0 then i + len l else i in
  if (0 <=? j) && (j <? len l) then
    match nth_error l (Z.to_nat j) with
    | Some x => Return x
    | None => Raise IndexError
    end
  else Raise IndexError.

(** Sequencing of computations that may raise but do not draw. *)
Definition obind {A B} (o : outcome A) (k : A -> outcome B) : outcome B :=
  match o with
  | Return a => k a
  | Raise e => Raise e
  | Timeout => Timeout
  end.

(** [[f(x) for x in xs]] where [f] may raise; the first exception wins. *)
Fixpoint omap {A B} (f : A -> outcome B) (xs : list A) : outcome (list B) :=
  match xs with
  | [] => Return []
  | x :: r => obind (f x) (fun y => obind (omap f r) (fun ys => Return (y :: ys)))
  end.

(** [enumerate(xs)]. *)
Definition enumerate {A} (xs : list A) : list (Z * A) :=
  combine (range 0 (len xs) 1) xs.

(** [d[k]] for a dictionary with string keys, given by its items. *)
Fixpoint dict_get {V} (d : list (string * V)) (k : string) : outcome V :=
  match d with
  | [] => Raise (KeyError k)
  | (k', v) :: r => if (k =? k')%string then Return v else dict_get r k
  end.

(** [k in d]. *)
Definition dict_mem {V} (d : list (string * V)) (k : string) : bool :=
  existsb (fun kv => (k =? fst kv)%string) d.

Definition is_digit (d : Z) : Prop := 0 <= d <= 9.

(** The character of a decimal digit, and a digit string. *)
Definition digit_char (d : Z) : ascii := chr (48 + d).
Definition digit_string (ds : list Z) : string := join (map digit_char ds).

(** The sum of [ds] weighted by [start], [start - 1], ... in order. *)
Fixpoint descending_sum (start : Z) (ds : list Z) : Z :=
  match ds with
  | [] => 0
  | d :: r => d * start + descending_sum (start - 1) r
  end.

Definition ascii_uppercase : string := "ABCDEFGHIJKLMNOPQRSTUVWXYZ".
Definition digits : string := "0123456789".

(** [s[start::2]] for start 0 or 1. *)
Fixpoint every_other {A} (take : bool) (l : list A) : list A :=
  match l with
  | [] => []
  | x :: r => if take then x :: every_other false r else every_other true r
  end.

End Py.
Import Py.

(** ** mimesis/shortcuts.py *)

Module Shortcuts.

(** One pass of the loop body: [digits[i] *= 2], then
    [if digits[i] > 9: digits[i] -= 9]. *)
Definition luhn_body (digits : list Z) (i : Z) : list Z :=
  let digits1 := setitem digits i (getitem digits i * 2) in
  if 9 <? getitem digits1 i
  then setitem digits1 i (getitem digits1 i - 9)
  else digits1.

Definition luhn_digits (num : string) : list Z :=
  map digit_value (filter isdigit (chars num)).

Definition luhn_loop (digits : list Z) : list Z :=
  fold_left luhn_body (range (len digits - 2) (-1) (-2)) digits.

Definition luhn_checksum (num : string) : string :=
  let digits := luhn_loop (luhn_digits num) in
  let total := sum digits in
  let checksum := (10 - total mod 10) mod 10 in
  str checksum.

(** The value a doubled digit contributes. *)
Definition luhn_dbl (d : Z) : Z := if 9 <? d * 2 then d * 2 - 9 else d * 2.

(** Doubling every second digit, counted from the right: the digit at
    index [j] of [n] digits is doubled when its distance [n - 1 - j] from
    the rightmost digit has parity [phase] (0: the rightmost digit is
    doubled; 1: its left neighbour is). *)
Definition alternate (phase : Z) (digits : list Z) : list Z :=
  map (fun jd : nat * Z =>
         if (len digits - 1 - Z.of_nat (fst jd)) mod 2 =? phase
         then luhn_dbl (snd jd) else snd jd)
      (combine (seq 0 (List.length digits)) digits).

(** The rule as the specification words it: the check digit sits one
    place right of the last base digit, and base digits at odd distance
    from it are doubled, so the rightmost base digit is doubled. *)
Definition luhn_spec (num : string) : string :=
  str ((10 - sum (alternate 0 (luhn_digits num)) mod 10) mod 10).

End Shortcuts.
Import Shortcuts.

(** ** mimesis/random.py *)

Module Rand.

(** The state of a [random.Random] object.  The standard generator is
    not part of this package: it is modelled by the infinite sequence of
    raw outputs that its current seeding determines and by the number of
    outputs consumed so far. *)
Record Random : Type := mkRandom { stream : nat -> Z; cursor : nat }.

(** Computations that draw from [self.random]. *)
Definition M (A : Type) : Type := Random -> outcome A * Random.

Definition ret {A} (a : A) : M A := fun r => (Return a, r).
Definition raise {A} (e : exn) : M A := fun r => (Raise e, r).
Definition timeout {A} : M A := fun r => (Timeout, r).
Definition lift {A} (o : outcome A) : M A := fun r => (o, r).

Definition bind {A B} (m : M A) (k : A -> M B) : M B :=
  fun r =>
    match m r with
    | (Return a, r') => k a r'
    | (Raise e, r') => (Raise e, r')
    | (Timeout, r') => (Timeout, r')
    end.

Notation "x <- m ;; k" := (bind m (fun x => k))
  (at level 61, m at next level, right associativity).

(** A computation that always hands back a value or an exception. *)
Definition settles {A} (m : M A) : Prop :=
  forall r, fst (m r) <> Timeout.

(** [[f(x) for x in xs]] where [f] draws. *)
Fixpoint mapM {A B} (f : A -> M B) (xs : list A) : M (list B) :=
  match xs with
  | [] => ret []
  | x :: r => y <- f x ;; ys <- mapM f r ;; ret (y :: ys)
  end.

(** [[e for _ in range(n)]] where [e] draws. *)
Definition replicateM {A} (n : Z) (m : M A) : M (list A) :=
  mapM (fun _ => m) (range 0 n 1).

(** *** Methods inherited from the standard [random.Random] *)

Definition next_raw : M Z :=
  fun r => (Return (stream r (cursor r)), mkRandom (stream r) (S (cursor r))).

(** [random()]: a multiple of 2^-53 in [0, 1). *)
Definition random : M Q :=
  x <- next_raw ;; ret (Qmake (x mod 2 ^ 53) (2 ^ 53)).

(** [_randbelow(n)] for [n > 0]: an integer in [0, n). *)
Definition _randbelow (n : Z) : M Z :=
  x <- next_raw ;; ret (x mod n).

(** [randint(a, b)], that is [randrange(a, b + 1)]. *)
Definition randint (a b : Z) : M Z :=
  if b <? a then raise (ValueError "empty range for randrange()")
  else k <- _randbelow (b - a + 1) ;; ret (a + k).

(** [choice(seq)]. *)
Definition choice {A} (seq : list A) : M A :=
  match seq with
  | [] => raise IndexError
  | _ => i <- _randbelow (len seq) ;; lift (index seq i)
  end.

(** [choices(population, k=k)] without weights:
    [[population[floor(random() * n)] for _ in range(k)]]. *)
Definition choices {A} (population : list A) (k : Z) : M (list A) :=
  replicateM k (u <- random ;;
                lift (index population (Qfloor (u * inject_Z (len population))))).

(** In this module a float is the rational number it stands for and
    the operations on floats are exact: the rounding of binary64
    arithmetic to 53 bits is left out.  The definitions answer for the
    code where its operands and results have a margin well above that
    rounding; module [Binary64] further down gives the rounded
    arithmetic for calls with integer arguments. *)

(** The built-in [round(x, ndigits)]: to the nearest multiple of
    10^-ndigits, ties to the even one. *)
Definition round_half_even (y : Q) : Z :=
  let f := Qfloor y in
  match Qcompare (y - inject_Z f) (1 # 2) with
  | Lt => f
  | Gt => f + 1
  | Eq => if Z.even f then f else f + 1
  end.

Definition round (x : Q) (ndigits : Z) : Q :=
  (inject_Z (round_half_even (x * Qpower 10 ndigits)) / Qpower 10 ndigits)%Q.

(** [random.Random.uniform(a, b)]. *)
Definition super_uniform (a b : Q) : M Q :=
  u <- random ;; ret (a + (b - a) * u)%Q.

(** *** Methods defined by the class [Random] of this package *)

Definition randints (n a b : Z) : M (list Z) :=
  if n <=? 0 then raise (ValueError "Number of elements must be greater than zero.")
  else replicateM n (randint a b).

Definition _generate_string (str_seq : string) (length : Z) : M string :=
  cs <- replicateM length (choice (chars str_seq)) ;; ret (join cs).

Definition generate_string_by_mask (mask char digit : string) : M string :=
  let char_sequence := "ABCDEFGHIJKLMNOPQRSTUVWXYZ" in
  let digit_sequence := "0123456789" in
  cs <- mapM (fun c => if String c "" =? char then choice (chars char_sequence)
                       else if String c "" =? digit then choice (chars digit_sequence)
                       else ret c)%string
             (chars mask) ;;
  ret (join cs).

(** [uniform(a, b, precision)], in exact arithmetic. *)
Definition uniform (a b : Q) (precision : Z) : M Q :=
  x <- super_uniform a b ;; ret (round x precision).

Definition randbytes (n : Z) : M (list Z) :=
  replicateM n (randint 0 255).

(** The [for choice, weight in choices.items()] loop of
    [weighted_choice]; falling off its end returns [None]. *)
Fixpoint weighted_walk {K} (r : Q) (items : list (K * Q)) : option K :=
  match items with
  | [] => None
  | (choice, weight) :: rest =>
      let r := (r - weight)%Q in
      if Qle_bool r 0 then Some choice else weighted_walk r rest
  end.

(** [weighted_choice(choices)], in exact arithmetic; the dictionary is
    its list of items in insertion order, and the result is [None] or a
    key. *)
Definition weighted_choice {K} (choices : list (K * Q)) : M (option K) :=
  match choices with
  | [] => raise (ValueError "Choices dictionary cannot be empty.")
  | _ =>
      let total := fold_left Qplus (map snd choices) 0%Q in
      r <- uniform 0 total 15 ;;
      ret (weighted_walk r choices)
  end.

Definition choice_enum_item {E} (enum : list E) : M E := choice enum.

(** The names an instance of [Random] answers to: those of the class
    body above and those of the standard [random.Random]. *)
Definition Random_own_names : list string :=
  ["randints"; "_generate_string"; "generate_string_by_mask"; "uniform";
   "randbytes"; "weighted_choice"; "choice_enum_item"].

Definition Random_inherited_names : list string :=
  ["seed"; "getstate"; "setstate"; "getrandbits"; "randrange"; "randint";
   "choice"; "choices"; "shuffle"; "sample"; "random"; "triangular";
   "betavariate"; "expovariate"; "gammavariate"; "gauss"; "lognormvariate";
   "normalvariate"; "vonmisesvariate"; "paretovariate"; "weibullvariate";
   "binomialvariate"; "_randbelow"].

Definition mem_name (name : string) (names : list string) : bool :=
  existsb (String.eqb name) names.

(** [self.random.<name>(mask=mask)]: attribute lookup on a [Random]
    instance followed by a call with the single keyword [mask].  Only
    [generate_string_by_mask] takes that keyword; a name the class does
    not have fails at the lookup. *)
Definition call_with_mask (name : string) (mask : string) : M string :=
  if (name =? "generate_string_by_mask")%string
  then generate_string_by_mask mask "@" "#"
  else if mem_name name (Random_own_names ++ Random_inherited_names)%list
  then raise TypeError
  else raise (AttributeError name).

End Rand.
Import Rand.

(** ** mimesis/providers/base.py *)

Module Base.

(** What the modelled code uses of an [enum.Enum] class (the package's
    enums module is outside the modelled sources, so an enumeration is a
    parameter): its members in definition order, each with its name and
    its [value]. *)
Record Enum : Type := mkEnum {
  member : Type;
  members : list (string * member);
  value : member -> string
}.

(** What a caller may pass where a member is expected: [None], a
    member, a string, an object that cannot be hashed (a list, a
    dictionary, a set), or any other hashable object. *)
Inductive enum_arg (E : Enum) : Type :=
| ArgNone
| ArgMember (m : member E)
| ArgName (name : string)
| ArgUnhashable
| ArgOther.
Arguments ArgNone {E}.
Arguments ArgMember {E} m.
Arguments ArgName {E} name.
Arguments ArgUnhashable {E}.
Arguments ArgOther {E}.

(** [validate_enum(item, enum)].  The test [item in enum.__members__]
    looks the item up in a dictionary of names, which hashes it: an
    unhashable item raises [TypeError] there. *)
Definition validate_enum (E : Enum) (item : enum_arg E) : M (member E) :=
  match item with
  | ArgNone => choice_enum_item (map snd (members E))
  | ArgMember m => ret m
  | ArgName name =>
      if dict_mem (members E) name then lift (dict_get (members E) name)
      else raise NonEnumerableError
  | ArgUnhashable => raise TypeError
  | ArgOther => raise NonEnumerableError
  end.

(** Modelled from the spec: the seed of the package's types module,
    which is outside the modelled sources.  A seed is an explicit value
    ([int], [float] given by mantissa and binary exponent, [str] or
    [bytes]), [None], or the marker of a seed that was not passed. *)
Inductive SeedValue : Type :=
| SeedInt (n : Z)
| SeedFloat (m e : Z)
| SeedStr (s : string)
| SeedBytes (b : list Z).

Inductive Seed : Type :=
| MissingSeed
| SeedNone
| Explicit (v : SeedValue).

Record BaseProvider : Type := mkProvider { random_ : Random; seed : Seed }.

Section Generator.

(** The output sequence the standard generator produces after
    [seed(v)]: a function of [v] alone. *)
Variable mt_stream : SeedValue -> nat -> Z.

(** [random.seed(a)]: with a value, the state is the one that value
    determines; with [None], it comes from the clock or the operating
    system, given here as [entropy].  Nothing of the old state is kept. *)
Definition Random_seed (a : option SeedValue) (entropy : nat -> Z)
    (r : Random) : Random :=
  match a with
  | Some v => mkRandom (mt_stream v) 0
  | None => mkRandom entropy 0
  end.

Definition reseed (s : Seed) (entropy : nat -> Z) (p : BaseProvider)
    : BaseProvider :=
  match s with
  | MissingSeed => mkProvider (Random_seed None entropy (random_ p)) (seed p)
  | SeedNone => mkProvider (Random_seed None entropy (random_ p)) SeedNone
  | Explicit v => mkProvider (Random_seed (Some v) entropy (random_ p)) (Explicit v)
  end.

(** [BaseProvider(seed=s, random=r)]; [e0] seeds a fresh [Random()]
    when none is passed in. *)
Definition BaseProvider_init (s : Seed) (r : option Random)
    (e0 e1 : nat -> Z) : BaseProvider :=
  let r := match r with
           | Some r => r
           | None => mkRandom e0 0
           end in
  reseed s e1 (mkProvider r s).

End Generator.

End Base.
Import Base.

(** ** mimesis/providers/code.py *)

Module Code.

(** The check digit of an ISSN. *)
Definition _calculate_check_digit (issn : string) : outcome string :=
  obind (omap (fun id : Z * ascii =>
                 obind (int_char (snd id)) (fun d => Return ((8 - fst id) * d)))
              (enumerate (filter (fun c => negb (Ascii.eqb c "-")) (chars issn))))
    (fun terms =>
       let total := sum terms in
       let check := (11 - total mod 11) mod 11 in
       Return (if check =? 10 then "X" else str check)).

(** The check digit of an ISBN. *)
Definition _calculate_isbn_check_digit (isbn : string) : outcome string :=
  obind (omap (fun ix : Z * ascii =>
                 obind (if Ascii.eqb (snd ix) "X" then Return 10
                        else int_char (snd ix))
                       (fun d => Return (d * (10 - fst ix))))
              (enumerate (chars isbn)))
    (fun terms =>
       let total := sum terms in
       let check := (11 - total mod 11) mod 11 in
       Return (if check =? 10 then "X" else str check)).

(** The check character of a weighted total: [(11 - total % 11) % 11],
    with 10 written [X]. *)
Definition check_of_total (total : Z) : string :=
  let check := (11 - total mod 11) mod 11 in
  if check =? 10 then "X" else str check.

(** The ISBN rule in the specification's words: over [N] ordered digits
    the weights descend from [N] to 1. *)
Definition isbn_spec_check_digit (isbn : string) : string :=
  let ds := map digit_value (chars isbn) in
  check_of_total (descending_sum (len ds) ds).

Section Datasets.

(** Tables of the package's datasets module and the two format
    enumerations, which are outside the modelled sources. *)
Variable EAN_MASKS : list (string * string).
Variable IMEI_TACS : list string.
Variable ISBN_GROUPS : list (string * string).
Variable ISBN_MASKS : list (string * string).
Variable LOCALE_CODES : list string.
Variable ISBNFormat : Enum.
Variable EANFormat : Enum.

Definition locale_code : M string := choice LOCALE_CODES.

Definition issn (mask : string) : M string :=
  issn <- call_with_mask "custom_code" mask ;;
  check_digit <- lift (_calculate_check_digit issn) ;;
  ret (issn ++ check_digit).

Definition isbn (fmt : enum_arg ISBNFormat) (locale : string) : M string :=
  fmt <- validate_enum ISBNFormat fmt ;;
  mask <- lift (dict_get ISBN_MASKS (value ISBNFormat fmt)) ;;
  isbn <- (if dict_mem ISBN_GROUPS locale
           then g <- lift (dict_get ISBN_GROUPS locale) ;;
                c <- call_with_mask "custom_code"
                       (substring 1 (String.length mask) mask) ;;
                ret (g ++ c)
           else call_with_mask "custom_code" mask) ;;
  check_digit <- lift (_calculate_isbn_check_digit isbn) ;;
  ret (isbn ++ check_digit).

Definition ean (fmt : enum_arg EANFormat) : M string :=
  fmt <- validate_enum EANFormat fmt ;;
  mask <- lift (dict_get EAN_MASKS (value EANFormat fmt)) ;;
  ean <- call_with_mask "custom_code"
           (substring 0 (String.length mask - 1)%nat mask) ;;
  let check_digit := luhn_checksum ean in
  ret (ean ++ check_digit).

Definition imei : M string :=
  tac <- choice IMEI_TACS ;;
  serial <- call_with_mask "custom_code" "######" ;;
  let imei := tac ++ serial in
  let check_digit := luhn_checksum imei in
  ret (imei ++ check_digit).

Definition pin (mask : string) : M string :=
  call_with_mask "custom_code" mask.

End Datasets.

End Code.

(** ** mimesis/providers/date.py *)

Module Datetime.

Record date : Type := mkDate { year : Z; month : Z; day : Z }.

Definition is_leap (y : Z) : bool :=
  (y mod 4 =? 0) && (negb (y mod 100 =? 0) || (y mod 400 =? 0)).

Definition days_in_month (y m : Z) : Z :=
  if m =? 2 then (if is_leap y then 29 else 28)
  else if (m =? 4) || (m =? 6) || (m =? 9) || (m =? 11) then 30
  else 31.

(** The [datetime.date(year, month, day)] constructor. *)
Definition make_date (y m d : Z) : outcome date :=
  if (1 <=? y) && (y <=? 9999) && (1 <=? m) && (m <=? 12)
     && (1 <=? d) && (d <=? days_in_month y m)
  then Return (mkDate y m d)
  else Raise (ValueError "date value out of range").

Definition year_ (minimum maximum : Z) : M Z := randint minimum maximum.

Definition date_ (start end_ : Z) : M date :=
  y <- year_ start end_ ;;
  m <- randint 1 12 ;;
  d <- randint 1 28 ;;
  lift (make_date y m d).

Record time : Type := mkTime {
  hour : Z; minute : Z; second : Z; microsecond : Z
}.

Definition week_date (start end_ : Z) : M string :=
  y <- randint start end_ ;;
  week <- randint 1 52 ;;
  ret (str y ++ "-W" ++ fmt02d week).

Definition time_ : M time :=
  h <- randint 0 23 ;;
  m <- randint 0 59 ;;
  s <- randint 0 59 ;;
  us <- randint 0 999999 ;;
  ret (mkTime h m s us).

Definition day_of_month : M Z := randint 1 31.

(** [datetime(start, end)] with no timezone: the date and the time
    combined. *)
Definition datetime_ (start end_ : Z) : M (date * time) :=
  date_obj <- date_ start end_ ;;
  time_obj <- time_ ;;
  ret (date_obj, time_obj).

End Datetime.

(** ** mimesis/builtins/da.py *)

Module Da.

Definition _checksum_factors : list Z := [4; 3; 2; 7; 6; 5; 4; 3; 2].

Definition _calculate_checksum (cpr_nr_no_checksum : string) : outcome Z :=
  obind (omap (fun df : ascii * Z =>
                 obind (int_char (fst df)) (fun d => Return (d * snd df)))
              (combine (chars cpr_nr_no_checksum) _checksum_factors))
    (fun terms =>
       let sum_without_checksum := sum terms in
       let checksum := 11 - sum_without_checksum mod 11 in
       if checksum =? 11 then Return 0 else Return checksum).

(** The [while True] loop, run for at most [budget] rounds. *)
Fixpoint _generate_serial_checksum (budget : nat) (cpr_century : string)
    : M (string * Z) :=
  match budget with
  | O => timeout
  | S budget' =>
      ds <- replicateM 3 (d <- randint 0 9 ;; ret (str d)) ;;
      let serial_number := String.concat "" ds in
      let cpr_nr_no_checksum := cpr_century ++ serial_number in
      checksum <- lift (_calculate_checksum cpr_nr_no_checksum) ;;
      if negb (checksum =? 10) then ret (serial_number, checksum)
      else _generate_serial_checksum budget' cpr_century
  end.

(** [s[-2:]]. *)
Definition last_two (s : string) : string :=
  substring (String.length s - 2)%nat 2 s.

Definition cpr (budget : nat) : M string :=
  birth_date <- Datetime.date_ 1900 2099 ;;
  let day := fmt02d (Datetime.day birth_date) in
  let month := fmt02d (Datetime.month birth_date) in
  let year := last_two (str (Datetime.year birth_date)) in
  let cpr_century := day ++ month ++ year in
  let cpr_century := if 2000 <=? Datetime.year birth_date
                     then day ++ month ++ year else cpr_century in
  sc <- _generate_serial_checksum budget cpr_century ;;
  let serial_number := fst sc in
  let checksum := snd sc in
  ret (cpr_century ++ serial_number ++ str checksum).

(** The check digit as the specification words it, over nine digits. *)
Definition cpr_spec_weighted_sum (ds : list Z) : Z :=
  sum (map (fun dw : Z * Z => fst dw * snd dw)
           (combine ds [4; 3; 2; 7; 6; 5; 4; 3; 2])).

Definition cpr_spec_check (ds : list Z) : Z :=
  let raw := 11 - cpr_spec_weighted_sum ds mod 11 in
  if raw =? 11 then 0 else raw.

End Da.

(** ** mimesis/builtins/it.py *)

Module It.

(** Modelled from the spec: the gender enumeration of the package's
    enums module, which is outside the modelled sources; the spec names
    its female and male members. *)
Inductive Gender : Type := MALE | FEMALE.

Definition gender_eqb (a b : Gender) : bool :=
  match a, b with
  | MALE, MALE | FEMALE, FEMALE => true
  | _, _ => false
  end.

(** The literal list of the [odd_sum] expression. *)
Definition remap : list Z := [1; 0; 5; 7; 9; 13; 15; 17; 19; 21].

(** A term of [even_sum]. *)
Definition even_term (c : ascii) : Z :=
  if isdigit c then digit_value c else ord c - 55.

(** A term of [odd_sum]. *)
Definition odd_term (c : ascii) : outcome Z :=
  if isdigit c then index remap (digit_value c) else index remap (ord c - 65).

(** The check character of the 15 characters in [code]. *)
Definition check_char (code : string) : outcome ascii :=
  let even_sum := sum (map even_term (every_other false (chars code))) in
  obind (omap odd_term (every_other true (chars code)))
    (fun terms =>
       let odd_sum := sum terms in
       Return (chr ((even_sum + odd_sum) mod 26 + 65))).

Definition fiscal_code (gender : option Gender) : M string :=
  surname <- choices (chars ascii_uppercase) 3 ;;
  name <- choices (chars ascii_uppercase) 3 ;;
  year <- randint 0 99 ;;
  month <- choice (chars "ABCDEHLMPRST") ;;
  day <- randint 1 31 ;;
  let day := match gender with
             | Some g => if gender_eqb g FEMALE then day + 40 else day
             | None => day
             end in
  place <- choices (chars (ascii_uppercase ++ digits)) 4 ;;
  let code := join surname ++ join name ++ fmt02d year
              ++ String month "" ++ fmt02d day ++ join place in
  check <- lift (check_char code) ;;
  ret (code ++ String check "").

(** The slot of the remap list a character selects, the character at
    a position, and the characters a generated code is made of. *)
Definition slot (c : ascii) : Z :=
  if isdigit c then digit_value c else ord c - 65.

Definition char_at (code : string) (i : nat) : ascii :=
  nth i (chars code) "0"%char.

Definition is_code_char (c : ascii) : bool :=
  isdigit c || ((65 <=? ord c) && (ord c <=? 90)).

Definition raises_IndexError {A} (o : outcome A) : bool :=
  match o with
  | Raise IndexError => true
  | _ => false
  end.

(** The check letter in the specification's words, for a 26-entry
    table [tbl]: characters at even 0-indexed positions count directly,
    those at odd positions through the table. *)
Definition spec_table_term (tbl : list Z) (c : ascii) : Z :=
  if isdigit c then nth (Z.to_nat (digit_value c)) tbl 0
  else nth (Z.to_nat (ord c - 65)) tbl 0.

Definition spec_check_char (tbl : list Z) (code : string) : ascii :=
  let even_sum := sum (map even_term (every_other true (chars code))) in
  let odd_sum := sum (map (spec_table_term tbl)
                          (every_other false (chars code))) in
  chr ((even_sum + odd_sum) mod 26 + 65).

End It.

(** ** mimesis/builtins/pt_br.py *)

Module PtBr.

Definition __get_verifying_digit_cpf (cpf : list Z) (weight : Z) : Z :=
  let total := sum (map (fun id : Z * Z => snd id * (weight - fst id))
                        (enumerate cpf)) in
  let remainder := total mod 11 in
  if remainder <? 2 then 0 else 11 - remainder.

(** [f"{cpf[i]}"] at an index in range. *)
Definition at_ (cpf : list Z) (i : nat) : string := str (nth i cpf 0).

Definition cpf (with_mask : bool) : M string :=
  cpf <- replicateM 9 (randint 0 9) ;;
  let cpf := (cpf ++ [__get_verifying_digit_cpf cpf 10])%list in
  let cpf := (cpf ++ [__get_verifying_digit_cpf cpf 11])%list in
  if with_mask
  then ret (at_ cpf 0 ++ at_ cpf 1 ++ at_ cpf 2 ++ "."
            ++ at_ cpf 3 ++ at_ cpf 4 ++ at_ cpf 5 ++ "."
            ++ at_ cpf 6 ++ at_ cpf 7 ++ at_ cpf 8 ++ "-"
            ++ at_ cpf 9 ++ at_ cpf 10)
  else ret (String.concat "" (map str cpf)).

(** The verifying digit in the specification's words: weights descend
    from [start], one per digit. *)
Definition spec_verifying_digit (start : Z) (ds : list Z) : Z :=
  let remainder := descending_sum start ds mod 11 in
  if remainder <? 2 then 0 else 11 - remainder.

End PtBr.

(** ** mimesis/providers/payment.py *)

Module Payment.

(** The table [CREDIT_CARD_NETWORKS] of the package's datasets module
    is outside the modelled sources, so it is a parameter, of either
    shape such a table can have: a mapping from network names to
    sequences of prefixes, or a plain sequence of network names. *)
Inductive networks : Type :=
| Mapping (items : list (string * list string))
| Sequence (names : list string).

(** [CREDIT_CARD_NETWORKS[key]] for a string [key]: a mapping answers
    with its entry or [KeyError]; a sequence takes no string index. *)
Definition networks_getitem (table : networks) (key : string)
    : outcome (list string) :=
  match table with
  | Mapping items => dict_get items key
  | Sequence _ => Raise TypeError
  end.

Section Datasets.

(** The table of networks and the card-type enumeration, which are
    outside the modelled sources. *)
Variable CREDIT_CARD_NETWORKS : networks.
Variable CardType : Enum.

Definition credit_card_number (card_type : enum_arg CardType) : M string :=
  card_type <- validate_enum CardType card_type ;;
  prefixes <- lift (networks_getitem CREDIT_CARD_NETWORKS
                      (value CardType card_type)) ;;
  prefix <- choice prefixes ;;
  ds <- replicateM (14 - Z.of_nat (String.length prefix))
          (choice (chars digits)) ;;
  let number := prefix ++ join ds in
  let number := number ++ luhn_checksum number in
  ret (String.concat " "
         (map (fun i => substring (Z.to_nat i) 4 number) (range 0 16 4))).

End Datasets.

End Payment.

(** ** Concrete generators used as inputs *)

Module Samples.

(** A generator whose every raw output is [x]. *)
Definition constant (x : Z) : Random := mkRandom (fun _ => x) 0.

(** A generator that replays [l], then zeros. *)
Definition replay (l : list Z) : Random := mkRandom (fun n => nth n l 0) 0.

End Samples.

(** ** Formatting and conversions used by the other providers *)

Module Fmt.

Fixpoint zeros (n : nat) : string :=
  match n with
  | O => ""
  | S k => "0" ++ zeros k
  end.

(** [f"{z:0Wd}"]: zero padding to [width], the sign counted in. *)
Definition fmt0d (width : nat) (z : Z) : string :=
  if z <? 0
  then let s := str (- z) in
       "-" ++ zeros (width - 1 - String.length s) ++ s
  else let s := str z in
       zeros (width - String.length s) ++ s.

(** [c.isupper()] on an ASCII character. *)
Definition isupper (c : ascii) : bool := (65 <=? ord c) && (ord c <=? 90).

(** [c.lower()] and [s.lower()] on ASCII text. *)
Definition lower_char (c : ascii) : ascii :=
  if (65 <=? ord c) && (ord c <=? 90) then chr (ord c + 32) else c.

Definition lower (s : string) : string := join (map lower_char (chars s)).

(** [int(s)] for a string of decimal digits (no sign, no blanks). *)
Definition int_digits (s : string) : outcome Z :=
  match chars s with
  | [] => Raise (ValueError "invalid literal for int()")
  | cs => obind (omap int_char cs)
                (fun ds => Return (fold_left (fun acc d => acc * 10 + d) ds 0))
  end.

(** The Brazilian remainder rule: below 2 gives 0, else 11 minus it. *)
Definition mod11_rule (total : Z) : Z :=
  if total mod 11 <? 2 then 0 else 11 - total mod 11.

(** The number a list of decimal digits writes. *)
Definition decimal_value (ds : list Z) : Z :=
  fold_left (fun acc d => acc * 10 + d) ds 0.

(** The sum of the products of paired digits and weights. *)
Fixpoint dot (ds ws : list Z) : Z :=
  match ds, ws with
  | d :: ds', w :: ws' => d * w + dot ds' ws'
  | _, _ => 0
  end.

Definition ascii_lowercase : string := "abcdefghijklmnopqrstuvwxyz".
Definition ascii_letters : string := ascii_lowercase ++ ascii_uppercase.
Definition hexdigits : string := "0123456789abcdefABCDEF".

End Fmt.
Import Fmt.

(** A computation that returns on every generator state, with a value
    satisfying [P]. *)
Definition always {A} (m : M A) (P : A -> Prop) : Prop :=
  forall r, exists a r', m r = (Return a, r') /\ P a.

(** ** mimesis/providers/payment.py, the other generators *)

Module PaymentMore.

Definition cid : M string :=
  cs <- replicateM 3 (choice (chars digits)) ;; ret (join cs).

Definition bitcoin_address : M string :=
  cs <- replicateM 33 (choice (chars (ascii_letters ++ digits))) ;;
  let address := join cs in
  ret ("1" ++ address).

Definition ethereum_address : M string :=
  cs <- replicateM 40 (choice (chars (lower hexdigits))) ;;
  let address := join cs in
  ret ("0x" ++ address).

Definition credit_card_expiration_date (minimum maximum : Z) : M string :=
  month <- randint 1 12 ;;
  year <- randint minimum maximum ;;
  ret (fmt0d 2 month ++ "/" ++ fmt0d 2 year).

Definition cvv : M string :=
  cs <- replicateM 3 (choice (chars digits)) ;; ret (join cs).

End PaymentMore.

(** ** mimesis/builtins/pt_br.py, CNPJ *)

Module Cnpj.

(** [sum(cnpj[i] * weight[i] for i in range(len(cnpj)))] and the
    remainder rule. *)
Definition __get_verifying_digit_cnpj (cnpj weight : list Z) : outcome Z :=
  obind (omap (fun i => obind (index cnpj i)
                          (fun c => obind (index weight i)
                                      (fun w => Return (c * w))))
              (range 0 (len cnpj) 1))
    (fun terms =>
       let total := sum terms in
       let remainder := total mod 11 in
       Return (if remainder <? 2 then 0 else 11 - remainder)).

Definition at_ (cnpj : list Z) (i : nat) : string := str (nth i cnpj 0).

Definition cnpj (with_mask : bool) : M string :=
  ds <- replicateM 8 (randint 0 9) ;;
  let cnpj := (ds ++ [0; 0; 0; 1])%list in
  let weight := [5; 4; 3; 2; 9; 8; 7; 6; 5; 4; 3; 2] in
  v1 <- lift (__get_verifying_digit_cnpj cnpj weight) ;;
  let cnpj := (cnpj ++ [v1])%list in
  let weight := [6; 5; 4; 3; 2; 9; 8; 7; 6; 5; 4; 3; 2] in
  v2 <- lift (__get_verifying_digit_cnpj cnpj weight) ;;
  let cnpj := (cnpj ++ [v2])%list in
  if with_mask
  then ret (at_ cnpj 0 ++ at_ cnpj 1 ++ "."
            ++ at_ cnpj 2 ++ at_ cnpj 3 ++ at_ cnpj 4 ++ "."
            ++ at_ cnpj 5 ++ at_ cnpj 6 ++ at_ cnpj 7 ++ "/"
            ++ at_ cnpj 8 ++ at_ cnpj 9 ++ at_ cnpj 10 ++ at_ cnpj 11 ++ "-"
            ++ at_ cnpj 12 ++ at_ cnpj 13)
  else ret (String.concat "" (map str cnpj)).

End Cnpj.

(** ** mimesis/builtins/nl.py *)

Module Nl.

Definition bsn : M string :=
  ds <- replicateM 8 (randint 0 9) ;;
  let total := sum (map (fun id : Z * Z => (9 - fst id) * snd id) (enumerate ds)) in
  let check_digit := (total mod 11) mod 10 in
  let ds := (ds ++ [check_digit])%list in
  ret (String.concat "" (map str ds)).

Definition burgerservicenummer : M string := bsn.

End Nl.

(** ** mimesis/builtins/en.py *)

Module En.

Definition tracking_number (service : string) : M string :=
  let service := lower service in
  if (service =? "usps")%string then
    a <- randint 1000 9999 ;; b <- randint 1000 9999 ;;
    c <- randint 1000 9999 ;; d <- randint 1000 9999 ;;
    e <- randint 10 99 ;;
    ret (str a ++ " " ++ str b ++ " " ++ str c ++ " " ++ str d ++ " " ++ str e)
  else if (service =? "fedex")%string then
    a <- randint 1000 9999 ;; b <- randint 1000 9999 ;;
    c <- randint 1000 9999 ;;
    ret (str a ++ " " ++ str b ++ " " ++ str c)
  else if (service =? "ups")%string then
    a <- randint 100 999 ;;
    l <- choice (chars "ABCDEFGHIJKLMNOPQRSTUVWXYZ") ;;
    b <- randint 10 99 ;;
    c <- randint 1000 9999 ;; d <- randint 1000 9999 ;;
    e <- randint 1 9 ;;
    ret ("1Z " ++ str a ++ " " ++ String l "" ++ str b ++ " " ++ str c
         ++ " " ++ str d ++ " " ++ str e)
  else raise (ValueError "Unsupported service. Choose 'usps', 'fedex', or 'ups'.").

Definition ssn : M string :=
  area <- randint 1 899 ;;
  group <- randint 1 99 ;;
  serial <- randint 1 9999 ;;
  let area := if area =? 666 then 667 else area in
  let group := if group =? 0 then 1 else group in
  ret (fmt0d 3 area ++ "-" ++ fmt0d 2 group ++ "-" ++ fmt0d 4 serial).

End En.

(** ** mimesis/builtins/pl.py *)

Module Pl.

Definition nip : M string :=
  let weights := [6; 5; 7; 2; 3; 4; 5; 6; 7] in
  nip <- replicateM 9 (randint 0 9) ;;
  let checksum := sum (map (fun wd : Z * Z => fst wd * snd wd)
                           (combine weights nip)) mod 11 in
  let checksum := if checksum =? 10 then 0 else checksum in
  let nip := (nip ++ [checksum])%list in
  ret (String.concat "" (map str nip)).

Definition regon : M string :=
  let weights := [8; 9; 2; 3; 4; 5; 6; 7] in
  regon <- replicateM 8 (randint 0 9) ;;
  let checksum := sum (map (fun wd : Z * Z => fst wd * snd wd)
                           (combine weights regon)) mod 11 in
  let checksum := if checksum =? 10 then 0 else checksum in
  let regon := (regon ++ [checksum])%list in
  ret (String.concat "" (map str regon)).

(** The month field of a PESEL for a birth year and month. *)
Definition pesel_month (year month : Z) : Z :=
  if (1800 <=? year) && (year <=? 1899) then month + 80
  else if (2000 <=? year) && (year <=? 2099) then month + 20
  else if (2100 <=? year) && (year <=? 2199) then month + 40
  else if (2200 <=? year) && (year <=? 2299) then month + 60
  else month.

(** [pesel(birth_date, gender)].  Without a birth date one is taken
    from [Datetime().datetime()]: a new provider with a generator of its
    own, seeded from the clock ([entropy]), over the current year. *)
Definition pesel (current_year : Z) (entropy : nat -> Z)
    (birth_date : option Datetime.date) (gender : option It.Gender)
    : M string :=
  birth_date <- match birth_date with
                | Some d => ret d
                | None =>
                    lift (obind (fst (Datetime.datetime_ current_year current_year
                                        (mkRandom entropy 0)))
                                (fun dt => Return (fst dt)))
                end ;;
  gender <- match gender with
            | None => choice [It.MALE; It.FEMALE]
            | Some g => ret g
            end ;;
  let year := Datetime.year birth_date in
  let month := Datetime.month birth_date in
  let day := Datetime.day birth_date in
  let month := pesel_month year month in
  let pesel := fmt0d 2 (year mod 100) ++ fmt0d 2 month ++ fmt0d 2 day in
  serial <- randint 0 999 ;;
  let pesel := pesel ++ fmt0d 3 serial in
  g <- (if It.gender_eqb gender It.FEMALE
        then choice [0; 2; 4; 6; 8]
        else choice [1; 3; 5; 7; 9]) ;;
  let pesel := pesel ++ str g in
  let weights := [1; 3; 7; 9; 1; 3; 7; 9; 1; 3] in
  terms <- lift (omap (fun pw : ascii * Z =>
                         obind (int_char (fst pw)) (fun p => Return (p * snd pw)))
                      (combine (chars pesel) weights)) ;;
  let checksum := sum terms in
  let checksum := (10 - checksum mod 10) mod 10 in
  ret (pesel ++ str checksum).

End Pl.

(** ** mimesis/builtins/ru.py *)

Module Ru.

(** The local function [calculate_checksum] of [snils]. *)
Definition snils_checksum (number : string) : outcome Z :=
  obind (omap (fun id : Z * ascii =>
                 obind (int_char (snd id)) (fun d => Return ((9 - fst id) * d)))
              (enumerate (chars number)))
    (fun terms =>
       let total := sum terms in
       if total <? 100 then Return total
       else if (total =? 100) || (total =? 101) then Return 0
       else Return (total mod 101)).

Definition snils : M string :=
  ds <- replicateM 9 (d <- randint 0 9 ;; ret (str d)) ;;
  let number := String.concat "" ds in
  checksum <- lift (snils_checksum number) ;;
  ret (number ++ fmt0d 2 checksum).

(** The local function [calculate_checksum] of [inn]. *)
Definition inn_checksum (number : string) (coefficients : list Z) : outcome string :=
  obind (omap (fun nc : ascii * Z =>
                 obind (int_char (fst nc)) (fun n => Return (n * snd nc)))
              (combine (chars number) coefficients))
    (fun terms => Return (str ((sum terms mod 11) mod 10))).

Definition inn : M string :=
  ds <- replicateM 9 (d <- randint 0 9 ;; ret (str d)) ;;
  let base := String.concat "" ds in
  n10 <- lift (inn_checksum base [2; 4; 10; 3; 5; 9; 4; 6; 8]) ;;
  n11 <- lift (inn_checksum (base ++ n10) [7; 2; 4; 10; 3; 5; 9; 4; 6; 8]) ;;
  ret (base ++ n10 ++ n11).

Definition ogrn : M string :=
  ds <- replicateM 12 (d <- randint 0 9 ;; ret (str d)) ;;
  let base := String.concat "" ds in
  n <- lift (int_digits base) ;;
  let check_digit := str ((n mod 11) mod 10) in
  ret (base ++ check_digit).

Definition bic : M string :=
  let country_code := "04" in
  region <- randint 1 99 ;;
  let region_code := fmt0d 2 region in
  ds <- replicateM 5 (d <- randint 0 9 ;; ret (str d)) ;;
  let bank_code := String.concat "" ds in
  ret (country_code ++ region_code ++ bank_code).

Definition kpp : M string :=
  a <- randint 1 9999 ;;
  let tax_authority := fmt0d 4 a in
  b <- randint 1 99 ;;
  let reason_code := fmt0d 2 b in
  c <- randint 1 999 ;;
  let registration_number := fmt0d 3 c in
  ret (tax_authority ++ reason_code ++ registration_number).

Definition passport_number : M Z := randint 100000 999999.

End Ru.

(** ** mimesis/providers/base.py, the dataset of a data provider *)

Module Dataset.

#[local] Set Warnings "-register-all".

(** A JSON value as [json.load] gives it; a dictionary is its list of
    items in insertion order, with distinct keys. *)
Inductive json : Type :=
| JNull
| JBool (b : bool)
| JNum (n : Z)
| JStr (s : string)
| JList (l : list json)
| JDict (items : list (string * json)).

(** [d.get(key)] on the items of a dictionary. *)
Fixpoint lookup (items : list (string * json)) (key : string) : option json :=
  match items with
  | [] => None
  | (k, v) :: rest => if (key =? k)%string then Some v else lookup rest key
  end.

(** [d[key] = v] on the items of a dictionary: an existing key keeps
    its place, a new one goes last. *)
Fixpoint store (items : list (string * json)) (key : string) (v : json)
    : list (string * json) :=
  match items with
  | [] => [(key, v)]
  | (k, x) :: rest =>
      if (key =? k)%string then (k, v) :: rest else (k, x) :: store rest key v
  end.

Definition is_dict (v : json) : bool :=
  match v with
  | JDict _ => true
  | _ => false
  end.

(** [initial[key] = v]: only a dictionary takes a string key. *)
Definition setitem_json (initial : json) (key : string) (v : json) : outcome json :=
  match initial with
  | JDict items => Return (JDict (store items key v))
  | _ => Raise TypeError
  end.

(** [initial.get(key, {})]: only a dictionary has [get]. *)
Definition get_or_empty (initial : json) (key : string) : outcome json :=
  match initial with
  | JDict items =>
      match lookup items key with
      | Some v => Return v
      | None => Return (JDict [])
      end
  | _ => Raise (AttributeError "get")
  end.

(** [_update_dict(initial, other)]: the recursive merge.  The result is
    the updated [initial]. *)
Fixpoint _update_dict (initial : json) (other : json) {struct other}
    : outcome json :=
  match other with
  | JDict items =>
      (fix loop (its : list (string * json)) (initial : json) {struct its}
         : outcome json :=
         match its with
         | [] => Return initial
         | (key, value) :: rest =>
             obind (if is_dict value
                    then obind (get_or_empty initial key)
                           (fun cur => obind (_update_dict cur value)
                                         (fun merged => setitem_json initial key merged))
                    else setitem_json initial key value)
                   (fun initial' => loop rest initial')
         end) items initial
  | _ => Raise (AttributeError "items")
  end.

(** One pass of the loop of [_update_dict], and the loop over the
    items of [other]. *)
Definition update_step (initial : json) (key : string) (value : json)
    : outcome json :=
  if is_dict value
  then obind (get_or_empty initial key)
         (fun cur => obind (_update_dict cur value)
                       (fun merged => setitem_json initial key merged))
  else setitem_json initial key value.

Fixpoint update_loop (its : list (string * json)) (initial : json)
    : outcome json :=
  match its with
  | [] => Return initial
  | (key, value) :: rest =>
      obind (update_step initial key value) (fun initial' => update_loop rest initial')
  end.

(** [reduce(operator.getitem, keys, dataset)]. *)
Fixpoint getitem_path (d : json) (keys : list string) : outcome json :=
  match keys with
  | [] => Return d
  | k :: rest =>
      match d with
      | JDict items =>
          match lookup items k with
          | Some v => getitem_path v rest
          | None => Raise (KeyError k)
          end
      | _ => Raise TypeError
      end
  end.

(** [_extract(keys, default)] on a provider whose dataset is [dataset]. *)
Definition _extract (dataset : json) (keys : list string) (default : json)
    : outcome json :=
  match getitem_path dataset keys with
  | Return v => Return v
  | Raise (KeyError _) => Return default
  | Raise TypeError => Return default
  | Raise e => Raise e
  | Timeout => Timeout
  end.

(** [update_dataset(data)]: the new dataset. *)
Definition update_dataset (dataset data : json) : outcome json :=
  _update_dict dataset data.

(** The value that a list of keys leads to, going down nested
    dictionaries one key at a time. *)
Inductive reaches : json -> list string -> json -> Prop :=
| reaches_here (d : json) : reaches d [] d
| reaches_down (items : list (string * json)) (k : string) (ks : list string)
    (x v : json) :
    lookup items k = Some x -> reaches x ks v ->
    reaches (JDict items) (k :: ks) v.

End Dataset.

(** ** Shapes of generated strings *)

Module Shape.

(** [c.islower()], [c.isalnum()] on an ASCII character, and the
    lower-case hexadecimal digits. *)
Definition islower (c : ascii) : bool := (97 <=? ord c) && (ord c <=? 122).

Definition isalnum (c : ascii) : bool := isdigit c || isupper c || islower c.

Definition is_lower_hex (c : ascii) : bool :=
  isdigit c || ((97 <=? ord c) && (ord c <=? 102)).

(** A string follows a mask when it has the mask's length, with a
    decimal digit for each [#], an upper-case letter for each [@] and the
    mask's own character everywhere else. *)
Fixpoint follows (mask s : list ascii) : bool :=
  match mask, s with
  | [], [] => true
  | m :: mask', c :: s' =>
      (if Ascii.eqb m "#" then isdigit c
       else if Ascii.eqb m "@" then isupper c
       else Ascii.eqb m c)
      && follows mask' s'
  | _, _ => false
  end.

Definition follows_mask (mask s : string) : bool :=
  follows (chars mask) (chars s).

End Shape.
Import Shape.

(** ** mimesis/providers/date.py, bulk_create_datetimes *)

Module Bulk.

(** A naive [datetime] is its number of microseconds since
    [datetime.min]; [datetime.max] is the last microsecond of the year
    9999, which is 3652059 days after the first day.  A [timedelta] is
    its (signed) number of microseconds. *)
Definition datetime_max : Z := 3652059 * 86400 * 1000000 - 1.

(** The exceptions of this function: its own [ValueError]s and the
    [OverflowError] of [datetime + timedelta] outside the range of
    dates. *)
Inductive failure : Type :=
| Value_error (msg : string)
| Overflow_error.

Inductive answer : Type :=
| Done (result : list Z)
| Failed (f : failure)
| Unfinished.

(** [current + step]. *)
Definition add (current step : Z) : option Z :=
  let next := current + step in
  if (0 <=? next) && (next <=? datetime_max) then Some next else None.

(** The [while current <= date_end] loop, run for at most [budget]
    rounds. *)
Fixpoint loop (budget : nat) (current date_end step : Z) (result : list Z)
    : answer :=
  match budget with
  | O => Unfinished
  | S budget' =>
      if current <=? date_end then
        let result := (result ++ [current])%list in
        match add current step with
        | Some current' => loop budget' current' date_end step result
        | None => Failed Overflow_error
        end
      else Done result
  end.

(** [bulk_create_datetimes(date_start, date_end, ...)], where [step]
    is the [timedelta] built from the keyword arguments and [None]
    stands for a bound that was not passed. *)
Definition bulk_create_datetimes (budget : nat) (date_start date_end : option Z)
    (step : Z) : answer :=
  match date_start, date_end with
  | Some date_start, Some date_end =>
      if date_end <? date_start
      then Failed (Value_error "date_start must be earlier than date_end.")
      else if step <=? 0
      then Failed (Value_error "The timedelta step must be positive.")
      else loop budget date_start date_end step []
  | _, _ => Failed (Value_error "Both date_start and date_end must be provided.")
  end.

End Bulk.

(** ** Binary64 arithmetic, for calls with integer arguments *)

Module Binary64.

(** Every finite double is an integer multiple of 2^-1074, so a
    non-negative real number is rounded on the scale of these multiples:
    a scaled value whose integer part has [L] bits keeps its upper 53
    bits, that is, it goes to the nearest multiple of 2^(L - 53) (of 1
    up to 53 bits, which covers the subnormal numbers), a tie to the even
    multiple. *)
Definition scale : Z := 2 ^ 1074.

Definition exponent (t : Q) : Z := Z.max 0 (Z.log2 (Qfloor t) + 1 - 53).

Definition spacing (t : Q) : Z := 2 ^ exponent t.

Definition round_scaled (t : Q) : Z :=
  round_half_even (t / inject_Z (spacing t)) * spacing t.

(** Rounding to nearest, ties to even, with an unbounded exponent. *)
Definition nearest (q : Q) : Q :=
  if Qle_bool 0 q
  then inject_Z (round_scaled (q * inject_Z scale)) / inject_Z scale
  else - (inject_Z (round_scaled (- q * inject_Z scale)) / inject_Z scale).

(** A double: a finite value or an infinity.  The operations below have
    at most one operand that can be infinite and none that multiplies an
    infinity, so no not-a-number arises. *)
Inductive double : Type :=
| Finite (q : Q)
| Inf (negative : bool).

(** The double of a real result: the nearest one, an infinity when
    that is 2^1024 or beyond. *)
Definition to_double (q : Q) : double :=
  let x := nearest q in
  if Qle_bool (inject_Z (2 ^ 1024)) (Qabs x)
  then Inf (negb (Qle_bool 0 q))
  else Finite x.

(** [float(z)], as an operation between an [int] and a [float] does it
    to the integer: [OverflowError] when the integer is too large. *)
Definition of_int (z : Z) : outcome Q :=
  match to_double (inject_Z z) with
  | Finite x => Return x
  | Inf _ => Raise OverflowError
  end.

(** [x + y] and [x - y] with one finite operand. *)
Definition add (x : Q) (y : double) : double :=
  match y with
  | Finite q => to_double (x + q)
  | Inf s => Inf s
  end.

Definition sub (x : double) (y : Q) : double :=
  match x with
  | Finite q => to_double (q - y)
  | Inf s => Inf s
  end.

(** [x <= 0]. *)
Definition le_zero (x : double) : bool :=
  match x with
  | Finite q => Qle_bool q 0
  | Inf negative => negative
  end.

(** The built-in [round(x, ndigits)] on a float: the double nearest to
    the decimal rounding of [x]; an infinity rounds to itself. *)
Definition round_ (x : double) (ndigits : Z) : outcome double :=
  match x with
  | Inf s => Return (Inf s)
  | Finite q =>
      match to_double (round q ndigits) with
      | Finite y => Return (Finite y)
      | Inf _ => Raise OverflowError
      end
  end.

(** [uniform(a, b, precision)] of the class [Random], called with
    integers [a] and [b]: [round(a + (b - a) * self.random(), precision)],
    where the product and the sum turn the integers into floats. *)
Definition uniform (a b : Z) (precision : Z) : M double :=
  u <- random ;;
  d <- lift (of_int (b - a)) ;;
  let m := to_double (d * u) in
  x <- lift (of_int a) ;;
  lift (round_ (add x m) precision).

(** The loop of [weighted_choice] over integer weights. *)
Fixpoint walk {K} (r : double) (items : list (K * Z)) : outcome (option K) :=
  match items with
  | [] => Return None
  | (choice, weight) :: rest =>
      obind (of_int weight)
        (fun w =>
           let r := sub r w in
           if le_zero r then Return (Some choice) else walk r rest)
  end.

(** [weighted_choice(choices)] of the class [Random], called with
    integer weights; the dictionary is its list of items in insertion
    order. *)
Definition weighted_choice {K} (choices : list (K * Z)) : M (option K) :=
  match choices with
  | [] => raise (ValueError "Choices dictionary cannot be empty.")
  | _ =>
      let total := sum (map snd choices) in
      r <- uniform 0 total 15 ;;
      lift (walk r choices)
  end.

End Binary64.

(** ** A generation session *)

Module Session.

(** What a generation call hands back. *)
Inductive value : Type :=
| VStr (s : string)
| VNone
| VFloat (x : Q)
| VInt (n : Z)
| VInts (l : list Z)
| VDate (d : Datetime.date)
| VTime (t : Datetime.time)
| VDatetime (d : Datetime.date) (t : Datetime.time).

Section World.

Variable EAN_MASKS : list (string * string).
Variable IMEI_TACS : list string.
Variable ISBN_GROUPS : list (string * string).
Variable ISBN_MASKS : list (string * string).
Variable LOCALE_CODES : list string.
Variable CREDIT_CARD_NETWORKS : Payment.networks.
Variable ISBNFormat : Enum.
Variable EANFormat : Enum.
Variable CardType : Enum.

(** The year the clock shows, and the generators that calls make for
    themselves during the session: the [k]-th of them is seeded by the
    operating system and has the output sequence [fresh k]. *)
Variable current_year : Z.
Variable fresh : nat -> nat -> Z.

(** The generation calls of the modelled providers and of [Random]. *)
Inductive call : Type :=
| Cpf (with_mask : bool)
| Cnpj (with_mask : bool)
| Cpr
| FiscalCode (gender : option It.Gender)
| CreditCardNumber (card_type : enum_arg CardType)
| Cid
| Cvv
| BitcoinAddress
| EthereumAddress
| CreditCardExpirationDate (minimum maximum : Z)
| LocaleCode
| Issn (mask : string)
| Isbn (fmt : enum_arg ISBNFormat) (locale : string)
| Ean (fmt : enum_arg EANFormat)
| Imei
| Pin (mask : string)
| TrackingNumber (service : string)
| Ssn
| Bsn
| Nip
| Regon
| Pesel (birth_date : option Datetime.date) (gender : option It.Gender)
| Snils
| Inn
| Ogrn
| Bic
| Kpp
| PassportNumber
| Year (minimum maximum : Z)
| Date (start end_ : Z)
| Time
| WeekDate (start end_ : Z)
| DayOfMonth
| DatetimeOf (start end_ : Z)
| GenerateStringByMask (mask char digit : string)
| GenerateString (str_seq : string) (length : Z)
| WeightedChoice (choices : list (string * Q))
| Uniform (a b : Q) (precision : Z)
| Randints (n a b : Z)
| Randbytes (n : Z).

Definition as_str (m : M string) : M value := s <- m ;; ret (VStr s).
Definition as_int (m : M Z) : M value := n <- m ;; ret (VInt n).

(** A call that makes a generator of its own: [pesel] without a birth
    date builds a new [Datetime()] provider, with no seed. *)
Definition makes_generator (c : call) : bool :=
  match c with
  | Pesel None _ => true
  | _ => false
  end.

(** One call on a provider whose generator is the state, when [made]
    generators have been made so far; [budget] bounds the rounds of the
    Danish redraw loop. *)
Definition perform (budget : nat) (c : call) (made : nat) : M value :=
  match c with
  | Cpf with_mask => as_str (PtBr.cpf with_mask)
  | Cnpj with_mask => as_str (Cnpj.cnpj with_mask)
  | Cpr => as_str (Da.cpr budget)
  | FiscalCode gender => as_str (It.fiscal_code gender)
  | CreditCardNumber card_type =>
      as_str (Payment.credit_card_number CREDIT_CARD_NETWORKS CardType card_type)
  | Cid => as_str PaymentMore.cid
  | Cvv => as_str PaymentMore.cvv
  | BitcoinAddress => as_str PaymentMore.bitcoin_address
  | EthereumAddress => as_str PaymentMore.ethereum_address
  | CreditCardExpirationDate minimum maximum =>
      as_str (PaymentMore.credit_card_expiration_date minimum maximum)
  | LocaleCode => as_str (Code.locale_code LOCALE_CODES)
  | Issn mask => as_str (Code.issn mask)
  | Isbn fmt locale =>
      as_str (Code.isbn ISBN_GROUPS ISBN_MASKS ISBNFormat fmt locale)
  | Ean fmt => as_str (Code.ean EAN_MASKS EANFormat fmt)
  | Imei => as_str (Code.imei IMEI_TACS)
  | Pin mask => as_str (Code.pin mask)
  | TrackingNumber service => as_str (En.tracking_number service)
  | Ssn => as_str En.ssn
  | Bsn => as_str Nl.bsn
  | Nip => as_str Pl.nip
  | Regon => as_str Pl.regon
  | Pesel birth_date gender =>
      as_str (Pl.pesel current_year (fresh made) birth_date gender)
  | Snils => as_str Ru.snils
  | Inn => as_str Ru.inn
  | Ogrn => as_str Ru.ogrn
  | Bic => as_str Ru.bic
  | Kpp => as_str Ru.kpp
  | PassportNumber => as_int Ru.passport_number
  | Year minimum maximum => as_int (Datetime.year_ minimum maximum)
  | Date start end_ => d <- Datetime.date_ start end_ ;; ret (VDate d)
  | Time => t <- Datetime.time_ ;; ret (VTime t)
  | WeekDate start end_ => as_str (Datetime.week_date start end_)
  | DayOfMonth => as_int Datetime.day_of_month
  | DatetimeOf start end_ =>
      dt <- Datetime.datetime_ start end_ ;; ret (VDatetime (fst dt) (snd dt))
  | GenerateStringByMask mask char digit =>
      as_str (generate_string_by_mask mask char digit)
  | GenerateString str_seq length => as_str (_generate_string str_seq length)
  | WeightedChoice choices =>
      k <- weighted_choice choices ;;
      ret (match k with
           | Some k => VStr k
           | None => VNone
           end)
  | Uniform a b precision => x <- uniform a b precision ;; ret (VFloat x)
  | Randints n a b => l <- randints n a b ;; ret (VInts l)
  | Randbytes n => l <- randbytes n ;; ret (VInts l)
  end.

(** A sequence of calls on one provider; each call starts from the
    generator state its predecessor left, also after an exception. *)
Fixpoint run (budget : nat) (calls : list call) (made : nat) (r : Random)
    : list (outcome value) :=
  match calls with
  | [] => []
  | c :: rest =>
      let (o, r') := perform budget c made r in
      o :: run budget rest (if makes_generator c then S made else made) r'
  end.

End World.

Arguments makes_generator {ISBNFormat EANFormat CardType} c.

End Session.

(** * Properties *)

(** ** The Python layer *)

Lemma fold_add_acc (l : list Z) (a : Z) :
  fold_left Z.add l a = a + fold_left Z.add l 0.
Proof.
  revert a. induction l as [|x l IH]; intros a; simpl.
  - lia.
  - rewrite IH, (IH x). lia.
Qed.

Lemma sum_cons (x : Z) (l : list Z) : sum (x :: l) = x + sum l.
Proof. unfold sum. simpl. apply fold_add_acc. Qed.

Lemma sum_nil : sum [] = 0.
Proof. reflexivity. Qed.

Lemma length_list_set {A} (l : list A) (i : nat) (v : A) :
  List.length (list_set l i v) = List.length l.
Proof.
  revert i. induction l as [|x l IH]; intros [|i]; simpl; auto.
Qed.

Lemma nth_list_set {A} (l : list A) (i j : nat) (v d : A) :
  (i < List.length l)%nat ->
  nth j (list_set l i v) d = if Nat.eqb j i then v else nth j l d.
Proof.
  revert i j. induction l as [|x l IH]; intros i j Hi; simpl in Hi.
  - lia.
  - destruct i as [|i], j as [|j]; simpl; auto.
    apply IH. lia.
Qed.

(** [range(0, n)] lists the naturals below [n]. *)
Lemma range_upto (n : nat) : range 0 (Z.of_nat n) 1 = map Z.of_nat (seq 0 n).
Proof.
  unfold range. cbv zeta. change (0 <? 1) with true. cbv iota.
  replace ((Z.of_nat n - 0 + 1 - 1) / 1) with (Z.of_nat n)
    by (rewrite Z.div_1_r; lia).
  rewrite Nat2Z.id. apply map_ext. intros k. lia.
Qed.

(** The indices the Luhn loop visits. *)
Lemma range_luhn (n : Z) :
  range (n - 2) (-1) (-2)
  = map (fun k => n - 2 - 2 * Z.of_nat k) (seq 0 (Z.to_nat (n / 2))).
Proof.
  unfold range. cbv zeta. change (0 <? -2) with false. cbv iota.
  replace ((n - 2 - -1 - -2 - 1) / - -2) with (n / 2) by (f_equal; lia).
  apply map_ext. intros k. lia.
Qed.

Lemma In_range_luhn (n j : Z) :
  0 <= n ->
  In j (range (n - 2) (-1) (-2)) <-> (0 <= j < n /\ (n - 1 - j) mod 2 = 1).
Proof.
  intros Hn. rewrite range_luhn, in_map_iff. split.
  - intros [k [Hk Hin]]. apply in_seq in Hin.
    assert (Z.of_nat k < n / 2) by lia.
    subst j. split.
    + pose proof (Z.mul_div_le n 2 ltac:(lia)). clear Hin.
      generalize dependent (n / 2). intros q Hq1 Hq2. lia.
    + replace (n - 1 - (n - 2 - 2 * Z.of_nat k)) with (1 + Z.of_nat k * 2) by lia.
      rewrite Z.mod_add by lia. reflexivity.
  - intros [Hj Hm]. exists (Z.to_nat ((n - 2 - j) / 2)).
    pose proof (Z.div_mod (n - 1 - j) 2 ltac:(lia)) as Hq.
    rewrite Hm in Hq.
    remember ((n - 1 - j) / 2) as q eqn:Eq.
    assert (He : (n - 2 - j) / 2 = q).
    { symmetry. apply Z.div_unique with (r := 0); lia. }
    assert (Hh : q + 1 <= n / 2).
    { apply Z.div_le_lower_bound; lia. }
    rewrite He. clear Eq He Hm.
    remember (n / 2) as h eqn:Eh. clear Eh.
    split.
    + rewrite Z2Nat.id by lia. lia.
    + apply in_seq. lia.
Qed.

Lemma NoDup_range_luhn (n : Z) : NoDup (range (n - 2) (-1) (-2)).
Proof.
  rewrite range_luhn. apply Injective_map_NoDup.
  - intros a b Hab. lia.
  - apply seq_NoDup.
Qed.

(** ** Luhn check digit *)

Lemma luhn_body_length (ds : list Z) (i : Z) :
  List.length (luhn_body ds i) = List.length ds.
Proof.
  unfold luhn_body, setitem.
  destruct (9 <? _); now rewrite ?length_list_set.
Qed.

Lemma luhn_body_nth (ds : list Z) (i : Z) (j : nat) :
  0 <= i < len ds ->
  nth j (luhn_body ds i) 0
  = if Z.of_nat j =? i then luhn_dbl (nth j ds 0) else nth j ds 0.
Proof.
  intros Hi. unfold len in Hi.
  assert (Hk : (Z.to_nat i < List.length ds)%nat) by lia.
  unfold luhn_body, setitem, getitem, luhn_dbl.
  rewrite (nth_list_set ds _ (Z.to_nat i)) by exact Hk.
  rewrite Nat.eqb_refl.
  destruct (Z.eqb_spec (Z.of_nat j) i) as [E|E].
  - assert (j = Z.to_nat i) by lia. subst j.
    destruct (9 <? _).
    + rewrite nth_list_set by (now rewrite length_list_set).
      now rewrite Nat.eqb_refl.
    + rewrite nth_list_set by exact Hk. now rewrite Nat.eqb_refl.
  - assert (Hne : Nat.eqb j (Z.to_nat i) = false) by (apply Nat.eqb_neq; lia).
    destruct (9 <? _).
    + rewrite nth_list_set by (now rewrite length_list_set).
      rewrite Hne. rewrite nth_list_set by exact Hk. now rewrite Hne.
    + rewrite nth_list_set by exact Hk. now rewrite Hne.
Qed.

(** Folding the loop body over distinct indices doubles exactly the
    digits at those indices. *)
Lemma luhn_fold_nth (idxs : list Z) :
  forall ds : list Z,
    NoDup idxs ->
    (forall i, In i idxs -> 0 <= i < len ds) ->
    List.length (fold_left luhn_body idxs ds) = List.length ds /\
    forall j : nat,
      nth j (fold_left luhn_body idxs ds) 0
      = if existsb (Z.eqb (Z.of_nat j)) idxs
        then luhn_dbl (nth j ds 0) else nth j ds 0.
Proof.
  induction idxs as [|i idxs IH]; intros ds Hnd Hin; simpl.
  - split; auto.
  - inversion Hnd as [|? ? Hni Hnd']; subst.
    assert (Hi : 0 <= i < len ds) by (apply Hin; now left).
    destruct (IH (luhn_body ds i) Hnd') as [Hlen Hnth].
    { intros k Hk. unfold len. rewrite luhn_body_length. apply Hin. now right. }
    split.
    + now rewrite Hlen, luhn_body_length.
    + intros j. rewrite Hnth, luhn_body_nth by exact Hi.
      destruct (Z.eqb_spec (Z.of_nat j) i) as [E|E]; simpl.
      * destruct (existsb _ idxs) eqn:Ex; auto.
        apply existsb_exists in Ex. destruct Ex as [k [Hk Hjk]].
        apply Z.eqb_eq in Hjk. exfalso. apply Hni. congruence.
      * reflexivity.
Qed.

Lemma alternate_length (phase : Z) (ds : list Z) :
  List.length (alternate phase ds) = List.length ds.
Proof.
  unfold alternate. rewrite length_map, length_combine, length_seq. lia.
Qed.

Lemma alternate_nth (phase : Z) (ds : list Z) (j : nat) :
  (j < List.length ds)%nat ->
  nth j (alternate phase ds) 0
  = if (len ds - 1 - Z.of_nat j) mod 2 =? phase
    then luhn_dbl (nth j ds 0) else nth j ds 0.
Proof.
  intros Hj. unfold alternate.
  set (f := fun jd : nat * Z => _).
  rewrite (nth_indep _ 0 (f (O, 0)))
    by (rewrite length_map, length_combine, length_seq; lia).
  rewrite map_nth, combine_nth by (now rewrite length_seq).
  rewrite seq_nth by exact Hj. unfold f. simpl. reflexivity.
Qed.

(** The loop doubles the digits at odd distance from the rightmost
    digit and leaves the rightmost digit as it is. *)
Lemma luhn_loop_alternate (ds : list Z) : luhn_loop ds = alternate 1 ds.
Proof.
  unfold luhn_loop.
  assert (Hn : 0 <= len ds) by (unfold len; lia).
  destruct (luhn_fold_nth (range (len ds - 2) (-1) (-2)) ds) as [Hlen Hnth].
  { apply NoDup_range_luhn. }
  { intros i Hi. apply In_range_luhn in Hi; tauto. }
  apply nth_ext with (d := 0) (d' := 0).
  - now rewrite Hlen, alternate_length.
  - intros j Hj. rewrite Hlen in Hj.
    rewrite Hnth, alternate_nth by exact Hj.
    destruct (existsb _ _) eqn:Ex.
    + apply existsb_exists in Ex. destruct Ex as [k [Hk Hjk]].
      apply Z.eqb_eq in Hjk. subst k.
      apply In_range_luhn in Hk; [|exact Hn].
      destruct Hk as [_ Hm]. rewrite Hm. reflexivity.
    + destruct (Z.eqb_spec ((len ds - 1 - Z.of_nat j) mod 2) 1) as [E|E]; auto.
      assert (Hin : In (Z.of_nat j) (range (len ds - 2) (-1) (-2))).
      { apply In_range_luhn; [exact Hn|]. unfold len in *. split; [lia|exact E]. }
      assert (Ht : existsb (Z.eqb (Z.of_nat j)) (range (len ds - 2) (-1) (-2)) = true).
      { apply existsb_exists. exists (Z.of_nat j). split; [exact Hin|apply Z.eqb_refl]. }
      congruence.
Qed.

(** C1: the code departs from the Luhn rule.  On every input it
    doubles the digits at even distance from the check position (the
    rightmost base digit is left as it is and its left neighbour is
    doubled), where the rule doubles those at odd distance, the
    rightmost base digit first; on the base digits 4012888888188 it
    returns 0 where the rule gives 6. *)
Theorem luhn_checksum_doubles_wrong_digits :
  (forall num : string,
      luhn_checksum num
      = str ((10 - sum (alternate 1 (luhn_digits num)) mod 10) mod 10))
  /\ luhn_checksum "4012888888188" = "0"
  /\ luhn_spec "4012888888188" = "6".
Proof.
  split.
  - intros num. unfold luhn_checksum. now rewrite luhn_loop_alternate.
  - split; vm_compute; reflexivity.
Qed.

(** ** Decimal digits *)

Ltac digit_cases d H :=
  unfold is_digit in H;
  assert (d = 0 \/ d = 1 \/ d = 2 \/ d = 3 \/ d = 4 \/ d = 5 \/ d = 6
          \/ d = 7 \/ d = 8 \/ d = 9) as Hcases by lia;
  clear H;
  repeat (destruct Hcases as [Hcases|Hcases]; [subst d|]); [..|subst d].

Lemma str_digit (d : Z) : is_digit d -> str d = String (digit_char d) "".
Proof. intros H. digit_cases d H; reflexivity. Qed.

Lemma isdigit_digit_char (d : Z) : is_digit d -> isdigit (digit_char d) = true.
Proof. intros H. digit_cases d H; reflexivity. Qed.

Lemma digit_value_digit_char (d : Z) :
  is_digit d -> digit_value (digit_char d) = d.
Proof. intros H. digit_cases d H; reflexivity. Qed.

Lemma int_char_digit_char (d : Z) :
  is_digit d -> int_char (digit_char d) = Return d.
Proof. intros H. digit_cases d H; reflexivity. Qed.


Lemma chars_join (l : list ascii) : chars (join l) = l.
Proof. apply list_ascii_of_string_of_list_ascii. Qed.

Lemma chars_app (s t : string) : chars (s ++ t) = (chars s ++ chars t)%list.
Proof. induction s as [|c s IH]; simpl; [reflexivity|]. now rewrite IH. Qed.

(** Reading a digit string back gives its digits. *)
Lemma omap_int_char_digits (ds : list Z) :
  Forall is_digit ds -> omap int_char (map digit_char ds) = Return ds.
Proof.
  induction 1 as [|d ds Hd _ IH]; simpl; [reflexivity|].
  now rewrite int_char_digit_char, IH.
Qed.

(** ** ISBN check digit *)





(** ** Italian fiscal code *)

Lemma ord_chr (z : Z) : 0 <= z < 256 -> ord (chr z) = z.
Proof.
  intros H. unfold ord, chr. rewrite nat_ascii_embedding by lia. lia.
Qed.

Lemma index_Return {A} (l : list A) (i : Z) (x d : A) :
  0 <= i -> index l i = Return x ->
  i < len l /\ x = nth (Z.to_nat i) l d.
Proof.
  intros Hi. unfold index.
  destruct (Z.ltb_spec i 0) as [Hneg|_]; [lia|].
  destruct (Z.leb_spec 0 i) as [_|Hneg]; [|lia]. simpl.
  destruct (Z.ltb_spec i (len l)) as [Hlt|Hge]; [|discriminate].
  destruct (nth_error l (Z.to_nat i)) as [y|] eqn:E; [|discriminate].
  intros H. inversion H; subst. split; [exact Hlt|].
  symmetry. now apply nth_error_nth.
Qed.

Lemma slot_nonneg (c : ascii) : It.is_code_char c = true -> 0 <= It.slot c.
Proof.
  unfold It.is_code_char, It.slot, digit_value, isdigit.
  destruct (andb (48 <=? ord c) (ord c <=? 57)) eqn:E; simpl; lia.
Qed.

Lemma odd_term_Return (c : ascii) (v : Z) :
  It.is_code_char c = true -> It.odd_term c = Return v ->
  It.slot c < 10 /\ v = nth (Z.to_nat (It.slot c)) It.remap 0.
Proof.
  intros Hc H. pose proof (slot_nonneg c Hc) as Hs.
  assert (E : It.odd_term c = index It.remap (It.slot c)).
  { unfold It.odd_term, It.slot. now destruct (isdigit c). }
  rewrite E in H.
  destruct (index_Return It.remap (It.slot c) v 0 Hs H) as [Hlt Hv].
  split; [exact Hlt|exact Hv].
Qed.

Lemma odd_terms_Return (cs : list ascii) :
  forall terms : list Z,
    forallb It.is_code_char cs = true ->
    omap It.odd_term cs = Return terms ->
    Forall (fun c => It.slot c < 10) cs /\
    terms = map (fun c => nth (Z.to_nat (It.slot c)) It.remap 0) cs.
Proof.
  induction cs as [|c cs IH]; intros terms Hcs H; simpl in *.
  - inversion H. split; [constructor|reflexivity].
  - apply andb_prop in Hcs. destruct Hcs as [Hc Hcs].
    destruct (It.odd_term c) as [v| |] eqn:Ec; simpl in H; try discriminate.
    destruct (omap It.odd_term cs) as [vs| |] eqn:Ecs; simpl in H; try discriminate.
    inversion H; subst.
    destruct (odd_term_Return c v Hc Ec) as [Hlt Hv].
    destruct (IH vs Hcs eq_refl) as [Hall Hvs].
    split; [now constructor|]. now rewrite Hv, Hvs.
Qed.

(** C5, as stated, fails: there is no remap table for which the check
    letter is what the stated rule gives (even positions counted
    directly, odd positions through the table) on two base codes that
    differ only in the digit at position 6. *)
Lemma fiscal_check_stated_counterexample :
  ~ exists tbl : list Z,
      It.check_char "AAAAAA00A01AAAA"
      = Return (It.spec_check_char tbl "AAAAAA00A01AAAA")
      /\ It.check_char "AAAAAA10A01AAAA"
         = Return (It.spec_check_char tbl "AAAAAA10A01AAAA").
Proof.
  intros [tbl [H0 H1]].
  replace (It.check_char "AAAAAA00A01AAAA") with (Return "F"%char) in H0
    by (vm_compute; reflexivity).
  replace (It.check_char "AAAAAA10A01AAAA") with (Return "E"%char) in H1
    by (vm_compute; reflexivity).
  unfold It.spec_check_char in H0, H1. cbv zeta in H0, H1.
  replace (sum (map It.even_term (every_other true (chars "AAAAAA00A01AAAA"))))
    with 61 in H0 by (vm_compute; reflexivity).
  replace (sum (map It.even_term (every_other true (chars "AAAAAA10A01AAAA"))))
    with 62 in H1 by (vm_compute; reflexivity).
  replace (every_other false (chars "AAAAAA10A01AAAA"))
    with (every_other false (chars "AAAAAA00A01AAAA")) in H1
    by (vm_compute; reflexivity).
  remember (sum (map (It.spec_table_term tbl)
                     (every_other false (chars "AAAAAA00A01AAAA")))) as T.
  clear HeqT.
  assert (E0 : ord "F" = ord (chr ((61 + T) mod 26 + 65))) by congruence.
  assert (E1 : ord "E" = ord (chr ((62 + T) mod 26 + 65))) by congruence.
  pose proof (Z.mod_pos_bound (61 + T) 26 ltac:(lia)).
  pose proof (Z.mod_pos_bound (62 + T) 26 ltac:(lia)).
  rewrite ord_chr in E0, E1 by lia.
  change (ord "F") with 70 in E0. change (ord "E") with 69 in E1.
  pose proof (Z.div_mod (61 + T) 26 ltac:(lia)) as D0.
  pose proof (Z.div_mod (62 + T) 26 ltac:(lia)) as D1.
  remember ((61 + T) / 26) as q0. remember ((62 + T) / 26) as q1.
  remember ((61 + T) mod 26) as m0. remember ((62 + T) mod 26) as m1.
  lia.
Qed.

(** C5, amended: in a 15-character base code of upper-case letters and
    digits for which the computation returns, the characters at odd
    positions (0-indexed) contribute their digit value or
    ord(letter) - 55, the characters at even positions contribute the
    entry of the remap list at their digit value or letter offset, and
    the check letter is chr((sum of both) mod 26 + 65). *)
Theorem fiscal_check_letter_positions (code : string) (letter : ascii) :
  List.length (chars code) = 15%nat ->
  forallb It.is_code_char (chars code) = true ->
  It.check_char code = Return letter ->
  letter
  = chr ((sum (map (fun i => It.even_term (It.char_at code i))
                   [1; 3; 5; 7; 9; 11; 13]%nat)
          + sum (map (fun i => nth (Z.to_nat (It.slot (It.char_at code i)))
                                   It.remap 0)
                     [0; 2; 4; 6; 8; 10; 12; 14]%nat)) mod 26 + 65).
Proof.
  intros Hlen Hcs H. unfold It.check_char in H. unfold It.char_at.
  destruct (chars code) as [|c0 [|c1 [|c2 [|c3 [|c4 [|c5 [|c6 [|c7 [|c8
    [|c9 [|c10 [|c11 [|c12 [|c13 [|c14 [|c15 rest]]]]]]]]]]]]]]]];
    try discriminate Hlen.
  cbn [every_other] in H.
  destruct (omap It.odd_term [c0; c2; c4; c6; c8; c10; c12; c14])
    as [terms| |] eqn:Et; simpl in H; try discriminate.
  apply odd_terms_Return in Et.
  - destruct Et as [_ Et]. subst terms. inversion H. reflexivity.
  - cbn [forallb] in Hcs |- *.
    repeat (apply andb_prop in Hcs; destruct Hcs as [? Hcs]).
    repeat (apply andb_true_intro; split); auto.
Qed.

Lemma fiscal_check_letter_positions_witness :
  It.check_char "AAAAAA00A01AAAA" = Return "F"%char
  /\ "F"%char = chr ((50 + 7) mod 26 + 65).
Proof.
  assert (H : It.check_char "AAAAAA00A01AAAA" = Return "F"%char)
    by (vm_compute; reflexivity).
  split; [exact H|].
  exact (fiscal_check_letter_positions "AAAAAA00A01AAAA" "F"
           eq_refl eq_refl H).
Defined.

(** C6: some draws make fiscal_code stop with an IndexError instead of
    a code: the remap list has ten entries, and every letter from K to Z
    selects an entry past its end. *)
Theorem fiscal_code_index_error :
  (exists r : Random,
      forall gender, fst (It.fiscal_code gender r) = Raise IndexError)
  /\ List.length It.remap = 10%nat
  /\ forallb (fun c => It.raises_IndexError (It.odd_term c))
             (chars "KLMNOPQRSTUVWXYZ") = true.
Proof.
  split; [|split].
  - exists (Samples.constant (2 ^ 53 - 1)).
    intros [[|]|]; vm_compute; reflexivity.
  - reflexivity.
  - vm_compute. reflexivity.
Qed.

(** ** Computations that draw *)


Lemma settles_bind {A B} (m : M A) (k : A -> M B) :
  settles m -> (forall a, settles (k a)) -> settles (bind m k).
Proof.
  intros Hm Hk r. unfold bind. specialize (Hm r).
  destruct (m r) as [[a|e|] r1]; simpl in *;
    [apply Hk|discriminate|congruence].
Qed.

Lemma settles_lift_index {A} (l : list A) (i : Z) : settles (lift (index l i)).
Proof.
  intros r. unfold lift, index. simpl.
  destruct (_ && _); [|discriminate].
  destruct (nth_error _ _); discriminate.
Qed.

Lemma settles_choice {A} (seq : list A) : settles (choice seq).
Proof.
  destruct seq as [|x seq]; [intros r; discriminate|].
  unfold choice. apply settles_bind.
  - intros r. discriminate.
  - intros i. apply settles_lift_index.
Qed.

Lemma settles_dict_get {V} (d : list (string * V)) (k : string) :
  settles (lift (dict_get d k)).
Proof.
  intros r. unfold lift. simpl.
  induction d as [|[k' v] d IH]; simpl; [discriminate|].
  destruct (k =? k')%string; [discriminate|exact IH].
Qed.

Lemma settles_validate_enum (E : Enum) (item : enum_arg E) :
  settles (validate_enum E item).
Proof.
  destruct item as [|m|name| |]; simpl; try (intros r; discriminate).
  - apply settles_choice.
  - destruct (dict_mem _ _); [apply settles_dict_get|intros r; discriminate].
Qed.

(** ** The code provider *)

Lemma call_custom_code (mask : string) (r : Random) :
  call_with_mask "custom_code" mask r = (Raise (AttributeError "custom_code"), r).
Proof. reflexivity. Qed.

(** A computation that ends with the call of [custom_code] after steps
    that settle cannot return. *)
Lemma bind_then_raise {A B} (m : M A) (k : A -> M B) (r : Random) :
  settles m ->
  (forall a r1, exists e, fst (k a r1) = Raise e) ->
  exists e, fst (bind m k r) = Raise e.
Proof.
  intros Hm Hk. unfold bind. specialize (Hm r).
  destruct (m r) as [[a|e|] r1]; simpl in *.
  - apply Hk.
  - now exists e.
  - congruence.
Qed.

(** C2: issn, isbn, ean, imei and pin all end in an exception, whatever
    the arguments, tables and generator state: each reaches
    [self.random.custom_code], a name [Random] does not have. *)
Theorem code_methods_never_return
    (EAN_MASKS : list (string * string)) (IMEI_TACS : list string)
    (ISBN_GROUPS ISBN_MASKS : list (string * string))
    (ISBNFormat EANFormat : Enum) :
  (forall mask r,
      fst (Code.issn mask r) = Raise (AttributeError "custom_code"))
  /\ (forall fmt locale r,
         exists e, fst (Code.isbn ISBN_GROUPS ISBN_MASKS ISBNFormat fmt locale r)
                   = Raise e)
  /\ (forall fmt r,
         exists e, fst (Code.ean EAN_MASKS EANFormat fmt r) = Raise e)
  /\ (forall r, exists e, fst (Code.imei IMEI_TACS r) = Raise e)
  /\ (forall mask r,
         fst (Code.pin mask r) = Raise (AttributeError "custom_code"))
  /\ mem_name "custom_code" (Random_own_names ++ Random_inherited_names)%list
     = false.
Proof.
  repeat split.
  - intros fmt locale r. unfold Code.isbn.
    apply bind_then_raise; [apply settles_validate_enum|].
    intros m r1. apply bind_then_raise; [apply settles_dict_get|].
    intros mask r2. destruct (dict_mem ISBN_GROUPS locale).
    + unfold bind at 1.
      assert (Hg := settles_dict_get ISBN_GROUPS locale r2).
      unfold bind at 1.
      destruct (lift (dict_get ISBN_GROUPS locale) r2) as [[g|e|] r3];
        simpl in *; [|now exists e|congruence].
      eexists. reflexivity.
    + eexists. reflexivity.
  - intros fmt r. unfold Code.ean.
    apply bind_then_raise; [apply settles_validate_enum|].
    intros m r1. apply bind_then_raise; [apply settles_dict_get|].
    intros mask r2. eexists. reflexivity.
  - intros r. unfold Code.imei.
    apply bind_then_raise; [apply settles_choice|].
    intros tac r1. eexists. reflexivity.
Qed.

(** ** Brazilian CPF *)

Lemma randint_in_range (a b : Z) (r : Random) :
  a <= b ->
  exists d r', randint a b r = (Return d, r') /\ a <= d <= b.
Proof.
  intros Hab. unfold randint.
  destruct (Z.ltb_spec b a) as [Hlt|_]; [lia|].
  unfold bind, _randbelow, bind, next_raw, ret. simpl.
  eexists. eexists. split; [reflexivity|].
  pose proof (Z.mod_pos_bound (stream r (cursor r)) (b - a + 1) ltac:(lia)).
  lia.
Qed.

(** Drawing one digit per element of a list. *)
Lemma mapM_randint_digits {X} (xs : list X) (r : Random) :
  exists ds r',
    mapM (fun _ => randint 0 9) xs r = (Return ds, r')
    /\ List.length ds = List.length xs /\ Forall is_digit ds.
Proof.
  revert r. induction xs as [|x xs IH]; intros r; simpl.
  - exists [], r. repeat split. constructor.
  - destruct (randint_in_range 0 9 r ltac:(lia)) as [d [r1 [Hd Hr]]].
    destruct (IH r1) as [ds [r2 [Hds [Hlen Hall]]]].
    exists (d :: ds), r2. unfold bind. rewrite Hd, Hds. simpl.
    repeat split; [now rewrite Hlen|now constructor].
Qed.

Lemma enumerate_sum_descending (ds : list Z) (weight : Z) :
  forall a : nat,
    sum (map (fun id : Z * Z => snd id * (weight - fst id))
             (combine (map Z.of_nat (seq a (List.length ds))) ds))
    = descending_sum (weight - Z.of_nat a) ds.
Proof.
  induction ds as [|d ds IH]; intros a; simpl; [reflexivity|].
  rewrite sum_cons, IH.
  replace (weight - Z.of_nat (S a)) with (weight - Z.of_nat a - 1) by lia.
  reflexivity.
Qed.

Lemma verifying_digit_spec (cpf : list Z) (weight : Z) :
  PtBr.__get_verifying_digit_cpf cpf weight
  = PtBr.spec_verifying_digit weight cpf.
Proof.
  unfold PtBr.__get_verifying_digit_cpf, PtBr.spec_verifying_digit, enumerate, len.
  rewrite range_upto, enumerate_sum_descending.
  now replace (weight - Z.of_nat 0) with weight by lia.
Qed.

Lemma verifying_digit_is_digit (cpf : list Z) (weight : Z) :
  is_digit (PtBr.__get_verifying_digit_cpf cpf weight).
Proof.
  unfold PtBr.__get_verifying_digit_cpf, is_digit. cbv zeta.
  set (total := sum _).
  pose proof (Z.mod_pos_bound total 11 ltac:(lia)).
  destruct (Z.ltb_spec (total mod 11) 2); lia.
Qed.

(** The digits of a string: what a validator reads off it. *)
Lemma digits_of_digit_string (ds : list Z) :
  Forall is_digit ds ->
  map digit_value (filter isdigit (chars (digit_string ds))) = ds.
Proof.
  unfold digit_string. rewrite chars_join.
  induction 1 as [|d ds Hd _ IH]; simpl; [reflexivity|].
  now rewrite isdigit_digit_char, map_cons, digit_value_digit_char, IH.
Qed.

Lemma concat_str_digits (ds : list Z) :
  Forall is_digit ds -> String.concat "" (map str ds) = digit_string ds.
Proof.
  unfold digit_string.
  induction 1 as [|d ds Hd Hds IH]; [reflexivity|].
  cbn [map]. rewrite str_digit by exact Hd.
  destruct Hds as [|d' ds' Hd' Hds'].
  - reflexivity.
  - cbn [map String.concat] in *. rewrite IH. reflexivity.
Qed.

(** C7: cpf always returns, and in the string it returns the 10th digit
    is the verifying digit of the first nine (weights from 10 down,
    remainder mod 11 below 2 giving 0, otherwise 11 - remainder) and the
    11th digit is the verifying digit of the first ten (weights from 11
    down). *)
Theorem cpf_check_digits (with_mask : bool) (r : Random) :
  exists s : string,
    fst (PtBr.cpf with_mask r) = Return s /\
    let ds := map digit_value (filter isdigit (chars s)) in
    List.length ds = 11%nat /\
    nth 9 ds 0 = PtBr.spec_verifying_digit 10 (firstn 9 ds) /\
    nth 10 ds 0 = PtBr.spec_verifying_digit 11 (firstn 10 ds).
Proof.
  unfold PtBr.cpf, replicateM.
  destruct (mapM_randint_digits (range 0 9 1) r) as [ds9 [r' [H [Hlen Hall]]]].
  unfold bind. rewrite H.
  change (List.length (range 0 9 1)) with 9%nat in Hlen.
  destruct ds9 as [|d0 [|d1 [|d2 [|d3 [|d4 [|d5 [|d6 [|d7 [|d8 [|d9 rest]]]]]]]]]];
    try discriminate Hlen.
  clear Hlen H.
  pose proof (verifying_digit_is_digit [d0; d1; d2; d3; d4; d5; d6; d7; d8] 10) as Hv1.
  pose proof (verifying_digit_spec [d0; d1; d2; d3; d4; d5; d6; d7; d8] 10) as Ev1.
  remember (PtBr.__get_verifying_digit_cpf [d0; d1; d2; d3; d4; d5; d6; d7; d8] 10)
    as v1 eqn:Dv1. clear Dv1.
  cbn [app].
  pose proof (verifying_digit_is_digit
                [d0; d1; d2; d3; d4; d5; d6; d7; d8; v1] 11) as Hv2.
  pose proof (verifying_digit_spec
                [d0; d1; d2; d3; d4; d5; d6; d7; d8; v1] 11) as Ev2.
  remember (PtBr.__get_verifying_digit_cpf
              [d0; d1; d2; d3; d4; d5; d6; d7; d8; v1] 11) as v2 eqn:Dv2.
  clear Dv2.
  assert (Hall11 : Forall is_digit [d0; d1; d2; d3; d4; d5; d6; d7; d8; v1; v2]).
  { repeat (apply Forall_cons_iff in Hall; destruct Hall as [? Hall]).
    repeat (apply Forall_cons; [assumption|]). apply Forall_nil. }
  assert (Hdigits :
            forall s,
              map digit_value (filter isdigit (chars s))
              = [d0; d1; d2; d3; d4; d5; d6; d7; d8; v1; v2] ->
              let ds := map digit_value (filter isdigit (chars s)) in
              List.length ds = 11%nat /\
              nth 9 ds 0 = PtBr.spec_verifying_digit 10 (firstn 9 ds) /\
              nth 10 ds 0 = PtBr.spec_verifying_digit 11 (firstn 10 ds)).
  { intros s Hs. cbv zeta. rewrite Hs. cbn [List.length nth firstn].
    repeat split; assumption. }
  destruct with_mask.
  - eexists. split; [reflexivity|]. apply Hdigits.
    repeat (apply Forall_cons_iff in Hall11; destruct Hall11 as [? Hall11]).
    unfold PtBr.at_. cbn [nth].
    rewrite !str_digit by assumption.
    cbn [append]. unfold chars. cbn [list_ascii_of_string filter].
    rewrite !isdigit_digit_char by assumption.
    change (isdigit ".") with false. change (isdigit "-") with false.
    cbn [map]. rewrite !digit_value_digit_char by assumption.
    reflexivity.
  - eexists. split; [reflexivity|]. apply Hdigits.
    rewrite concat_str_digits by exact Hall11.
    now apply digits_of_digit_string.
Qed.

(** ** Danish CPR *)

Lemma In_range_upto (n : nat) (k : Z) :
  0 <= k < Z.of_nat n -> In k (range 0 (Z.of_nat n) 1).
Proof.
  intros Hk. rewrite range_upto. apply in_map_iff.
  exists (Z.to_nat k). split; [lia|]. apply in_seq. lia.
Qed.

(** Checking a decidable property on every integer below a bound. *)
Lemma below_bound (P : Z -> bool) (n : nat) :
  forallb P (range 0 (Z.of_nat n) 1) = true ->
  forall k, 0 <= k < Z.of_nat n -> P k = true.
Proof.
  intros H k Hk. rewrite forallb_forall in H. apply H.
  now apply In_range_upto.
Qed.

Lemma fmt02d_digits (k : Z) :
  0 <= k <= 99 -> fmt02d k = digit_string [k / 10; k mod 10].
Proof.
  intros Hk. apply String.eqb_eq.
  apply (below_bound
           (fun k => (fmt02d k =? digit_string [k / 10; k mod 10])%string)
           100); [vm_compute; reflexivity|lia].
Qed.

Lemma last_two_year (y : Z) :
  1900 <= y <= 2099 ->
  Da.last_two (str y) = digit_string [(y / 10) mod 10; y mod 10].
Proof.
  intros Hy. replace y with (1900 + (y - 1900)) by lia.
  apply String.eqb_eq.
  apply (below_bound
           (fun k => (Da.last_two (str (1900 + k))
                      =? digit_string [((1900 + k) / 10) mod 10;
                                       (1900 + k) mod 10])%string)
           200); [vm_compute; reflexivity|lia].
Qed.

Lemma two_digits (k : Z) : 0 <= k <= 99 -> is_digit (k / 10) /\ is_digit (k mod 10).
Proof.
  intros Hk. unfold is_digit.
  pose proof (Z.mod_pos_bound k 10 ltac:(lia)).
  pose proof (Z.div_pos k 10 ltac:(lia) ltac:(lia)).
  assert (k / 10 < 10) by (apply Z.div_lt_upper_bound; lia).
  lia.
Qed.

Lemma digit_string_app (xs ys : list Z) :
  digit_string xs ++ digit_string ys = digit_string (xs ++ ys)%list.
Proof.
  unfold digit_string, join.
  induction xs as [|x xs IH]; simpl; [reflexivity|]. now rewrite IH.
Qed.

Lemma date_in_range (r : Random) :
  exists y m d r1,
    Datetime.date_ 1900 2099 r = (Return (Datetime.mkDate y m d), r1)
    /\ 1900 <= y <= 2099 /\ 1 <= m <= 12 /\ 1 <= d <= 28.
Proof.
  unfold Datetime.date_, Datetime.year_.
  destruct (randint_in_range 1900 2099 r ltac:(lia)) as [y [r1 [Hy By]]].
  destruct (randint_in_range 1 12 r1 ltac:(lia)) as [m [r2 [Hm Bm]]].
  destruct (randint_in_range 1 28 r2 ltac:(lia)) as [d [r3 [Hd Bd]]].
  exists y, m, d, r3. unfold bind. rewrite Hy, Hm, Hd.
  unfold lift, Datetime.make_date.
  assert (Hdim : 28 <= Datetime.days_in_month y m).
  { unfold Datetime.days_in_month.
    destruct (m =? 2); [destruct (Datetime.is_leap y); lia|].
    destruct (_ || _); lia. }
  replace ((1 <=? y) && (y <=? 9999) && (1 <=? m) && (m <=? 12)
           && (1 <=? d) && (d <=? Datetime.days_in_month y m)) with true.
  - repeat split; lia.
  - symmetry. repeat (apply andb_true_intro; split); apply Z.leb_le; lia.
Qed.

(** On nine digits the source computes the documented check value. *)
Lemma calculate_checksum_digits (ds : list Z) :
  List.length ds = 9%nat -> Forall is_digit ds ->
  Da._calculate_checksum (digit_string ds) = Return (Da.cpr_spec_check ds).
Proof.
  intros Hlen Hall.
  destruct ds as [|d0 [|d1 [|d2 [|d3 [|d4 [|d5 [|d6 [|d7 [|d8 [|d9 rest]]]]]]]]]];
    try discriminate Hlen.
  repeat (apply Forall_cons_iff in Hall; destruct Hall as [? Hall]).
  unfold Da._calculate_checksum, digit_string. rewrite chars_join.
  unfold Da._checksum_factors. cbn [map combine omap fst snd].
  rewrite !int_char_digit_char by assumption. cbn [obind].
  unfold Da.cpr_spec_check, Da.cpr_spec_weighted_sum. cbn [map combine fst snd].
  destruct (_ =? 11); reflexivity.
Qed.

Lemma cpr_spec_check_range (ds : list Z) :
  0 <= Da.cpr_spec_check ds <= 10.
Proof.
  unfold Da.cpr_spec_check. cbv zeta.
  pose proof (Z.mod_pos_bound (Da.cpr_spec_weighted_sum ds) 11 ltac:(lia)).
  destruct (Z.eqb_spec (11 - Da.cpr_spec_weighted_sum ds mod 11) 11); lia.
Qed.

(** What the redraw loop hands back when it returns. *)
Lemma generate_serial_checksum_Return (budget : nat) :
  forall (c6 : list Z) (r : Random) (serial : string) (checksum : Z),
    List.length c6 = 6%nat -> Forall is_digit c6 ->
    fst (Da._generate_serial_checksum budget (digit_string c6) r)
    = Return (serial, checksum) ->
    exists s3 : list Z,
      List.length s3 = 3%nat /\ Forall is_digit s3
      /\ serial = digit_string s3
      /\ checksum = Da.cpr_spec_check (c6 ++ s3)%list
      /\ checksum <> 10.
Proof.
  induction budget as [|budget IH]; intros c6 r serial checksum Hlen Hall H.
  - discriminate H.
  - cbn [Da._generate_serial_checksum] in H. unfold replicateM in H.
    change (range 0 3 1) with [0; 1; 2] in H. cbn [mapM] in H.
    destruct (randint_in_range 0 9 r ltac:(lia)) as [a [r1 [Ha Ba]]].
    destruct (randint_in_range 0 9 r1 ltac:(lia)) as [b [r2 [Hb Bb]]].
    destruct (randint_in_range 0 9 r2 ltac:(lia)) as [c [r3 [Hc Bc]]].
    unfold bind in H. rewrite Ha in H. cbn [ret] in H.
    rewrite Hb in H. cbn [ret] in H. rewrite Hc in H. cbn [ret] in H.
    fold (@bind (string * Z)) in H.
    assert (Hs3 : Forall is_digit [a; b; c]) by (repeat constructor; lia).
    rewrite !str_digit in H by (unfold is_digit; lia).
    change (String.concat "" [String (digit_char a) ""; String (digit_char b) "";
                               String (digit_char c) ""])
      with (digit_string [a; b; c]) in H.
    rewrite digit_string_app in H.
    unfold lift in H.
    rewrite calculate_checksum_digits in H;
      [|rewrite length_app, Hlen; reflexivity
       |apply Forall_app; split; assumption].
    destruct (Z.eqb_spec (Da.cpr_spec_check (c6 ++ [a; b; c])) 10) as [E|E];
      cbn [negb] in H.
    + apply (IH c6 r3 serial checksum Hlen Hall H).
    + cbn in H. inversion H; subst.
      exists [a; b; c]. repeat split; auto.
Qed.

(** C4: every string cpr returns consists of ten digits, the tenth is
    the check value recomputed from the first nine with the weights
    (4,3,2,7,6,5,4,3,2) as 11 - (weighted sum mod 11), 11 read as 0, and
    the weighted sum of the first nine is never 1 modulo 11. *)
Theorem cpr_checksum_valid (budget : nat) (r : Random) (s : string) :
  fst (Da.cpr budget r) = Return s ->
  exists ds : list Z,
    omap int_char (chars s) = Return ds
    /\ List.length ds = 10%nat
    /\ nth 9 ds 0 = Da.cpr_spec_check (firstn 9 ds)
    /\ Da.cpr_spec_weighted_sum (firstn 9 ds) mod 11 <> 1.
Proof.
  intros H. unfold Da.cpr in H.
  destruct (date_in_range r) as [y [m [d [r1 [Hdate [By [Bm Bd]]]]]]].
  unfold bind in H. rewrite Hdate in H.
  cbn [Datetime.day Datetime.month Datetime.year] in H.
  assert (Hc : (if 2000 <=? y
                then fmt02d d ++ fmt02d m ++ Da.last_two (str y)
                else fmt02d d ++ fmt02d m ++ Da.last_two (str y))
               = digit_string [d / 10; d mod 10; m / 10; m mod 10;
                               (y / 10) mod 10; y mod 10]).
  { rewrite (fmt02d_digits d), (fmt02d_digits m), (last_two_year y) by lia.
    rewrite !digit_string_app. now destruct (2000 <=? y). }
  rewrite Hc in H.
  set (c6 := [d / 10; d mod 10; m / 10; m mod 10; (y / 10) mod 10; y mod 10]) in *.
  assert (Hall : Forall is_digit c6).
  { destruct (two_digits d ltac:(lia)), (two_digits m ltac:(lia)).
    unfold c6. repeat (apply Forall_cons; [try assumption|]);
      try apply Forall_nil;
      unfold is_digit;
      [pose proof (Z.mod_pos_bound (y / 10) 10 ltac:(lia))
      |pose proof (Z.mod_pos_bound y 10 ltac:(lia))]; lia. }
  destruct (Da._generate_serial_checksum budget (digit_string c6) r1)
    as [[[serial checksum]|e|] r2] eqn:Eloop; try discriminate H.
  destruct (generate_serial_checksum_Return budget c6 r1 serial checksum
              eq_refl Hall) as [s3 [Hlen3 [Hall3 [Hser [Hchk Hne]]]]].
  { now rewrite Eloop. }
  cbn [fst snd ret] in H. inversion H as [Hs]. clear H.
  pose proof (cpr_spec_check_range (c6 ++ s3)%list) as Hrange.
  rewrite <- Hchk in Hrange.
  assert (Hcd : is_digit checksum) by (unfold is_digit; lia).
  rewrite (str_digit checksum Hcd), Hser.
  change (String (digit_char checksum) "") with (digit_string [checksum]).
  rewrite !digit_string_app.
  destruct s3 as [|a [|b [|c [|x rest]]]]; try discriminate Hlen3.
  exists (c6 ++ [a; b; c] ++ [checksum])%list.
  assert (Hparse : omap int_char
                     (chars (digit_string (c6 ++ [a; b; c] ++ [checksum])%list))
                   = Return (c6 ++ [a; b; c] ++ [checksum])%list).
  { unfold digit_string. rewrite chars_join. apply omap_int_char_digits.
    apply Forall_app; split; [exact Hall|].
    apply Forall_app; split; [exact Hall3|]. now constructor. }
  split; [exact Hparse|split; [reflexivity|split]].
  - exact Hchk.
  - change (firstn 9 (c6 ++ [a; b; c] ++ [checksum])%list)
      with (c6 ++ [a; b; c])%list.
    intros Hw. apply Hne. rewrite Hchk. unfold Da.cpr_spec_check.
    cbv zeta. rewrite Hw. reflexivity.
Qed.

Lemma cpr_checksum_valid_witness :
  fst (Da.cpr 1 (Samples.constant 0)) = Return "0101000001"
  /\ exists ds : list Z,
       omap int_char (chars "0101000001") = Return ds
       /\ List.length ds = 10%nat
       /\ nth 9 ds 0 = Da.cpr_spec_check (firstn 9 ds)
       /\ Da.cpr_spec_weighted_sum (firstn 9 ds) mod 11 <> 1.
Proof.
  assert (H : fst (Da.cpr 1 (Samples.constant 0)) = Return "0101000001")
    by (vm_compute; reflexivity).
  split; [exact H|].
  exact (cpr_checksum_valid 1 (Samples.constant 0) "0101000001" H).
Defined.

(** ** Weighted choice *)

(** The exception is raised exactly for the empty dictionary. *)
Lemma weighted_choice_raises_iff_empty {K} (choices : list (K * Q)) (r : Random) :
  (exists e, fst (weighted_choice choices r) = Raise e) <-> choices = [].
Proof.
  split.
  - intros [e H]. destruct choices as [|kw choices]; [reflexivity|].
    discriminate H.
  - intros ->. eexists. reflexivity.
Qed.

Lemma round_half_even_le (y : Q) (N : Z) :
  (y <= inject_Z N)%Q -> round_half_even y <= N.
Proof.
  intros Hy. unfold round_half_even. cbv zeta.
  pose proof (Qfloor_le y) as Hf.
  assert (Hle : Qfloor y <= N).
  { rewrite <- (Qfloor_Z N). now apply Qfloor_resp_le. }
  destruct (Z.eq_dec (Qfloor y) N) as [E|E].
  - assert (Hz : (y - inject_Z (Qfloor y) == 0)%Q).
    { rewrite E in *. apply Qle_antisym; lra. }
    rewrite Hz. simpl. lia.
  - destruct (Qcompare _ _); [destruct (Z.even _)| |]; lia.
Qed.

Lemma random_unit_interval (r : Random) :
  exists u r', random r = (Return u, r') /\ (0 <= u)%Q /\ (u <= 1)%Q.
Proof.
  unfold random, bind, next_raw, ret. eexists. eexists.
  split; [reflexivity|].
  pose proof (Z.mod_pos_bound (stream r (cursor r)) (2 ^ 53) ltac:(lia)) as Hm.
  unfold Qle. simpl Qnum. simpl Qden.
  change (Z.pos (2 ^ 53)) with (2 ^ 53). lia.
Qed.

(** Rounding to 15 decimals does not lift a value above an integer
    bound. *)
Lemma round_15_le (x : Q) (n : Z) :
  (x <= inject_Z n)%Q -> (round x 15 <= inject_Z n)%Q.
Proof.
  intros Hx. unfold round.
  assert (HP : Qpower 10 15 = inject_Z (10 ^ 15)) by (vm_compute; reflexivity).
  rewrite HP.
  assert (Hpos : (0 < inject_Z (10 ^ 15))%Q) by (vm_compute; reflexivity).
  apply Qle_shift_div_r; [exact Hpos|].
  rewrite <- inject_Z_mult, <- Zle_Qle.
  apply round_half_even_le. rewrite inject_Z_mult.
  apply Qmult_le_compat_r; [exact Hx|]. now apply Qlt_le_weak.
Qed.

(** Where the degenerate case does hold: a single key whose weight is a
    non-negative integer is returned whatever the draw. *)
Lemma weighted_choice_single_integer_weight {K} (k : K) (n : Z) (r : Random) :
  0 <= n ->
  fst (weighted_choice [(k, inject_Z n)] r) = Return (Some k).
Proof.
  intros Hn. unfold weighted_choice, uniform, super_uniform.
  destruct (random_unit_interval r) as [u [r' [Hu [H0 H1]]]].
  unfold bind at 1 2 3. rewrite Hu. cbn [ret fst weighted_walk map snd fold_left].
  set (x := (0 + (0 + inject_Z n - 0) * u)%Q).
  assert (Hx : (x <= inject_Z n)%Q).
  { unfold x.
    assert (Hq : (inject_Z 0 <= inject_Z n)%Q) by (rewrite <- Zle_Qle; exact Hn).
    change (inject_Z 0) with 0%Q in Hq. nra. }
  apply round_15_le in Hx.
  assert (Hb : Qle_bool (round x 15 - inject_Z n) 0 = true).
  { apply Qle_bool_iff. lra. }
  now rewrite Hb.
Qed.

(** C10 fails on the code: with a single key of positive weight 9e-16
    and a draw of 0.75 the product 6.75e-16 rounds (15 decimals) to
    1e-15, above the weight, so the loop ends without a key and the call
    returns None; with a single key of weight -1 and a draw of 0.5 it
    returns None as well.  Neither call raises. *)
Theorem weighted_choice_returns_None :
  fst (weighted_choice [("only", 9 # 10000000000000000)]
                       (Samples.constant (3 * 2 ^ 51)))
  = Return None
  /\ fst (weighted_choice [("only", - (1))%Q] (Samples.constant (2 ^ 52)))
     = Return None.
Proof. split; vm_compute; reflexivity. Qed.

(** ** Length of a card number *)



Lemma dict_get_In {V} (d : list (string * V)) (k : string) (v : V) :
  dict_get d k = Return v -> In (k, v) d.
Proof.
  induction d as [|[k' v'] d IH]; simpl; [discriminate|].
  destruct (String.eqb_spec k k') as [->|_].
  - intros H. inversion H; subst. now left.
  - intros H. right. now apply IH.
Qed.


Lemma range_upto_length (n : Z) : List.length (range 0 n 1) = Z.to_nat n.
Proof.
  unfold range. cbv zeta. change (0 <? 1) with true. cbv iota.
  rewrite length_map, length_seq, Z.div_1_r. f_equal. lia.
Qed.


Lemma string_length_join (l : list ascii) :
  String.length (join l) = List.length l.
Proof. induction l as [|c l IH]; simpl; [reflexivity|]. now rewrite IH. Qed.







(** ** Computations that always return *)

Lemma always_ret {A} (a : A) (P : A -> Prop) : P a -> always (ret a) P.
Proof. intros H r. now exists a, r. Qed.

Lemma always_bind {A B} (m : M A) (k : A -> M B)
    (P : A -> Prop) (Q : B -> Prop) :
  always m P -> (forall a, P a -> always (k a) Q) -> always (bind m k) Q.
Proof.
  intros Hm Hk r. destruct (Hm r) as [a [r1 [Ha Pa]]].
  destruct (Hk a Pa r1) as [b [r2 [Hb Qb]]].
  exists b, r2. unfold bind. rewrite Ha. now split.
Qed.

Lemma always_weaken {A} (m : M A) (P Q : A -> Prop) :
  always m P -> (forall a, P a -> Q a) -> always m Q.
Proof.
  intros Hm HPQ r. destruct (Hm r) as [a [r1 [Ha Pa]]].
  exists a, r1. split; [exact Ha|now apply HPQ].
Qed.

Lemma always_randint (a b : Z) :
  a <= b -> always (randint a b) (fun d => a <= d <= b).
Proof. intros Hab r. now apply randint_in_range. Qed.

Lemma always_choice {A} (x : A) (l : list A) :
  always (choice (x :: l)) (fun y => In y (x :: l)).
Proof.
  intros r. unfold choice, bind, _randbelow, bind, next_raw, ret, lift.
  set (i := stream r (cursor r) mod len (x :: l)).
  assert (Hi : 0 <= i < len (x :: l)).
  { apply Z.mod_pos_bound. unfold len. simpl List.length. lia. }
  unfold index. destruct (Z.ltb_spec i 0) as [Hneg|_]; [lia|].
  destruct (Z.leb_spec 0 i) as [_|Hneg]; [|lia].
  destruct (Z.ltb_spec i (len (x :: l))) as [_|Hge]; [|lia].
  cbn [andb]. destruct (nth_error (x :: l) (Z.to_nat i)) as [y|] eqn:E.
  - exists y. eexists. split; [reflexivity|]. now apply nth_error_In in E.
  - apply nth_error_None in E. unfold len in Hi. lia.
Qed.

Lemma always_mapM {A B} (f : A -> M B) (P : B -> Prop) (xs : list A) :
  (forall x, always (f x) P) ->
  always (mapM f xs)
         (fun ys => List.length ys = List.length xs /\ Forall P ys).
Proof.
  intros Hf. induction xs as [|x xs IH]; cbn [mapM].
  - apply always_ret. split; [reflexivity|constructor].
  - eapply always_bind; [apply Hf|]. intros y Py.
    eapply always_bind; [apply IH|]. intros ys [Hlen Hall].
    apply always_ret. split; [simpl; now rewrite Hlen|now constructor].
Qed.

Lemma always_replicateM {A} (n : Z) (m : M A) (P : A -> Prop) :
  always m P ->
  always (replicateM n m)
         (fun ys => List.length ys = Z.to_nat n /\ Forall P ys).
Proof.
  intros Hm. unfold replicateM.
  eapply always_weaken; [apply always_mapM; intros _; exact Hm|].
  intros ys [Hlen Hall]. rewrite range_upto_length in Hlen. now split.
Qed.

Lemma always_digit : always (randint 0 9) is_digit.
Proof. apply always_randint. lia. Qed.

Lemma always_fst {A} (m : M A) (P : A -> Prop) (r : Random) :
  always m P -> exists a, fst (m r) = Return a /\ P a.
Proof.
  intros Hm. destruct (Hm r) as [a [r1 [Ha Pa]]].
  exists a. rewrite Ha. now split.
Qed.

(** ** Zero-padded fields *)

Lemma below_bound_Z (P : Z -> bool) (n : Z) :
  forallb P (range 0 n 1) = true ->
  forall k, 0 <= k < n -> P k = true.
Proof.
  intros H k Hk. apply (below_bound P (Z.to_nat n)).
  - rewrite Z2Nat.id by lia. exact H.
  - lia.
Qed.

Lemma fmt0d_2_digits (k : Z) :
  0 <= k <= 99 -> fmt0d 2 k = digit_string [k / 10; k mod 10].
Proof.
  intros Hk. apply String.eqb_eq.
  apply (below_bound
           (fun k => (fmt0d 2 k =? digit_string [k / 10; k mod 10])%string)
           100); [vm_compute; reflexivity|lia].
Qed.

Lemma fmt0d_3_digits (k : Z) :
  0 <= k <= 999 ->
  fmt0d 3 k = digit_string [k / 100; (k / 10) mod 10; k mod 10].
Proof.
  intros Hk. apply String.eqb_eq.
  apply (below_bound
           (fun k => (fmt0d 3 k
                      =? digit_string [k / 100; (k / 10) mod 10; k mod 10])%string)
           1000); [vm_compute; reflexivity|lia].
Qed.

Lemma fmt0d_4_digits (k : Z) :
  0 <= k <= 9999 ->
  fmt0d 4 k
  = digit_string [k / 1000; (k / 100) mod 10; (k / 10) mod 10; k mod 10].
Proof.
  intros Hk. apply String.eqb_eq.
  apply (below_bound_Z
           (fun k => (fmt0d 4 k
                      =? digit_string [k / 1000; (k / 100) mod 10;
                                       (k / 10) mod 10; k mod 10])%string)
           10000); [vm_compute; reflexivity|lia].
Qed.

(** ** USA: social security number *)

(** The SSN is always AAA-GG-SSSS, zero padded, with area in 1..899
    other than 666, group in 1..99 and serial in 1..9999. *)
Theorem ssn_fields (r : Random) :
  exists area group serial : Z,
    fst (En.ssn r)
    = Return (digit_string [area / 100; (area / 10) mod 10; area mod 10]
              ++ "-" ++ digit_string [group / 10; group mod 10]
              ++ "-" ++ digit_string [serial / 1000; (serial / 100) mod 10;
                                      (serial / 10) mod 10; serial mod 10])
    /\ 1 <= area <= 899 /\ area <> 666
    /\ 1 <= group <= 99
    /\ 1 <= serial <= 9999.
Proof.
  unfold En.ssn.
  destruct (randint_in_range 1 899 r ltac:(lia)) as [a [r1 [Ha Ba]]].
  destruct (randint_in_range 1 99 r1 ltac:(lia)) as [g [r2 [Hg Bg]]].
  destruct (randint_in_range 1 9999 r2 ltac:(lia)) as [s [r3 [Hs Bs]]].
  unfold bind. rewrite Ha, Hg, Hs. cbn [ret fst].
  exists (if a =? 666 then 667 else a), (if g =? 0 then 1 else g), s.
  assert (Ba' : 1 <= (if a =? 666 then 667 else a) <= 899
                /\ (if a =? 666 then 667 else a) <> 666).
  { destruct (Z.eqb_spec a 666); lia. }
  assert (Bg' : 1 <= (if g =? 0 then 1 else g) <= 99).
  { destruct (Z.eqb_spec g 0); lia. }
  rewrite fmt0d_3_digits, fmt0d_2_digits, fmt0d_4_digits by lia.
  repeat split; lia || tauto.
Qed.

(** ** Lists of drawn digits *)

Lemma draw_digits (n : Z) (r : Random) :
  exists ds r',
    replicateM n (randint 0 9) r = (Return ds, r')
    /\ List.length ds = Z.to_nat n /\ Forall is_digit ds.
Proof.
  destruct (always_replicateM n (randint 0 9) is_digit always_digit r)
    as [ds [r' [H [Hlen Hall]]]].
  now exists ds, r'.
Qed.

Lemma concat_digit_strings (ss : list string) :
  Forall (fun s => exists d, is_digit d /\ s = String (digit_char d) "") ss ->
  exists ds,
    List.length ds = List.length ss /\ Forall is_digit ds
    /\ String.concat "" ss = digit_string ds.
Proof.
  induction 1 as [|s ss [d [Hd Hs]] Hss IH].
  - exists []. repeat split. constructor.
  - destruct IH as [ds [Hlen [Hall Hcat]]]. subst s.
    exists (d :: ds). split; [simpl; now rewrite Hlen|].
    split; [now constructor|].
    destruct ss as [|s' ss'].
    + destruct ds; [reflexivity|discriminate Hlen].
    + cbn [String.concat] in *. rewrite Hcat. reflexivity.
Qed.

(** Joining [n] drawn digits gives a string of [n] digits. *)
Lemma always_digit_strings (n : Z) :
  always (replicateM n (d <- randint 0 9 ;; ret (str d)))
         (fun ss => exists ds,
              List.length ds = Z.to_nat n /\ Forall is_digit ds
              /\ String.concat "" ss = digit_string ds).
Proof.
  eapply always_weaken.
  - apply always_replicateM
      with (P := fun s => exists d, is_digit d /\ s = String (digit_char d) "").
    eapply always_bind; [apply always_digit|].
    intros d Hd. apply always_ret. exists d. split; [exact Hd|].
    now apply str_digit.
  - intros ss [Hlen Hall].
    destruct (concat_digit_strings ss Hall) as [ds [Hl [Hd Hc]]].
    exists ds. repeat split; congruence.
Qed.

Ltac explode ds Hlen :=
  simpl in Hlen;
  repeat (destruct ds as [|? ds]; simpl in Hlen; try discriminate Hlen).

Ltac digits_of Hall :=
  repeat (apply Forall_cons_iff in Hall; destruct Hall as [? Hall]).

Ltac all_digits :=
  repeat (apply Forall_cons; [assumption|]); try apply Forall_nil.

Lemma mod11_fold_is_digit (t : Z) :
  is_digit (if t mod 11 =? 10 then 0 else t mod 11).
Proof.
  unfold is_digit. pose proof (Z.mod_pos_bound t 11 ltac:(lia)).
  destruct (Z.eqb_spec (t mod 11) 10); lia.
Qed.

Lemma sum_combine_dot (ws ds : list Z) :
  sum (map (fun wd : Z * Z => fst wd * snd wd) (combine ws ds)) = dot ds ws.
Proof.
  revert ds. induction ws as [|w ws IH]; intros [|d ds]; cbn [combine map dot];
    try reflexivity.
  rewrite sum_cons, IH. cbn [fst snd]. lia.
Qed.

Lemma firstn_app_exact {A} (l l' : list A) (n : nat) :
  List.length l = n -> firstn n (l ++ l')%list = l.
Proof.
  intros <-. rewrite firstn_app, firstn_all, Nat.sub_diag. simpl.
  apply app_nil_r.
Qed.

Lemma nth_app_exact {A} (l : list A) (c d : A) (n : nat) :
  List.length l = n -> nth n (l ++ [c])%list d = c.
Proof.
  intros <-. rewrite app_nth2 by lia. now rewrite Nat.sub_diag.
Qed.

(** ** Poland: NIP and REGON *)

(** A NIP is always ten digits; the tenth is the sum of the first nine
    weighted by (6,5,7,2,3,4,5,6,7), taken modulo 11, with 10 written
    as 0. *)
Theorem nip_check_digit (r : Random) :
  exists ds : list Z,
    fst (Pl.nip r) = Return (digit_string ds)
    /\ List.length ds = 10%nat /\ Forall is_digit ds
    /\ nth 9 ds 0
       = (let c := dot (firstn 9 ds) [6; 5; 7; 2; 3; 4; 5; 6; 7] mod 11 in
          if c =? 10 then 0 else c).
Proof.
  unfold Pl.nip.
  destruct (draw_digits 9 r) as [ds [r1 [H [Hlen Hall]]]].
  unfold bind. rewrite H. cbn [ret fst].
  rewrite sum_combine_dot.
  set (c := if dot ds [6; 5; 7; 2; 3; 4; 5; 6; 7] mod 11 =? 10 then 0
            else dot ds [6; 5; 7; 2; 3; 4; 5; 6; 7] mod 11).
  assert (Hc : is_digit c) by apply mod11_fold_is_digit.
  assert (Hall' : Forall is_digit (ds ++ [c])%list).
  { apply Forall_app. split; [exact Hall|now constructor]. }
  exists (ds ++ [c])%list.
  split; [now rewrite concat_str_digits|].
  split; [rewrite length_app, Hlen; reflexivity|].
  split; [exact Hall'|].
  rewrite (nth_app_exact ds c 0 9 Hlen), (firstn_app_exact ds [c] 9 Hlen).
  reflexivity.
Qed.

(** A REGON is always nine digits; the ninth is the sum of the first
    eight weighted by (8,9,2,3,4,5,6,7), taken modulo 11, with 10
    written as 0. *)
Theorem regon_check_digit (r : Random) :
  exists ds : list Z,
    fst (Pl.regon r) = Return (digit_string ds)
    /\ List.length ds = 9%nat /\ Forall is_digit ds
    /\ nth 8 ds 0
       = (let c := dot (firstn 8 ds) [8; 9; 2; 3; 4; 5; 6; 7] mod 11 in
          if c =? 10 then 0 else c).
Proof.
  unfold Pl.regon.
  destruct (draw_digits 8 r) as [ds [r1 [H [Hlen Hall]]]].
  unfold bind. rewrite H. cbn [ret fst].
  rewrite sum_combine_dot.
  set (c := if dot ds [8; 9; 2; 3; 4; 5; 6; 7] mod 11 =? 10 then 0
            else dot ds [8; 9; 2; 3; 4; 5; 6; 7] mod 11).
  assert (Hc : is_digit c) by apply mod11_fold_is_digit.
  assert (Hall' : Forall is_digit (ds ++ [c])%list).
  { apply Forall_app. split; [exact Hall|now constructor]. }
  exists (ds ++ [c])%list.
  split; [now rewrite concat_str_digits|].
  split; [rewrite length_app, Hlen; reflexivity|].
  split; [exact Hall'|].
  rewrite (nth_app_exact ds c 0 8 Hlen), (firstn_app_exact ds [c] 8 Hlen).
  reflexivity.
Qed.

(** ** Netherlands: BSN *)

Lemma enumerate_weighted_descending (ds : list Z) (weight : Z) :
  sum (map (fun id : Z * Z => (weight - fst id) * snd id) (enumerate ds))
  = descending_sum weight ds.
Proof.
  unfold enumerate, len. rewrite range_upto.
  rewrite (map_ext _ (fun id : Z * Z => snd id * (weight - fst id)))
    by (intros [i d]; simpl; lia).
  rewrite enumerate_sum_descending. f_equal. lia.
Qed.

(** A BSN is always nine digits; the ninth is the sum of the first
    eight weighted 9 down to 2, modulo 11 and then modulo 10.  It
    passes the eleven test (weighted sum minus last digit divisible by
    11) unless that sum is 10 modulo 11. *)
Theorem bsn_check_digit (r : Random) :
  exists ds : list Z,
    fst (Nl.bsn r) = Return (digit_string ds)
    /\ List.length ds = 9%nat /\ Forall is_digit ds
    /\ (let t := descending_sum 9 (firstn 8 ds) in
        nth 8 ds 0 = (t mod 11) mod 10
        /\ (t mod 11 = 10 \/ (t - nth 8 ds 0) mod 11 = 0)).
Proof.
  unfold Nl.bsn.
  destruct (draw_digits 8 r) as [ds [r1 [H [Hlen Hall]]]].
  unfold bind. rewrite H. cbn [ret fst].
  rewrite enumerate_weighted_descending.
  set (t := descending_sum 9 ds).
  pose proof (Z.mod_pos_bound t 11 ltac:(lia)) as Ht.
  pose proof (Z.mod_pos_bound (t mod 11) 10 ltac:(lia)) as Hc.
  assert (Hall' : Forall is_digit (ds ++ [(t mod 11) mod 10])%list).
  { apply Forall_app. split; [exact Hall|].
    constructor; [unfold is_digit; lia|constructor]. }
  exists (ds ++ [(t mod 11) mod 10])%list.
  split; [now rewrite concat_str_digits|].
  split; [rewrite length_app, Hlen; reflexivity|].
  split; [exact Hall'|].
  rewrite (nth_app_exact ds _ 0 8 Hlen), (firstn_app_exact ds _ 8 Hlen).
  cbv zeta. fold t. split; [reflexivity|].
  destruct (Z.eq_dec (t mod 11) 10) as [E|E]; [now left|right].
  rewrite (Z.mod_small (t mod 11) 10) by lia.
  rewrite Zminus_mod_idemp_r, Z.sub_diag. reflexivity.
Qed.

(** ** Reading digit strings with weights *)

Lemma omap_indexed_digits {I} (f : I -> Z -> Z) (idxs : list I) :
  forall ds : list Z,
    Forall is_digit ds ->
    omap (fun id : I * ascii =>
            obind (int_char (snd id)) (fun d => Return (f (fst id) d)))
         (combine idxs (map digit_char ds))
    = Return (map (fun id : I * Z => f (fst id) (snd id)) (combine idxs ds)).
Proof.
  induction idxs as [|i idxs IH]; intros ds Hds; [reflexivity|].
  destruct Hds as [|d ds Hd Hds]; [reflexivity|].
  cbn [map combine omap fst snd].
  rewrite int_char_digit_char by exact Hd. cbn [obind].
  rewrite IH by exact Hds. reflexivity.
Qed.

Lemma omap_weighted_digits (f : Z -> Z -> Z) (ws : list Z) :
  forall ds : list Z,
    Forall is_digit ds ->
    omap (fun cw : ascii * Z =>
            obind (int_char (fst cw)) (fun d => Return (f d (snd cw))))
         (combine (map digit_char ds) ws)
    = Return (map (fun dw : Z * Z => f (fst dw) (snd dw)) (combine ds ws)).
Proof.
  intros ds Hds. revert ws.
  induction Hds as [|d ds Hd Hds IH]; intros ws; [reflexivity|].
  destruct ws as [|w ws]; [reflexivity|].
  cbn [map combine omap fst snd].
  rewrite int_char_digit_char by exact Hd. cbn [obind].
  rewrite IH. reflexivity.
Qed.

Lemma sum_combine_dot_digits_first (ds ws : list Z) :
  sum (map (fun dw : Z * Z => fst dw * snd dw) (combine ds ws)) = dot ds ws.
Proof.
  revert ws. induction ds as [|d ds IH]; intros [|w ws]; cbn [combine map dot];
    try reflexivity.
  rewrite sum_cons, IH. reflexivity.
Qed.

Lemma chars_digit_string (ds : list Z) :
  chars (digit_string ds) = map digit_char ds.
Proof. unfold digit_string. apply chars_join. Qed.

Lemma bind_run {A B} (m : M A) (k : A -> M B) (r r1 : Random) (a : A) :
  m r = (Return a, r1) -> bind m k r = k a r1.
Proof. intros H. unfold bind. now rewrite H. Qed.

(** ** Russia: SNILS, INN, OGRN *)

Lemma snils_checksum_digits (ds : list Z) :
  Forall is_digit ds ->
  Ru.snils_checksum (digit_string ds)
  = Return (let total := descending_sum 9 ds in
            if total <? 100 then total
            else if (total =? 100) || (total =? 101) then 0
            else total mod 101).
Proof.
  intros Hds. unfold Ru.snils_checksum, enumerate.
  rewrite chars_digit_string. unfold len. rewrite length_map.
  rewrite (omap_indexed_digits (fun i d => (9 - i) * d)) by exact Hds.
  cbn [obind].
  change (combine (range 0 (Z.of_nat (List.length ds)) 1) ds)
    with (enumerate ds).
  rewrite enumerate_weighted_descending. cbv zeta.
  destruct (_ <? 100); [reflexivity|]. destruct (_ || _); reflexivity.
Qed.

(** A SNILS is nine drawn digits followed by a check value: the sum
    weighted 9 down to 1 when below 100, 0 when it is 100 or 101, and
    the sum modulo 101 otherwise.  The check value is written with two
    digits, except that a remainder of exactly 100 is written with
    three, which makes the result twelve characters long. *)
Theorem snils_check_value :
  (forall r : Random,
      exists (ds : list Z) (c : Z),
        List.length ds = 9%nat /\ Forall is_digit ds
        /\ c = (let total := descending_sum 9 ds in
                if total <? 100 then total
                else if (total =? 100) || (total =? 101) then 0
                else total mod 101)
        /\ 0 <= c <= 100
        /\ fst (Ru.snils r)
           = Return (digit_string ds
                     ++ (if c =? 100 then "100"
                         else digit_string [c / 10; c mod 10])))
  /\ fst (Ru.snils (Samples.replay [9; 9; 6; 1; 0; 0; 0; 0; 0]))
     = Return "996100000100".
Proof.
  split; [|vm_compute; reflexivity].
  intros r. unfold Ru.snils.
  destruct (always_digit_strings 9 r) as [ss [r1 [H [ds [Hlen [Hall Hcat]]]]]].
  rewrite (bind_run _ _ _ _ _ H), Hcat. unfold lift, bind.
  rewrite snils_checksum_digits by exact Hall. cbn [ret fst].
  set (c := let total := descending_sum 9 ds in
            if total <? 100 then total
            else if (total =? 100) || (total =? 101) then 0
            else total mod 101).
  assert (Hd : 0 <= descending_sum 9 ds).
  { clear -Hall Hlen. explode ds Hlen. digits_of Hall.
    unfold is_digit in *. cbn [descending_sum]. lia. }
  assert (Hc : 0 <= c <= 100).
  { unfold c. cbv zeta.
    pose proof (Z.mod_pos_bound (descending_sum 9 ds) 101 ltac:(lia)).
    destruct (Z.ltb_spec (descending_sum 9 ds) 100); [lia|].
    destruct (_ || _); lia. }
  exists ds, c. repeat split; try assumption; try lia.
  destruct (Z.eqb_spec c 100) as [E|E].
  - rewrite E. reflexivity.
  - rewrite fmt0d_2_digits by lia. reflexivity.
Qed.

Lemma inn_checksum_digits (ds ws : list Z) :
  Forall is_digit ds ->
  Ru.inn_checksum (digit_string ds) ws
  = Return (digit_string [(dot ds ws mod 11) mod 10]).
Proof.
  intros Hds. unfold Ru.inn_checksum. rewrite chars_digit_string.
  rewrite (omap_weighted_digits Z.mul) by exact Hds. cbn [obind].
  rewrite sum_combine_dot_digits_first.
  rewrite str_digit; [reflexivity|].
  unfold is_digit.
  pose proof (Z.mod_pos_bound (dot ds ws mod 11) 10 ltac:(lia)). lia.
Qed.

(** An INN is always eleven digits: nine drawn, then the sum of those
    nine weighted by (2,4,10,3,5,9,4,6,8) modulo 11 modulo 10, then the
    sum of the first ten weighted by (7,2,4,10,3,5,9,4,6,8) modulo 11
    modulo 10. *)
Theorem inn_check_digits (r : Random) :
  exists ds : list Z,
    fst (Ru.inn r) = Return (digit_string ds)
    /\ List.length ds = 11%nat /\ Forall is_digit ds
    /\ nth 9 ds 0
       = (dot (firstn 9 ds) [2; 4; 10; 3; 5; 9; 4; 6; 8] mod 11) mod 10
    /\ nth 10 ds 0
       = (dot (firstn 10 ds) [7; 2; 4; 10; 3; 5; 9; 4; 6; 8] mod 11) mod 10.
Proof.
  unfold Ru.inn.
  destruct (always_digit_strings 9 r) as [ss [r1 [H [ds [Hlen [Hall Hcat]]]]]].
  rewrite (bind_run _ _ _ _ _ H), Hcat. unfold lift, bind.
  rewrite inn_checksum_digits by exact Hall.
  set (a := (dot ds [2; 4; 10; 3; 5; 9; 4; 6; 8] mod 11) mod 10).
  assert (Ha : is_digit a).
  { unfold is_digit, a.
    pose proof (Z.mod_pos_bound (dot ds [2; 4; 10; 3; 5; 9; 4; 6; 8] mod 11) 10
                  ltac:(lia)). lia. }
  rewrite digit_string_app.
  assert (Hall10 : Forall is_digit (ds ++ [a])%list).
  { apply Forall_app. split; [exact Hall|now constructor]. }
  rewrite inn_checksum_digits by exact Hall10.
  set (b := (dot (ds ++ [a]) [7; 2; 4; 10; 3; 5; 9; 4; 6; 8] mod 11) mod 10).
  assert (Hb : is_digit b).
  { unfold is_digit, b.
    pose proof (Z.mod_pos_bound
                  (dot (ds ++ [a]) [7; 2; 4; 10; 3; 5; 9; 4; 6; 8] mod 11) 10
                  ltac:(lia)). lia. }
  cbn [ret fst]. rewrite !digit_string_app.
  exists ((ds ++ [a]) ++ [b])%list.
  assert (Hlen10 : List.length (ds ++ [a])%list = 10%nat)
    by (rewrite length_app, Hlen; reflexivity).
  split; [now rewrite app_assoc|].
  split; [rewrite length_app, Hlen10; reflexivity|].
  split; [apply Forall_app; split; [exact Hall10|now constructor]|].
  split.
  - rewrite app_nth1 by (rewrite Hlen10; lia).
    rewrite (nth_app_exact ds a 0 9 Hlen).
    rewrite <- app_assoc. rewrite (firstn_app_exact ds _ 9 Hlen). reflexivity.
  - rewrite (nth_app_exact (ds ++ [a]) b 0 10 Hlen10).
    rewrite (firstn_app_exact (ds ++ [a]) [b] 10 Hlen10). reflexivity.
Qed.

Lemma int_digits_digit_string (ds : list Z) :
  Forall is_digit ds -> ds <> [] ->
  int_digits (digit_string ds) = Return (decimal_value ds).
Proof.
  intros Hds Hne. unfold int_digits. rewrite chars_digit_string.
  destruct ds as [|d ds]; [contradiction|].
  cbn [map].
  change (digit_char d :: map digit_char ds) with (map digit_char (d :: ds)).
  rewrite omap_int_char_digits by exact Hds. reflexivity.
Qed.

(** An OGRN is always thirteen digits: twelve drawn, then the number
    they write taken modulo 11 and then modulo 10. *)
Theorem ogrn_check_digit (r : Random) :
  exists ds : list Z,
    fst (Ru.ogrn r) = Return (digit_string ds)
    /\ List.length ds = 13%nat /\ Forall is_digit ds
    /\ nth 12 ds 0 = (decimal_value (firstn 12 ds) mod 11) mod 10.
Proof.
  unfold Ru.ogrn.
  destruct (always_digit_strings 12 r) as [ss [r1 [H [ds [Hlen [Hall Hcat]]]]]].
  rewrite (bind_run _ _ _ _ _ H), Hcat. unfold lift, bind.
  rewrite int_digits_digit_string;
    [|exact Hall|intros ->; discriminate Hlen].
  set (c := (decimal_value ds mod 11) mod 10).
  assert (Hc : is_digit c).
  { unfold is_digit, c.
    pose proof (Z.mod_pos_bound (decimal_value ds mod 11) 10 ltac:(lia)). lia. }
  cbn [ret fst]. rewrite str_digit by exact Hc.
  change (String (digit_char c) "") with (digit_string [c]).
  rewrite digit_string_app.
  exists (ds ++ [c])%list.
  split; [reflexivity|].
  split; [rewrite length_app, Hlen; reflexivity|].
  split; [apply Forall_app; split; [exact Hall|now constructor]|].
  rewrite (nth_app_exact ds c 0 12 Hlen), (firstn_app_exact ds [c] 12 Hlen).
  reflexivity.
Qed.

(** ** Poland: PESEL *)

Lemma complement_mod10 (t : Z) : (t + (10 - t mod 10) mod 10) mod 10 = 0.
Proof.
  pose proof (Z.mod_pos_bound t 10 ltac:(lia)) as Ht.
  pose proof (Z.div_mod t 10 ltac:(lia)) as Hd.
  destruct (Z.eq_dec (t mod 10) 0) as [E|E].
  - rewrite E. change ((10 - 0) mod 10) with 0. rewrite Z.add_0_r. exact E.
  - rewrite (Z.mod_small (10 - t mod 10) 10) by lia.
    replace (t + (10 - t mod 10)) with ((t / 10 + 1) * 10) by lia.
    apply Z.mod_mul. lia.
Qed.

Lemma pesel_month_range (y m : Z) :
  1 <= m <= 12 -> 1 <= Pl.pesel_month y m <= 92.
Proof.
  intros Hm. unfold Pl.pesel_month.
  repeat (destruct (_ && _)); lia.
Qed.

(** For a birth date with a month in 1..12 and a day in 1..31, a PESEL
    is always eleven digits: two of the year, two of the month plus the
    century offset (80, 0, 20, 40 or 60 for the 1800s to the 2200s), two
    of the day, three drawn, one gender digit (even for female, odd for
    male) and a check digit that makes the sum weighted by
    (1,3,7,9,1,3,7,9,1,3,1) divisible by 10. *)
Theorem pesel_fields (current_year : Z) (entropy : nat -> Z)
    (d : Datetime.date) (g : option It.Gender) (r : Random) :
  1 <= Datetime.month d <= 12 ->
  1 <= Datetime.day d <= 31 ->
  exists ds : list Z,
    fst (Pl.pesel current_year entropy (Some d) g r) = Return (digit_string ds)
    /\ List.length ds = 11%nat /\ Forall is_digit ds
    /\ dot ds [1; 3; 7; 9; 1; 3; 7; 9; 1; 3; 1] mod 10 = 0
    /\ decimal_value (firstn 2 ds) = Datetime.year d mod 100
    /\ decimal_value (firstn 2 (skipn 2 ds))
       = Pl.pesel_month (Datetime.year d) (Datetime.month d)
    /\ decimal_value (firstn 2 (skipn 4 ds)) = Datetime.day d
    /\ match g with
       | Some It.FEMALE => Z.even (nth 9 ds 0) = true
       | Some It.MALE => Z.odd (nth 9 ds 0) = true
       | None => True
       end.
Proof.
  intros Hm Hd. unfold Pl.pesel.
  rewrite (bind_run _ _ _ _ _ (eq_refl : ret d r = (Return d, r))).
  assert (Hg : exists g' r1,
             match g with
             | Some g0 => ret g0
             | None => choice [It.MALE; It.FEMALE]
             end r = (Return g', r1)
             /\ match g with Some g0 => g' = g0 | None => True end).
  { destruct g as [g0|].
    - exists g0, r. now split.
    - destruct (always_choice It.MALE [It.FEMALE] r) as [g' [r1 [H _]]].
      now exists g', r1. }
  destruct Hg as [g' [r1 [Hg Hg']]].
  rewrite (bind_run _ _ _ _ _ Hg).
  destruct (randint_in_range 0 999 r1 ltac:(lia)) as [serial [r2 [Hs Bs]]].
  rewrite (bind_run _ _ _ _ _ Hs).
  set (y := Datetime.year d) in *. set (m := Datetime.month d) in *.
  set (dd := Datetime.day d) in *.
  pose proof (pesel_month_range y m Hm) as Hpm.
  set (pm := Pl.pesel_month y m) in *.
  pose proof (Z.mod_pos_bound y 100 ltac:(lia)) as Hy.
  assert (Hgd : exists gd r3,
             (if It.gender_eqb g' It.FEMALE
              then choice [0; 2; 4; 6; 8] else choice [1; 3; 5; 7; 9]) r2
             = (Return gd, r3)
             /\ is_digit gd
             /\ (if It.gender_eqb g' It.FEMALE
                 then Z.even gd = true else Z.odd gd = true)).
  { destruct (It.gender_eqb g' It.FEMALE).
    - destruct (always_choice 0 [2; 4; 6; 8] r2) as [gd [r3 [H Hin]]].
      exists gd, r3. split; [exact H|]. unfold is_digit.
      simpl in Hin. intuition (subst; try reflexivity; lia).
    - destruct (always_choice 1 [3; 5; 7; 9] r2) as [gd [r3 [H Hin]]].
      exists gd, r3. split; [exact H|]. unfold is_digit.
      simpl in Hin. intuition (subst; try reflexivity; lia). }
  destruct Hgd as [gd [r3 [Hgd [Dgd Pgd]]]].
  rewrite (bind_run _ _ _ _ _ Hgd).
  rewrite !fmt0d_2_digits, fmt0d_3_digits by lia.
  rewrite (str_digit gd Dgd).
  change (String (digit_char gd) "") with (digit_string [gd]).
  rewrite !digit_string_app. cbn [app].
  set (ds10 := [(y mod 100) / 10; (y mod 100) mod 10; pm / 10; pm mod 10;
                dd / 10; dd mod 10; serial / 100; (serial / 10) mod 10;
                serial mod 10; gd]).
  assert (Hall : Forall is_digit ds10).
  { destruct (two_digits (y mod 100) ltac:(lia)).
    destruct (two_digits pm ltac:(lia)).
    destruct (two_digits dd ltac:(lia)).
    assert (is_digit (serial / 100)).
    { unfold is_digit. split; [apply Z.div_pos; lia|].
      assert (serial / 100 < 10) by (apply Z.div_lt_upper_bound; lia). lia. }
    assert (is_digit ((serial / 10) mod 10)).
    { unfold is_digit. pose proof (Z.mod_pos_bound (serial / 10) 10 ltac:(lia)). lia. }
    assert (is_digit (serial mod 10)).
    { unfold is_digit. pose proof (Z.mod_pos_bound serial 10 ltac:(lia)). lia. }
    unfold ds10. all_digits. }
  unfold lift, bind. rewrite chars_digit_string.
  rewrite (omap_weighted_digits Z.mul) by exact Hall.
  rewrite sum_combine_dot_digits_first. cbn [ret fst].
  set (t := dot ds10 [1; 3; 7; 9; 1; 3; 7; 9; 1; 3]).
  set (c := (10 - t mod 10) mod 10).
  assert (Hc : is_digit c).
  { unfold is_digit, c. pose proof (Z.mod_pos_bound (10 - t mod 10) 10 ltac:(lia)). lia. }
  rewrite (str_digit c Hc).
  change (String (digit_char c) "") with (digit_string [c]).
  rewrite digit_string_app.
  exists (ds10 ++ [c])%list.
  split; [reflexivity|]. split; [reflexivity|].
  split; [apply Forall_app; split; [exact Hall|now constructor]|].
  split.
  { unfold ds10. cbn [app dot]. unfold c, t, ds10. cbn [dot].
    match goal with
    | |- (?a) mod 10 = 0 =>
        replace a with
          (((y mod 100) / 10 * 1 + ((y mod 100) mod 10 * 3 + (pm / 10 * 7
            + (pm mod 10 * 9 + (dd / 10 * 1 + (dd mod 10 * 3 + (serial / 100 * 7
            + ((serial / 10) mod 10 * 9 + (serial mod 10 * 1 + (gd * 3 + 0))))))))))
           + (10 - ((y mod 100) / 10 * 1 + ((y mod 100) mod 10 * 3 + (pm / 10 * 7
            + (pm mod 10 * 9 + (dd / 10 * 1 + (dd mod 10 * 3 + (serial / 100 * 7
            + ((serial / 10) mod 10 * 9 + (serial mod 10 * 1 + (gd * 3 + 0))))))))))
                   mod 10) mod 10)
          by lia
    end.
    apply complement_mod10. }
  unfold ds10. cbn [app firstn skipn nth decimal_value fold_left].
  split; [pose proof (Z.div_mod (y mod 100) 10 ltac:(lia)); lia|].
  split; [pose proof (Z.div_mod pm 10 ltac:(lia)); lia|].
  split; [pose proof (Z.div_mod dd 10 ltac:(lia)); lia|].
  destruct g as [[|]|]; [subst g'..|exact I]; exact Pgd.
Qed.

Lemma pesel_fields_witness :
  exists ds : list Z,
    fst (Pl.pesel 2024 (fun _ => 0) (Some (Datetime.mkDate 2004 3 7))
                  (Some It.FEMALE) (Samples.constant 7))
    = Return (digit_string ds)
    /\ List.length ds = 11%nat /\ Forall is_digit ds
    /\ dot ds [1; 3; 7; 9; 1; 3; 7; 9; 1; 3; 1] mod 10 = 0
    /\ decimal_value (firstn 2 ds) = 2004 mod 100
    /\ decimal_value (firstn 2 (skipn 2 ds)) = Pl.pesel_month 2004 3
    /\ decimal_value (firstn 2 (skipn 4 ds)) = 7
    /\ Z.even (nth 9 ds 0) = true.
Proof.
  apply (pesel_fields 2024 (fun _ => 0) (Datetime.mkDate 2004 3 7)
           (Some It.FEMALE) (Samples.constant 7)); simpl; lia.
Defined.

(** ** Brazil: CNPJ *)

Lemma mod11_rule_is_digit (t : Z) : is_digit (mod11_rule t).
Proof.
  unfold mod11_rule, is_digit.
  pose proof (Z.mod_pos_bound t 11 ltac:(lia)).
  destruct (Z.ltb_spec (t mod 11) 2); lia.
Qed.

Lemma index_nat {A} (l : list A) (k : nat) (d : A) :
  (k < List.length l)%nat -> index l (Z.of_nat k) = Return (nth k l d).
Proof.
  intros Hk. unfold index, len.
  destruct (Z.ltb_spec (Z.of_nat k) 0) as [Hneg|_]; [lia|].
  destruct (Z.leb_spec 0 (Z.of_nat k)) as [_|Hneg]; [|lia].
  destruct (Z.ltb_spec (Z.of_nat k) (Z.of_nat (List.length l))) as [_|Hge]; [|lia].
  cbn [andb]. rewrite Nat2Z.id.
  destruct (nth_error l k) as [x|] eqn:E.
  - now rewrite (nth_error_nth l k d E).
  - apply nth_error_None in E. lia.
Qed.

Lemma cnpj_terms (cnpj weight : list Z) (ks : list nat) :
  (forall k, In k ks -> (k < List.length cnpj)%nat /\ (k < List.length weight)%nat) ->
  omap (fun i => obind (index cnpj i)
                   (fun c => obind (index weight i) (fun w => Return (c * w))))
       (map Z.of_nat ks)
  = Return (map (fun k => nth k cnpj 0 * nth k weight 0) ks).
Proof.
  induction ks as [|k ks IH]; intros Hks; [reflexivity|].
  cbn [map omap].
  destruct (Hks k (or_introl eq_refl)) as [Hc Hw].
  rewrite (index_nat cnpj k 0 Hc), (index_nat weight k 0 Hw). cbn [obind].
  rewrite IH by (intros j Hj; apply Hks; now right). reflexivity.
Qed.

Lemma nth_products_dot (cnpj weight : list Z) :
  forall a : nat,
    (List.length cnpj <= List.length weight)%nat ->
    sum (map (fun k => nth (k - a) cnpj 0 * nth (k - a) weight 0)
             (seq a (List.length cnpj)))
    = dot cnpj weight.
Proof.
  revert weight. induction cnpj as [|c cnpj IH]; intros weight a Hlen.
  - reflexivity.
  - destruct weight as [|w weight]; [simpl in Hlen; lia|].
    cbn [List.length seq map dot]. rewrite sum_cons, Nat.sub_diag. cbn [nth].
    f_equal. rewrite <- (IH weight (S a)) by (simpl in Hlen; lia).
    f_equal. apply map_ext_in. intros k Hk. apply in_seq in Hk.
    replace (k - a)%nat with (S (k - S a)) by lia. reflexivity.
Qed.

(** With at least as many weights as digits, the verifying digit is
    the remainder rule applied to the weighted sum. *)
Lemma verifying_digit_cnpj_dot (cnpj weight : list Z) :
  (List.length cnpj <= List.length weight)%nat ->
  Cnpj.__get_verifying_digit_cnpj cnpj weight
  = Return (mod11_rule (dot cnpj weight)).
Proof.
  intros Hlen. unfold Cnpj.__get_verifying_digit_cnpj, len.
  rewrite range_upto, cnpj_terms.
  - cbn [obind]. unfold mod11_rule.
    rewrite <- (nth_products_dot cnpj weight 0 Hlen).
    rewrite (map_ext (fun k => nth k cnpj 0 * nth k weight 0)
                     (fun k => nth (k - 0) cnpj 0 * nth (k - 0) weight 0))
      by (intros k; now rewrite Nat.sub_0_r).
    reflexivity.
  - intros k Hk. apply in_seq in Hk. lia.
Qed.

(** A CNPJ always has fourteen digits (with or without the mask): eight
    drawn, the branch 0001, the remainder-rule digit of the first twelve
    under the weights (5,4,3,2,9,8,7,6,5,4,3,2), and the remainder-rule
    digit of the first thirteen under (6,5,4,3,2,9,8,7,6,5,4,3,2). *)
Theorem cnpj_check_digits (with_mask : bool) (r : Random) :
  exists s : string,
    fst (Cnpj.cnpj with_mask r) = Return s /\
    let ds := map digit_value (filter isdigit (chars s)) in
    List.length ds = 14%nat
    /\ firstn 4 (skipn 8 ds) = [0; 0; 0; 1]
    /\ nth 12 ds 0
       = mod11_rule (dot (firstn 12 ds) [5; 4; 3; 2; 9; 8; 7; 6; 5; 4; 3; 2])
    /\ nth 13 ds 0
       = mod11_rule (dot (firstn 13 ds) [6; 5; 4; 3; 2; 9; 8; 7; 6; 5; 4; 3; 2]).
Proof.
  unfold Cnpj.cnpj.
  destruct (draw_digits 8 r) as [ds [r1 [H [Hlen Hall]]]].
  rewrite (bind_run _ _ _ _ _ H).
  destruct ds as [|d0 [|d1 [|d2 [|d3 [|d4 [|d5 [|d6 [|d7 [|d8 rest]]]]]]]]];
    try discriminate Hlen.
  clear Hlen H. cbn [app].
  unfold lift, bind.
  rewrite verifying_digit_cnpj_dot by (simpl; lia).
  pose proof (mod11_rule_is_digit
                (dot [d0; d1; d2; d3; d4; d5; d6; d7; 0; 0; 0; 1]
                     [5; 4; 3; 2; 9; 8; 7; 6; 5; 4; 3; 2])) as Hv1.
  set (v1 := mod11_rule _) in *.
  cbn [app].
  rewrite verifying_digit_cnpj_dot by (simpl; lia).
  pose proof (mod11_rule_is_digit
                (dot [d0; d1; d2; d3; d4; d5; d6; d7; 0; 0; 0; 1; v1]
                     [6; 5; 4; 3; 2; 9; 8; 7; 6; 5; 4; 3; 2])) as Hv2.
  set (v2 := mod11_rule (dot [d0; d1; d2; d3; d4; d5; d6; d7; 0; 0; 0; 1; v1] _)) in *.
  cbn [app].
  assert (H0 : is_digit 0) by (unfold is_digit; lia).
  assert (H1 : is_digit 1) by (unfold is_digit; lia).
  assert (Hall14 : Forall is_digit
                     [d0; d1; d2; d3; d4; d5; d6; d7; 0; 0; 0; 1; v1; v2]).
  { digits_of Hall. all_digits. }
  assert (Hdigits :
            forall s,
              map digit_value (filter isdigit (chars s))
              = [d0; d1; d2; d3; d4; d5; d6; d7; 0; 0; 0; 1; v1; v2] ->
              let ds := map digit_value (filter isdigit (chars s)) in
              List.length ds = 14%nat
              /\ firstn 4 (skipn 8 ds) = [0; 0; 0; 1]
              /\ nth 12 ds 0
                 = mod11_rule (dot (firstn 12 ds)
                                   [5; 4; 3; 2; 9; 8; 7; 6; 5; 4; 3; 2])
              /\ nth 13 ds 0
                 = mod11_rule (dot (firstn 13 ds)
                                   [6; 5; 4; 3; 2; 9; 8; 7; 6; 5; 4; 3; 2])).
  { intros s Hs. cbv zeta. rewrite Hs. cbn [List.length nth firstn skipn].
    repeat split; reflexivity. }
  destruct with_mask.
  - eexists. split; [reflexivity|]. apply Hdigits.
    digits_of Hall14.
    unfold Cnpj.at_. cbn [nth].
    rewrite !str_digit by assumption.
    cbn [append]. unfold chars. cbn [list_ascii_of_string filter].
    rewrite !isdigit_digit_char by assumption.
    change (isdigit ".") with false. change (isdigit "-") with false.
    change (isdigit "/") with false.
    cbn [map]. rewrite !digit_value_digit_char by assumption.
    reflexivity.
  - eexists. split; [reflexivity|]. apply Hdigits.
    rewrite concat_str_digits by exact Hall14.
    now apply digits_of_digit_string.
Qed.

(** ** The methods of Random *)

Lemma always_mapM_rel {A B} (f : A -> M B) (R : A -> B -> Prop) (xs : list A) :
  (forall x, always (f x) (R x)) ->
  always (mapM f xs) (Forall2 R xs).
Proof.
  intros Hf. induction xs as [|x xs IH]; cbn [mapM].
  - apply always_ret. constructor.
  - eapply always_bind; [apply Hf|]. intros y Ry.
    eapply always_bind; [apply IH|]. intros ys Hys.
    apply always_ret. now constructor.
Qed.

Lemma always_choice_forallb {A} (p : A -> bool) (x : A) (l : list A) :
  forallb p (x :: l) = true -> always (choice (x :: l)) (fun y => p y = true).
Proof.
  intros Hp. eapply always_weaken; [apply always_choice|].
  intros y Hy. rewrite forallb_forall in Hp. now apply Hp.
Qed.

(** generate_string_by_mask always returns a string as long as the
    mask in which each character of the mask that equals the character
    placeholder has become an upper-case letter, each other one that
    equals the digit placeholder has become a digit, and every other
    character is unchanged. *)
Theorem generate_string_by_mask_shape (mask char digit : string) (r : Random) :
  exists s : string,
    fst (generate_string_by_mask mask char digit r) = Return s
    /\ String.length s = String.length mask
    /\ Forall2 (fun c o =>
                  if (String c "" =? char)%string then isupper o = true
                  else if (String c "" =? digit)%string then isdigit o = true
                  else o = c)
               (chars mask) (chars s).
Proof.
  unfold generate_string_by_mask.
  set (f := fun c : ascii => _).
  assert (Hf : forall c, always (f c)
                 (fun o => if (String c "" =? char)%string then isupper o = true
                           else if (String c "" =? digit)%string then isdigit o = true
                           else o = c)).
  { intros c. unfold f. destruct (String c "" =? char)%string.
    - apply always_choice_forallb. vm_compute. reflexivity.
    - destruct (String c "" =? digit)%string.
      + apply always_choice_forallb. vm_compute. reflexivity.
      + now apply always_ret. }
  destruct (always_mapM_rel f _ (chars mask) Hf r) as [cs [r1 [H HR]]].
  exists (join cs). rewrite (bind_run _ _ _ _ _ H). cbn [ret fst].
  split; [reflexivity|]. rewrite chars_join. split; [|exact HR].
  rewrite string_length_join. apply Forall2_length in HR. rewrite <- HR.
  unfold chars. clear. induction mask as [|c m IH]; simpl; [reflexivity|].
  now rewrite IH.
Qed.

Lemma range_upto_pos (n : Z) :
  0 < n -> exists l, range 0 n 1 = 0 :: l.
Proof.
  intros Hn. replace n with (Z.of_nat (S (Z.to_nat (n - 1)))) by lia.
  rewrite range_upto. cbn [seq map]. eexists. reflexivity.
Qed.

(** randints raises ValueError exactly when n is not positive or the
    range is empty (b < a); otherwise it returns n integers, each within
    [a, b]. *)
Theorem randints_result (n a b : Z) (r : Random) :
  match fst (randints n a b r) with
  | Return l =>
      0 < n /\ a <= b /\ List.length l = Z.to_nat n
      /\ Forall (fun x => a <= x <= b) l
  | Raise e => (n <= 0 \/ b < a) /\ exists msg, e = ValueError msg
  | Timeout => False
  end.
Proof.
  unfold randints. destruct (Z.leb_spec n 0) as [Hn|Hn].
  - cbn. split; [now left|]. eexists. reflexivity.
  - destruct (Z.lt_ge_cases b a) as [Hba|Hab].
    + destruct (range_upto_pos n Hn) as [l Hl].
      unfold replicateM. rewrite Hl. cbn [mapM]. unfold bind, randint.
      destruct (Z.ltb_spec b a) as [_|Hge]; [|lia].
      cbn. split; [now right|]. eexists. reflexivity.
    + destruct (always_replicateM n (randint a b) _ (always_randint a b Hab) r)
        as [l [r1 [H [Hlen Hall]]]].
      rewrite H. cbn [fst]. repeat split; try assumption; lia.
Qed.

(** randbytes never raises: it returns n values (none for n <= 0),
    each in 0..255. *)
Theorem randbytes_result (n : Z) (r : Random) :
  exists l : list Z,
    fst (randbytes n r) = Return l
    /\ List.length l = Z.to_nat n
    /\ Forall (fun x => 0 <= x <= 255) l.
Proof.
  unfold randbytes.
  destruct (always_replicateM n (randint 0 255) _
              (always_randint 0 255 ltac:(lia)) r) as [l [r1 [H [Hlen Hall]]]].
  exists l. rewrite H. now repeat split.
Qed.

(** _generate_string returns [length] characters (none when length is
    not positive), each taken from str_seq; with an empty str_seq and a
    positive length it raises IndexError instead. *)
Theorem generate_string_result (str_seq : string) (length : Z) (r : Random) :
  match fst (_generate_string str_seq length r) with
  | Return s =>
      String.length s = Z.to_nat length
      /\ Forall (fun c => In c (chars str_seq)) (chars s)
      /\ (str_seq <> "" \/ length <= 0)
  | Raise e => e = IndexError /\ str_seq = "" /\ 0 < length
  | Timeout => False
  end.
Proof.
  unfold _generate_string.
  destruct str_seq as [|c0 rest].
  - destruct (Z.leb_spec length 0) as [Hn|Hn].
    + unfold replicateM.
      assert (Hr : range 0 length 1 = []).
      { apply length_zero_iff_nil. rewrite range_upto_length. lia. }
      rewrite Hr. cbn. repeat split; [lia|constructor|now right].
    + destruct (range_upto_pos length Hn) as [l Hl].
      unfold replicateM. rewrite Hl. cbn. now repeat split.
  - change (chars (String c0 rest)) with (c0 :: chars rest).
    destruct (always_replicateM length (choice (c0 :: chars rest)) _
                (always_choice c0 (chars rest)) r) as [cs [r1 [H [Hlen Hall]]]].
    rewrite (bind_run _ _ _ _ _ H). cbn [ret fst].
    rewrite string_length_join, chars_join.
    repeat split; [exact Hlen|exact Hall|left; discriminate].
Qed.

(** ** Enum validation *)

Lemma dict_mem_get {V} (d : list (string * V)) (k : string) :
  dict_mem d k = true -> exists v, dict_get d k = Return v.
Proof.
  induction d as [|[k' v] d IH]; simpl; [discriminate|].
  destruct (k =? k')%string; simpl; [now exists v|exact IH].
Qed.

Lemma dict_mem_false {V} (d : list (string * V)) (k : string) :
  dict_mem d k = false -> ~ In k (map fst d).
Proof.
  induction d as [|[k' v] d IH]; simpl; [tauto|].
  destruct (String.eqb_spec k k') as [E|E]; simpl; [discriminate|].
  intros H [H1|H1]; [congruence|now apply IH].
Qed.

(** validate_enum: with None it returns a drawn member of the
    enumeration (IndexError if it has none); a member is handed back as
    it is; a name is replaced by the member of that name; a name the
    enumeration lacks raises NonEnumerableError, an object that cannot
    be hashed raises TypeError, and any other object raises
    NonEnumerableError.  Only the None case draws. *)
Theorem validate_enum_result (E : Enum) (item : enum_arg E) (r : Random) :
  match fst (validate_enum E item r) with
  | Return m =>
      match item with
      | ArgNone => In m (map snd (members E))
      | ArgMember m0 => m = m0
      | ArgName name => In (name, m) (members E)
      | ArgUnhashable => False
      | ArgOther => False
      end
  | Raise e =>
      match item with
      | ArgNone => members E = [] /\ e = IndexError
      | ArgMember _ => False
      | ArgName name => e = NonEnumerableError /\ ~ In name (map fst (members E))
      | ArgUnhashable => e = TypeError
      | ArgOther => e = NonEnumerableError
      end
  | Timeout => False
  end
  /\ match item with
     | ArgNone => True
     | _ => snd (validate_enum E item r) = r
     end.
Proof.
  destruct item as [|m0|name| |]; cbn [validate_enum].
  - split; [|exact I]. unfold choice_enum_item.
    destruct (map snd (members E)) as [|x l] eqn:El.
    + cbn. split; [|reflexivity]. now destruct (members E).
    + destruct (always_choice x l r) as [y [r1 [H Hin]]].
      rewrite H. exact Hin.
  - split; reflexivity.
  - destruct (dict_mem (members E) name) eqn:Em.
    + destruct (dict_mem_get _ _ Em) as [v Hv].
      unfold lift. rewrite Hv. cbn. split; [|reflexivity].
      now apply dict_get_In.
    + cbn. split; [|reflexivity]. split; [reflexivity|].
      now apply dict_mem_false.
  - split; reflexivity.
  - split; reflexivity.
Qed.

(** ** The dataset of a data provider *)

Import Dataset.

Lemma update_dict_loop (its : list (string * json)) :
  forall initial, _update_dict initial (JDict its) = update_loop its initial.
Proof.
  induction its as [|[key value] rest IH]; intros initial; [reflexivity|].
  change (_update_dict initial (JDict ((key, value) :: rest)))
    with (obind (update_step initial key value)
                (fun i' => _update_dict i' (JDict rest))).
  cbn [update_loop].
  destruct (update_step initial key value) as [i'| |]; cbn [obind];
    [apply IH|reflexivity|reflexivity].
Qed.

Lemma lookup_store_same (items : list (string * json)) (key : string) (v : json) :
  lookup (store items key v) key = Some v.
Proof.
  induction items as [|[k x] items IH]; cbn [store lookup].
  - now rewrite String.eqb_refl.
  - destruct (String.eqb_spec key k) as [E|E]; cbn [lookup].
    + subst. now rewrite String.eqb_refl.
    + destruct (String.eqb_spec key k); [contradiction|exact IH].
Qed.

Lemma lookup_store_other (items : list (string * json)) (key k' : string) (v : json) :
  k' <> key -> lookup (store items key v) k' = lookup items k'.
Proof.
  intros Hne. induction items as [|[k x] items IH]; cbn [store lookup].
  - destruct (String.eqb_spec k' key); [contradiction|reflexivity].
  - destruct (String.eqb_spec key k) as [E|E]; cbn [lookup].
    + subst. destruct (String.eqb_spec k' k); [contradiction|reflexivity].
    + destruct (String.eqb_spec k' k); [reflexivity|exact IH].
Qed.

(** A step on a dictionary yields a dictionary, changes nothing but
    the entry of its key, and stores a non-dictionary value as it is. *)
Lemma update_step_Return (initial : json) (key : string) (value d' : json) :
  update_step initial key value = Return d' ->
  exists items items',
    initial = JDict items /\ d' = JDict items'
    /\ (forall k', k' <> key -> lookup items' k' = lookup items k')
    /\ (is_dict value = false -> lookup items' key = Some value).
Proof.
  unfold update_step. destruct initial as [| | | | |items];
    try (destruct (is_dict value); discriminate).
  destruct (is_dict value) eqn:Ev.
  - cbn [get_or_empty].
    destruct (match lookup items key with
              | Some v => Return v
              | None => Return (JDict [])
              end) as [cur| |] eqn:Ec; cbn [obind]; try discriminate.
    destruct (_update_dict cur value) as [merged| |]; cbn [obind setitem_json];
      try discriminate.
    intros H. inversion H; subst.
    exists items, (store items key merged). repeat split.
    + intros k' Hk. now apply lookup_store_other.
    + discriminate.
  - cbn [setitem_json]. intros H. inversion H; subst.
    exists items, (store items key value). repeat split.
    + intros k' Hk. now apply lookup_store_other.
    + intros _. apply lookup_store_same.
Qed.

Lemma update_loop_Return (its : list (string * json)) :
  forall items d',
    update_loop its (JDict items) = Return d' ->
    exists items',
      d' = JDict items'
      /\ (forall k', ~ In k' (map fst its) -> lookup items' k' = lookup items k')
      /\ (forall key value,
             NoDup (map fst its) -> In (key, value) its ->
             is_dict value = false -> lookup items' key = Some value).
Proof.
  induction its as [|[key value] rest IH]; intros items d' H.
  - inversion H; subst. exists items. repeat split; auto.
    intros key value _ [].
  - cbn [update_loop] in H.
    destruct (update_step (JDict items) key value) as [d1| |] eqn:Es;
      cbn [obind] in H; try discriminate.
    destruct (update_step_Return _ _ _ _ Es) as [it0 [it1 [E0 [E1 [Hoth Hsame]]]]].
    inversion E0; subst it0. subst d1.
    destruct (IH it1 d' H) as [items' [Ed [Hkeep Hset]]].
    exists items'. split; [exact Ed|]. split.
    + intros k' Hk. cbn [map fst In] in Hk.
      rewrite Hkeep by tauto. apply Hoth. intros ->. apply Hk. now left.
    + intros k v Hnd Hin Hv. cbn [map fst] in Hnd.
      inversion Hnd as [|? ? Hnotin Hnd']; subst.
      destruct Hin as [Heq|Hin].
      * inversion Heq; subst. rewrite Hkeep by exact Hnotin. now apply Hsame.
      * now apply Hset.
Qed.

(** After update_dataset succeeds on a dictionary dataset, a key that
    the update maps to a non-dictionary value extracts to exactly that
    value, whatever the default. *)
Theorem update_then_extract
    (items other : list (string * json)) (key : string)
    (value default d' : json) :
  NoDup (map fst other) ->
  In (key, value) other ->
  is_dict value = false ->
  update_dataset (JDict items) (JDict other) = Return d' ->
  _extract d' [key] default = Return value.
Proof.
  intros Hnd Hin Hv H. unfold update_dataset in H.
  rewrite update_dict_loop in H.
  destruct (update_loop_Return other items d' H) as [items' [Ed [_ Hset]]].
  subst d'. unfold _extract. cbn [getitem_path].
  now rewrite (Hset key value Hnd Hin Hv).
Qed.

Lemma update_then_extract_witness :
  _extract (JDict [("a", JDict [("b", JNum 1); ("c", JNum 2)]); ("x", JStr "new")])
           ["x"] JNull
  = Return (JStr "new").
Proof.
  apply (update_then_extract
           [("a", JDict [("b", JNum 1)]); ("x", JStr "old")]
           [("a", JDict [("c", JNum 2)]); ("x", JStr "new")]
           "x" (JStr "new") JNull).
  - repeat constructor; simpl; intuition discriminate.
  - right. now left.
  - reflexivity.
  - reflexivity.
Defined.

(** update_dataset leaves alone every top-level key that the update
    does not mention. *)
Theorem update_keeps_other_keys
    (items other : list (string * json)) (key : string) (d' : json) :
  ~ In key (map fst other) ->
  update_dataset (JDict items) (JDict other) = Return d' ->
  exists items', d' = JDict items' /\ lookup items' key = lookup items key.
Proof.
  intros Hk H. unfold update_dataset in H. rewrite update_dict_loop in H.
  destruct (update_loop_Return other items d' H) as [items' [Ed [Hkeep _]]].
  exists items'. split; [exact Ed|]. now apply Hkeep.
Qed.

Lemma update_keeps_other_keys_witness :
  exists items',
    JDict [("a", JNum 1); ("b", JNum 5)] = JDict items'
    /\ lookup items' "a" = lookup [("a", JNum 1); ("b", JNum 2)] "a".
Proof.
  apply (update_keeps_other_keys [("a", JNum 1); ("b", JNum 2)]
           [("b", JNum 5)] "a").
  - simpl. intuition discriminate.
  - reflexivity.
Defined.

Lemma reaches_getitem_path (d : json) (keys : list string) (v : json) :
  reaches d keys v <-> getitem_path d keys = Return v.
Proof.
  split.
  - induction 1 as [d|items k ks x v Hk _ IH]; cbn [getitem_path].
    + reflexivity.
    + now rewrite Hk.
  - revert d. induction keys as [|k ks IH]; intros d H; cbn [getitem_path] in H.
    + inversion H. constructor.
    + destruct d as [| | | | |items]; try discriminate H.
      destruct (lookup items k) as [x|] eqn:Hk; [|discriminate H].
      econstructor; [exact Hk|]. now apply IH.
Qed.

(** _extract never raises, for any dataset, keys and default: when the
    keys lead down nested dictionaries to a value it returns that
    value, and it returns the default exactly when they lead nowhere (a
    key is missing, or a value met on the way is not a dictionary). *)
Theorem extract_never_raises (dataset : json) (keys : list string) (default : json) :
  exists v,
    _extract dataset keys default = Return v
    /\ (reaches dataset keys v
        \/ (v = default /\ forall w, ~ reaches dataset keys w)).
Proof.
  unfold _extract.
  assert (H : forall d, match getitem_path d keys with
                        | Return _ => True
                        | Raise (KeyError _) => True
                        | Raise TypeError => True
                        | _ => False
                        end).
  { induction keys as [|k keys IH]; intros d; cbn [getitem_path]; [exact I|].
    destruct d as [| | | | |its]; try exact I.
    destruct (lookup its k); [apply IH|exact I]. }
  specialize (H dataset).
  destruct (getitem_path dataset keys) as [v|[]|] eqn:E; try contradiction.
  - exists v. split; [reflexivity|]. left. now apply reaches_getitem_path.
  - exists default. split; [reflexivity|]. right. split; [reflexivity|].
    intros w Hw. apply reaches_getitem_path in Hw. congruence.
  - exists default. split; [reflexivity|]. right. split; [reflexivity|].
    intros w Hw. apply reaches_getitem_path in Hw. congruence.
Qed.

(** ** Payment: codes and addresses *)

Lemma always_drawn_chars (p : ascii -> bool) (n : Z) (x : ascii) (l : list ascii) :
  forallb p (x :: l) = true ->
  always (replicateM n (choice (x :: l)))
         (fun cs => List.length cs = Z.to_nat n
                    /\ Forall (fun c => p c = true) cs).
Proof.
  intros Hp. apply always_replicateM. now apply always_choice_forallb.
Qed.

(** cvv and cid always return three characters, each a decimal
    digit. *)
Theorem cvv_cid_three_digits (r : Random) :
  (exists s, fst (PaymentMore.cvv r) = Return s
             /\ String.length s = 3%nat
             /\ Forall (fun c => isdigit c = true) (chars s))
  /\ (exists s, fst (PaymentMore.cid r) = Return s
                /\ String.length s = 3%nat
                /\ Forall (fun c => isdigit c = true) (chars s)).
Proof.
  assert (H : exists cs r1,
             replicateM 3 (choice (chars digits)) r = (Return cs, r1)
             /\ List.length cs = 3%nat
             /\ Forall (fun c => isdigit c = true) cs).
  { destruct (always_drawn_chars isdigit 3 "0"%char (chars "123456789")
                ltac:(vm_compute; reflexivity) r) as [cs [r1 [H [Hlen Hall]]]].
    exists cs, r1. repeat split; assumption. }
  destruct H as [cs [r1 [H [Hlen Hall]]]].
  split; exists (join cs).
  - unfold PaymentMore.cvv. rewrite (bind_run _ _ _ _ _ H). cbn [ret fst].
    rewrite string_length_join, chars_join. repeat split; assumption.
  - unfold PaymentMore.cid. rewrite (bind_run _ _ _ _ _ H). cbn [ret fst].
    rewrite string_length_join, chars_join. repeat split; assumption.
Qed.

(** bitcoin_address always returns 34 characters: the digit 1 followed
    by 33 letters or digits. *)
Theorem bitcoin_address_shape (r : Random) :
  exists body : string,
    fst (PaymentMore.bitcoin_address r) = Return ("1" ++ body)
    /\ String.length body = 33%nat
    /\ Forall (fun c => isalnum c = true) (chars body).
Proof.
  destruct (always_drawn_chars isalnum 33 "a"%char
              (chars ("bcdefghijklmnopqrstuvwxyz" ++ ascii_uppercase ++ digits))
              ltac:(vm_compute; reflexivity) r) as [cs [r1 [H [Hlen Hall]]]].
  exists (join cs). unfold PaymentMore.bitcoin_address.
  change (chars (ascii_letters ++ digits))
    with ("a"%char :: chars ("bcdefghijklmnopqrstuvwxyz" ++ ascii_uppercase ++ digits)).
  rewrite (bind_run _ _ _ _ _ H). cbn [ret fst].
  rewrite string_length_join, chars_join. repeat split; assumption.
Qed.

(** ethereum_address always returns 42 characters: 0x followed by 40
    hexadecimal digits, none of them an upper-case letter. *)
Theorem ethereum_address_shape (r : Random) :
  exists body : string,
    fst (PaymentMore.ethereum_address r) = Return ("0x" ++ body)
    /\ String.length body = 40%nat
    /\ Forall (fun c => is_lower_hex c = true) (chars body).
Proof.
  destruct (always_drawn_chars is_lower_hex 40 "0"%char
              (chars "123456789abcdefabcdef")
              ltac:(vm_compute; reflexivity) r) as [cs [r1 [H [Hlen Hall]]]].
  exists (join cs). unfold PaymentMore.ethereum_address.
  change (chars (lower hexdigits))
    with ("0"%char :: chars "123456789abcdefabcdef").
  rewrite (bind_run _ _ _ _ _ H). cbn [ret fst].
  rewrite string_length_join, chars_join. repeat split; assumption.
Qed.

(** For an issue year no later than the expiry bound, both within
    0..99, credit_card_expiration_date always returns MM/YY with the
    month in 1..12 and the year within the bounds. *)
Theorem credit_card_expiration_date_format (minimum maximum : Z) (r : Random) :
  0 <= minimum -> minimum <= maximum -> maximum <= 99 ->
  exists month year : Z,
    fst (PaymentMore.credit_card_expiration_date minimum maximum r)
    = Return (digit_string [month / 10; month mod 10] ++ "/"
              ++ digit_string [year / 10; year mod 10])
    /\ 1 <= month <= 12 /\ minimum <= year <= maximum.
Proof.
  intros Hmin Hle Hmax. unfold PaymentMore.credit_card_expiration_date.
  destruct (randint_in_range 1 12 r ltac:(lia)) as [m [r1 [Hm Bm]]].
  destruct (randint_in_range minimum maximum r1 Hle) as [y [r2 [Hy By]]].
  exists m, y. rewrite (bind_run _ _ _ _ _ Hm), (bind_run _ _ _ _ _ Hy).
  cbn [ret fst]. rewrite !fmt0d_2_digits by lia. repeat split; lia.
Qed.

Lemma credit_card_expiration_date_format_witness :
  exists month year : Z,
    fst (PaymentMore.credit_card_expiration_date 16 25 (Samples.constant 0))
    = Return (digit_string [month / 10; month mod 10] ++ "/"
              ++ digit_string [year / 10; year mod 10])
    /\ 1 <= month <= 12 /\ 16 <= year <= 25.
Proof.
  apply (credit_card_expiration_date_format 16 25 (Samples.constant 0)); lia.
Defined.

(** ** USA: tracking numbers *)

Lemma follows_app (m1 m2 s1 s2 : list ascii) :
  follows m1 s1 = true -> follows m2 s2 = true ->
  follows (m1 ++ m2) (s1 ++ s2) = true.
Proof.
  revert s1. induction m1 as [|m m1 IH]; intros [|c s1] H1 H2;
    try discriminate H1; [exact H2|].
  cbn [follows app] in *. apply andb_true_iff in H1. destruct H1 as [Hc H1].
  rewrite Hc. cbn [andb]. now apply IH.
Qed.

Lemma follows_mask_app (m1 m2 s1 s2 : string) :
  follows_mask m1 s1 = true -> follows_mask m2 s2 = true ->
  follows_mask (m1 ++ m2) (s1 ++ s2) = true.
Proof.
  unfold follows_mask. rewrite !chars_app. apply follows_app.
Qed.

Lemma str_follows_mask (lo hi : Z) (mask : string) :
  0 <= lo ->
  forallb (fun k => (k <? lo) || follows_mask mask (str k)) (range 0 (hi + 1) 1)
  = true ->
  forall k, lo <= k <= hi -> follows_mask mask (str k) = true.
Proof.
  intros Hlo H k Hk.
  pose proof (below_bound_Z _ _ H k ltac:(lia)) as Hb. cbv beta in Hb.
  destruct (Z.ltb_spec k lo); [lia|exact Hb].
Qed.

Ltac split_mask m1 m2 :=
  match goal with
  | |- follows_mask _ (?s1 ++ ?s2) = true =>
      change (follows_mask (m1 ++ m2) (s1 ++ s2) = true);
      apply follows_mask_app
  end.

(** tracking_number lower-cases the service name and then: for usps it
    returns digits in the pattern 4-4-4-4-2, for fedex 4-4-4, for ups
    1Z, three digits, an upper-case letter with two digits, two groups
    of four digits and one digit, the groups separated by single blanks;
    for any other name it raises ValueError. *)
Theorem tracking_number_shape (service : string) (r : Random) :
  match fst (En.tracking_number service r) with
  | Return s =>
      (lower service = "usps"
       /\ follows_mask "#### #### #### #### ##" s = true)
      \/ (lower service = "fedex" /\ follows_mask "#### #### ####" s = true)
      \/ (lower service = "ups"
          /\ follows_mask "1Z ### @## #### #### #" s = true)
  | Raise e =>
      e = ValueError "Unsupported service. Choose 'usps', 'fedex', or 'ups'."
      /\ lower service <> "usps" /\ lower service <> "fedex"
      /\ lower service <> "ups"
  | Timeout => False
  end.
Proof.
  assert (H4 : forall k, 1000 <= k <= 9999 -> follows_mask "####" (str k) = true)
    by (apply str_follows_mask; [lia|vm_compute; reflexivity]).
  assert (H3 : forall k, 100 <= k <= 999 -> follows_mask "###" (str k) = true)
    by (apply str_follows_mask; [lia|vm_compute; reflexivity]).
  assert (H2 : forall k, 10 <= k <= 99 -> follows_mask "##" (str k) = true)
    by (apply str_follows_mask; [lia|vm_compute; reflexivity]).
  assert (H1 : forall k, 1 <= k <= 9 -> follows_mask "#" (str k) = true)
    by (apply str_follows_mask; [lia|vm_compute; reflexivity]).
  unfold En.tracking_number. cbv zeta.
  destruct (String.eqb_spec (lower service) "usps") as [E1|E1].
  { match goal with |- context [fst (?m r)] =>
      assert (Hm : always m (fun s => follows_mask "#### #### #### #### ##" s = true))
    end.
    { eapply always_bind; [apply always_randint; lia|]. intros a Ha.
      eapply always_bind; [apply always_randint; lia|]. intros b Hb.
      eapply always_bind; [apply always_randint; lia|]. intros c Hc.
      eapply always_bind; [apply always_randint; lia|]. intros d Hd.
      eapply always_bind; [apply always_randint; lia|]. intros e He.
      apply always_ret.
      split_mask "####" " #### #### #### ##"; [now apply H4|].
      split_mask " " "#### #### #### ##"; [reflexivity|].
      split_mask "####" " #### #### ##"; [now apply H4|].
      split_mask " " "#### #### ##"; [reflexivity|].
      split_mask "####" " #### ##"; [now apply H4|].
      split_mask " " "#### ##"; [reflexivity|].
      split_mask "####" " ##"; [now apply H4|].
      split_mask " " "##"; [reflexivity|]. now apply H2. }
    destruct (always_fst _ _ r Hm) as [s [Hs Ps]]. rewrite Hs.
    left. now split. }
  destruct (String.eqb_spec (lower service) "fedex") as [E2|E2].
  { match goal with |- context [fst (?m r)] =>
      assert (Hm : always m (fun s => follows_mask "#### #### ####" s = true))
    end.
    { eapply always_bind; [apply always_randint; lia|]. intros a Ha.
      eapply always_bind; [apply always_randint; lia|]. intros b Hb.
      eapply always_bind; [apply always_randint; lia|]. intros c Hc.
      apply always_ret.
      split_mask "####" " #### ####"; [now apply H4|].
      split_mask " " "#### ####"; [reflexivity|].
      split_mask "####" " ####"; [now apply H4|].
      split_mask " " "####"; [reflexivity|]. now apply H4. }
    destruct (always_fst _ _ r Hm) as [s [Hs Ps]]. rewrite Hs.
    right. left. now split. }
  destruct (String.eqb_spec (lower service) "ups") as [E3|E3].
  { match goal with |- context [fst (?m r)] =>
      assert (Hm : always m (fun s => follows_mask "1Z ### @## #### #### #" s = true))
    end.
    { eapply always_bind; [apply always_randint; lia|]. intros a Ha.
      eapply always_bind;
        [apply (always_choice_forallb isupper); vm_compute; reflexivity|].
      intros l Hl.
      eapply always_bind; [apply always_randint; lia|]. intros b Hb.
      eapply always_bind; [apply always_randint; lia|]. intros c Hc.
      eapply always_bind; [apply always_randint; lia|]. intros d Hd.
      eapply always_bind; [apply always_randint; lia|]. intros e He.
      apply always_ret.
      split_mask "1Z " "### @## #### #### #"; [reflexivity|].
      split_mask "###" " @## #### #### #"; [now apply H3|].
      split_mask " " "@## #### #### #"; [reflexivity|].
      split_mask "@" "## #### #### #".
      { unfold follows_mask. cbn. now rewrite Hl. }
      split_mask "##" " #### #### #"; [now apply H2|].
      split_mask " " "#### #### #"; [reflexivity|].
      split_mask "####" " #### #"; [now apply H4|].
      split_mask " " "#### #"; [reflexivity|].
      split_mask "####" " #"; [now apply H4|].
      split_mask " " "#"; [reflexivity|]. now apply H1. }
    destruct (always_fst _ _ r Hm) as [s [Hs Ps]]. rewrite Hs.
    right. right. now split. }
  cbn [raise fst]. repeat split; assumption.
Qed.

(** ** ISSN check digit *)

Lemma isdigit_inv (c : ascii) :
  isdigit c = true ->
  is_digit (ord c - 48) /\ c = digit_char (ord c - 48)
  /\ int_char c = Return (ord c - 48).
Proof.
  destruct c as [[] [] [] [] [] [] [] []]; intros H; vm_compute in H;
    try discriminate H;
    (split; [unfold is_digit; vm_compute; split; discriminate
            |split; reflexivity]).
Qed.

Lemma issn_terms (cs : list ascii) :
  forall a : nat,
    match omap (fun id : Z * ascii =>
                  obind (int_char (snd id)) (fun d => Return ((8 - fst id) * d)))
               (combine (map Z.of_nat (seq a (List.length cs))) cs) with
    | Return terms =>
        exists ds, cs = map digit_char ds /\ Forall is_digit ds
                   /\ sum terms = descending_sum (8 - Z.of_nat a) ds
    | Raise e =>
        e = ValueError "invalid literal for int()" /\ forallb isdigit cs = false
    | Timeout => False
    end.
Proof.
  induction cs as [|c cs IH]; intros a.
  - exists []. repeat split. constructor.
  - cbn [List.length seq map combine omap fst snd forallb].
    destruct (isdigit c) eqn:E.
    + destruct (isdigit_inv c E) as [Hd [Hc Hi]]. rewrite Hi. cbn [obind].
      specialize (IH (S a)).
      destruct (omap _ _) as [terms|e|]; cbn [obind andb].
      * destruct IH as [ds [Hcs [Hall Hs]]].
        exists ((ord c - 48) :: ds). split; [cbn [map]; congruence|].
        split; [now constructor|].
        rewrite sum_cons, Hs. cbn [descending_sum].
        replace (8 - Z.of_nat (S a)) with (8 - Z.of_nat a - 1) by lia. lia.
      * exact IH.
      * exact IH.
    + unfold int_char. rewrite E. cbn [obind andb]. now split.
Qed.

Lemma check_completes_eleven (total : Z) :
  (total + (11 - total mod 11) mod 11) mod 11 = 0.
Proof.
  rewrite Zplus_mod_idemp_r.
  replace (total + (11 - total mod 11)) with ((total / 11 + 1) * 11)
    by (pose proof (Z.div_mod total 11 ltac:(lia)); lia).
  apply Z.mod_mul. lia.
Qed.

(** The ISSN check character, with the dashes of the ISSN left out: if
    every other character is a decimal digit, the function returns the
    character X, standing for 10, or a digit, that brings the sum of
    the digits weighted 8, 7, 6, ... plus the check value to a multiple
    of 11; if some character is not a digit it raises ValueError. *)
Theorem issn_check_digit_valid (issn : string) :
  let body := filter (fun c => negb (Ascii.eqb c "-")) (chars issn) in
  match Code._calculate_check_digit issn with
  | Return c =>
      exists (ds : list Z) (v : Z),
        body = map digit_char ds /\ Forall is_digit ds
        /\ (descending_sum 8 ds + v) mod 11 = 0
        /\ ((v = 10 /\ c = "X") \/ (is_digit v /\ c = digit_string [v]))
  | Raise e =>
      e = ValueError "invalid literal for int()" /\ forallb isdigit body = false
  | Timeout => False
  end.
Proof.
  cbv zeta. unfold Code._calculate_check_digit, enumerate, len.
  rewrite range_upto.
  set (body := filter _ _).
  pose proof (issn_terms body 0) as H.
  destruct (omap _ _) as [terms|e|]; cbn [obind]; [|exact H|exact H].
  destruct H as [ds [Hb [Hall Hs]]].
  change (8 - Z.of_nat 0) with 8 in Hs.
  exists ds, ((11 - sum terms mod 11) mod 11).
  split; [exact Hb|]. split; [exact Hall|]. split.
  - rewrite <- Hs. apply check_completes_eleven.
  - pose proof (Z.mod_pos_bound (11 - sum terms mod 11) 11 ltac:(lia)) as Hv.
    destruct (Z.eqb_spec ((11 - sum terms mod 11) mod 11) 10) as [E|E].
    + left. now split.
    + right. assert (Hd : is_digit ((11 - sum terms mod 11) mod 11))
        by (unfold is_digit; lia).
      split; [exact Hd|]. now rewrite (str_digit _ Hd).
Qed.

(** ** Dates *)

(** date returns a calendar date whose year lies within the bounds and
    within 1..9999, with the day never above 28; it raises only when the
    bounds are the wrong way round or the drawn year is outside 1..9999,
    which needs a bound outside that range. *)
Theorem date_result (start end_ : Z) (r : Random) :
  match fst (Datetime.date_ start end_ r) with
  | Return d =>
      start <= Datetime.year d <= end_
      /\ 1 <= Datetime.year d <= 9999
      /\ 1 <= Datetime.month d <= 12
      /\ 1 <= Datetime.day d <= 28
  | Raise _ => end_ < start \/ start < 1 \/ 9999 < end_
  | Timeout => False
  end.
Proof.
  unfold Datetime.date_, Datetime.year_.
  destruct (Z.ltb_spec end_ start) as [Hlt|Hle].
  - unfold randint. destruct (Z.ltb_spec end_ start) as [_|Hge]; [|lia].
    unfold bind, raise. cbn [fst]. now left.
  - destruct (randint_in_range start end_ r Hle) as [y [r1 [Hy By]]].
    destruct (randint_in_range 1 12 r1 ltac:(lia)) as [m [r2 [Hm Bm]]].
    destruct (randint_in_range 1 28 r2 ltac:(lia)) as [d [r3 [Hd Bd]]].
    rewrite (bind_run _ _ _ _ _ Hy), (bind_run _ _ _ _ _ Hm),
      (bind_run _ _ _ _ _ Hd).
    unfold lift, Datetime.make_date. cbn [fst].
    assert (Hdim : 28 <= Datetime.days_in_month y m).
    { unfold Datetime.days_in_month.
      destruct (m =? 2); [destruct (Datetime.is_leap y); lia|].
      destruct (_ || _); lia. }
    destruct (Z.leb_spec 1 y) as [H1|H1]; cbn [andb].
    + destruct (Z.leb_spec y 9999) as [H2|H2]; cbn [andb].
      * replace ((1 <=? m) && (m <=? 12) && (1 <=? d)
                 && (d <=? Datetime.days_in_month y m)) with true.
        -- cbn [Datetime.year Datetime.month Datetime.day]. lia.
        -- symmetry. repeat (apply andb_true_intro; split); apply Z.leb_le; lia.
      * lia.
    + lia.
Qed.

(** ** Danish CPR: no exception *)

Lemma generate_serial_checksum_no_raise (budget : nat) :
  forall (c6 : list Z) (r : Random),
    List.length c6 = 6%nat -> Forall is_digit c6 ->
    match fst (Da._generate_serial_checksum budget (digit_string c6) r) with
    | Raise _ => False
    | _ => True
    end.
Proof.
  induction budget as [|budget IH]; intros c6 r Hlen Hall.
  - exact I.
  - cbn [Da._generate_serial_checksum]. unfold replicateM.
    change (range 0 3 1) with [0; 1; 2]. cbn [mapM].
    destruct (randint_in_range 0 9 r ltac:(lia)) as [a [r1 [Ha Ba]]].
    destruct (randint_in_range 0 9 r1 ltac:(lia)) as [b [r2 [Hb Bb]]].
    destruct (randint_in_range 0 9 r2 ltac:(lia)) as [c [r3 [Hc Bc]]].
    unfold bind. rewrite Ha. cbn [ret]. rewrite Hb. cbn [ret].
    rewrite Hc. cbn [ret]. fold (@bind (string * Z)).
    assert (Hs3 : Forall is_digit [a; b; c]) by (repeat constructor; lia).
    rewrite !str_digit by (unfold is_digit; lia).
    change (String.concat "" [String (digit_char a) ""; String (digit_char b) "";
                               String (digit_char c) ""])
      with (digit_string [a; b; c]).
    rewrite digit_string_app. unfold lift.
    rewrite calculate_checksum_digits;
      [|rewrite length_app, Hlen; reflexivity
       |apply Forall_app; split; assumption].
    destruct (Z.eqb_spec (Da.cpr_spec_check (c6 ++ [a; b; c])) 10) as [E|E];
      cbn [negb].
    + apply (IH c6 r3 Hlen Hall).
    + exact I.
Qed.

(** cpr never raises an exception: whatever the generator yields, the
    call returns a number or keeps redrawing serial numbers. *)
Theorem cpr_never_raises (budget : nat) (r : Random) :
  match fst (Da.cpr budget r) with
  | Raise _ => False
  | _ => True
  end.
Proof.
  unfold Da.cpr.
  destruct (date_in_range r) as [y [m [d [r1 [Hdate [By [Bm Bd]]]]]]].
  rewrite (bind_run _ _ _ _ _ Hdate).
  cbn [Datetime.day Datetime.month Datetime.year].
  assert (Hc : (if 2000 <=? y
                then fmt02d d ++ fmt02d m ++ Da.last_two (str y)
                else fmt02d d ++ fmt02d m ++ Da.last_two (str y))
               = digit_string [d / 10; d mod 10; m / 10; m mod 10;
                               (y / 10) mod 10; y mod 10]).
  { rewrite (fmt02d_digits d), (fmt02d_digits m), (last_two_year y) by lia.
    rewrite !digit_string_app. now destruct (2000 <=? y). }
  rewrite Hc.
  set (c6 := [d / 10; d mod 10; m / 10; m mod 10; (y / 10) mod 10; y mod 10]).
  assert (Hall : Forall is_digit c6).
  { destruct (two_digits d ltac:(lia)), (two_digits m ltac:(lia)).
    unfold c6. repeat (apply Forall_cons; [try assumption|]);
      try apply Forall_nil;
      unfold is_digit;
      [pose proof (Z.mod_pos_bound (y / 10) 10 ltac:(lia))
      |pose proof (Z.mod_pos_bound y 10 ltac:(lia))]; lia. }
  pose proof (generate_serial_checksum_no_raise budget c6 r1 eq_refl Hall) as H.
  unfold bind.
  destruct (Da._generate_serial_checksum budget (digit_string c6) r1)
    as [[[serial checksum]|e|] r2]; cbn [fst] in H |- *;
    [exact I|exact H|exact I].
Qed.

(** ** Bulk creation of datetimes *)

Lemma range_upto_succ (f : Z -> Z) (n : nat) :
  map f (range 0 (Z.of_nat n + 1) 1)
  = f 0 :: map (fun k => f (k + 1)) (range 0 (Z.of_nat n) 1).
Proof.
  replace (Z.of_nat n + 1) with (Z.of_nat (S n)) by lia.
  rewrite !range_upto. cbn [seq map]. f_equal.
  rewrite <- seq_shift, !map_map. apply map_ext. intros k.
  f_equal. lia.
Qed.

Lemma bulk_loop_run (date_end step : Z) :
  0 < step -> date_end <= Bulk.datetime_max ->
  forall (n budget : nat) (current : Z) (acc : list Z),
    0 <= current <= date_end ->
    Z.of_nat n = (date_end - current) / step ->
    (n + 1 < budget)%nat ->
    Bulk.loop budget current date_end step acc
    = if current + (Z.of_nat n + 1) * step <=? Bulk.datetime_max
      then Bulk.Done (acc ++ map (fun k => current + k * step)
                                 (range 0 (Z.of_nat n + 1) 1))%list
      else Bulk.Failed Bulk.Overflow_error.
Proof.
  intros Hstep Hmax.
  induction n as [|n IH]; intros budget current acc Hc Hn Hb.
  - destruct budget as [|[|budget]]; try lia.
    assert (Hnext : date_end < current + step).
    { pose proof (Z.mul_succ_div_gt (date_end - current) step Hstep) as Hm.
      rewrite <- Hn in Hm. change (Z.succ (Z.of_nat 0)) with 1 in Hm. lia. }
    cbn [Bulk.loop].
    destruct (Z.leb_spec current date_end) as [_|Hgt]; [|lia].
    unfold Bulk.add. cbv zeta.
    destruct (Z.leb_spec 0 (current + step)) as [_|Hneg]; [|lia].
    cbn [andb]. change (Z.of_nat 0 + 1) with 1. rewrite Z.mul_1_l.
    destruct (Z.leb_spec (current + step) Bulk.datetime_max) as [Hin|Hout];
      [|reflexivity].
    destruct (Z.leb_spec (current + step) date_end) as [Hle|_]; [lia|].
    change (range 0 1 1) with [0]. cbn [map].
    now replace (current + 0 * step) with current by lia.
  - destruct budget as [|budget]; [lia|].
    assert (Hq : 1 <= (date_end - current) / step) by lia.
    assert (Hnext : current + step <= date_end).
    { assert (Hm : step * 1 <= date_end - current).
      { apply Z.le_trans with (step * ((date_end - current) / step)).
        - apply Z.mul_le_mono_nonneg_l; lia.
        - apply Z.mul_div_le. lia. }
      lia. }
    cbn [Bulk.loop].
    destruct (Z.leb_spec current date_end) as [_|Hgt]; [|lia].
    unfold Bulk.add. cbv zeta.
    destruct (Z.leb_spec 0 (current + step)) as [_|Hneg]; [|lia].
    destruct (Z.leb_spec (current + step) Bulk.datetime_max) as [_|Hout];
      [|lia].
    cbn [andb].
    rewrite (IH budget (current + step) (acc ++ [current])%list).
    + replace (current + step + (Z.of_nat n + 1) * step)
        with (current + (Z.of_nat (S n) + 1) * step) by lia.
      destruct (_ <=? _); [|reflexivity].
      f_equal. rewrite <- app_assoc. f_equal. cbn [app].
      rewrite (range_upto_succ (fun k => current + k * step) (S n)).
      replace (current + 0 * step) with current by lia. f_equal.
      replace (Z.of_nat (S n)) with (Z.of_nat n + 1) by lia.
      apply map_ext. intros k. lia.
    + lia.
    + replace (date_end - (current + step))
        with (date_end - current + (-1) * step) by lia.
      rewrite Z.div_add by lia. lia.
    + lia.
Qed.

(** For datetimes start <= end and a positive step, with a loop budget
    above the number of steps, bulk_create_datetimes returns start,
    start + step, ... up to the last one not after end, provided the
    first point past end is still a datetime; when that point lies
    beyond datetime.max the call raises OverflowError instead of
    returning the list. *)
Theorem bulk_create_datetimes_result
    (budget : nat) (date_start date_end step : Z) :
  0 <= date_start -> date_start <= date_end ->
  date_end <= Bulk.datetime_max -> 0 < step ->
  (date_end - date_start) / step + 1 < Z.of_nat budget ->
  Bulk.bulk_create_datetimes budget (Some date_start) (Some date_end) step
  = if date_start + ((date_end - date_start) / step + 1) * step
       <=? Bulk.datetime_max
    then Bulk.Done (map (fun k => date_start + k * step)
                        (range 0 ((date_end - date_start) / step + 1) 1))
    else Bulk.Failed Bulk.Overflow_error.
Proof.
  intros Hs Hle Hmax Hstep Hb. unfold Bulk.bulk_create_datetimes.
  destruct (Z.ltb_spec date_end date_start) as [Hlt|_]; [lia|].
  destruct (Z.leb_spec step 0) as [Hneg|_]; [lia|].
  assert (Hq : 0 <= (date_end - date_start) / step)
    by (apply Z.div_pos; lia).
  rewrite (bulk_loop_run date_end step Hstep Hmax
             (Z.to_nat ((date_end - date_start) / step)) budget date_start []);
    [|lia|lia|lia].
  rewrite Z2Nat.id by exact Hq. reflexivity.
Qed.

Lemma bulk_create_datetimes_result_witness :
  Bulk.bulk_create_datetimes 5 (Some 0) (Some 10) 5 = Bulk.Done [0; 5; 10].
Proof.
  exact (bulk_create_datetimes_result 5 0 10 5
           ltac:(lia) ltac:(lia) ltac:(vm_compute; discriminate)
           ltac:(lia) ltac:(vm_compute; reflexivity)).
Defined.

(** ** Reproducibility *)

Lemma string_append_assoc (s t u : string) : (s ++ t) ++ u = s ++ t ++ u.
Proof. induction s as [|c s IH]; simpl; [reflexivity|]. now rewrite IH. Qed.

(** A PESEL opens with the six digits of its birth date. *)
Lemma pesel_opens_with_date (current_year : Z) (entropy : nat -> Z)
    (d : Datetime.date) (g : option It.Gender) (r : Random) :
  1 <= Datetime.month d <= 12 ->
  1 <= Datetime.day d <= 31 ->
  exists tail : string,
    fst (Pl.pesel current_year entropy (Some d) g r)
    = Return (fmt0d 2 (Datetime.year d mod 100)
              ++ fmt0d 2 (Pl.pesel_month (Datetime.year d) (Datetime.month d))
              ++ fmt0d 2 (Datetime.day d) ++ tail).
Proof.
  intros Hm Hd. unfold Pl.pesel.
  rewrite (bind_run _ _ _ _ _ (eq_refl : ret d r = (Return d, r))).
  assert (Hg : exists g' r1,
             match g with
             | Some g0 => ret g0
             | None => choice [It.MALE; It.FEMALE]
             end r = (Return g', r1)).
  { destruct g as [g0|].
    - now exists g0, r.
    - destruct (always_choice It.MALE [It.FEMALE] r) as [g' [r1 [H _]]].
      now exists g', r1. }
  destruct Hg as [g' [r1 Hg]].
  rewrite (bind_run _ _ _ _ _ Hg).
  destruct (randint_in_range 0 999 r1 ltac:(lia)) as [serial [r2 [Hs Bs]]].
  rewrite (bind_run _ _ _ _ _ Hs).
  set (y := Datetime.year d). set (m := Datetime.month d) in *.
  set (dd := Datetime.day d) in *.
  pose proof (pesel_month_range y m Hm) as Hpm.
  set (pm := Pl.pesel_month y m) in *.
  pose proof (Z.mod_pos_bound y 100 ltac:(lia)) as Hy.
  assert (Hgd : exists gd r3,
             (if It.gender_eqb g' It.FEMALE
              then choice [0; 2; 4; 6; 8] else choice [1; 3; 5; 7; 9]) r2
             = (Return gd, r3)
             /\ is_digit gd).
  { destruct (It.gender_eqb g' It.FEMALE).
    - destruct (always_choice 0 [2; 4; 6; 8] r2) as [gd [r3 [H Hin]]].
      exists gd, r3. split; [exact H|]. unfold is_digit.
      simpl in Hin. intuition (subst; lia).
    - destruct (always_choice 1 [3; 5; 7; 9] r2) as [gd [r3 [H Hin]]].
      exists gd, r3. split; [exact H|]. unfold is_digit.
      simpl in Hin. intuition (subst; lia). }
  destruct Hgd as [gd [r3 [Hgd Dgd]]].
  rewrite (bind_run _ _ _ _ _ Hgd).
  set (date6 := fmt0d 2 (y mod 100) ++ fmt0d 2 pm ++ fmt0d 2 dd).
  assert (Hdate : date6 = digit_string [(y mod 100) / 10; (y mod 100) mod 10;
                                        pm / 10; pm mod 10; dd / 10; dd mod 10]).
  { unfold date6. rewrite !fmt0d_2_digits by lia.
    now rewrite !digit_string_app. }
  assert (Hall : Forall is_digit
                   [(y mod 100) / 10; (y mod 100) mod 10; pm / 10; pm mod 10;
                    dd / 10; dd mod 10; serial / 100; (serial / 10) mod 10;
                    serial mod 10; gd]).
  { destruct (two_digits (y mod 100) ltac:(lia)).
    destruct (two_digits pm ltac:(lia)).
    destruct (two_digits dd ltac:(lia)).
    assert (is_digit (serial / 100)).
    { unfold is_digit. split; [apply Z.div_pos; lia|].
      assert (serial / 100 < 10) by (apply Z.div_lt_upper_bound; lia). lia. }
    assert (is_digit ((serial / 10) mod 10)).
    { unfold is_digit. pose proof (Z.mod_pos_bound (serial / 10) 10 ltac:(lia)). lia. }
    assert (is_digit (serial mod 10)).
    { unfold is_digit. pose proof (Z.mod_pos_bound serial 10 ltac:(lia)). lia. }
    all_digits. }
  assert (Hten : (date6 ++ fmt0d 3 serial) ++ str gd
                 = digit_string
                     [(y mod 100) / 10; (y mod 100) mod 10; pm / 10; pm mod 10;
                      dd / 10; dd mod 10; serial / 100; (serial / 10) mod 10;
                      serial mod 10; gd]).
  { rewrite Hdate, fmt0d_3_digits by lia. rewrite (str_digit gd Dgd).
    change (String (digit_char gd) "") with (digit_string [gd]).
    now rewrite !digit_string_app. }
  rewrite Hten. unfold lift, bind. rewrite chars_digit_string.
  rewrite (omap_weighted_digits Z.mul) by exact Hall.
  cbn [ret fst]. rewrite <- Hten.
  unfold date6. eexists. rewrite !string_append_assoc. reflexivity.
Qed.

(** Without a birth date, the date is the one the new [Datetime()]
    provider draws from its own generator. *)
Lemma pesel_takes_fresh_date (current_year : Z) (entropy : nat -> Z)
    (d : Datetime.date) (t : Datetime.time) (g : option It.Gender) (r : Random) :
  fst (Datetime.datetime_ current_year current_year (mkRandom entropy 0))
  = Return (d, t) ->
  Pl.pesel current_year entropy None g r
  = Pl.pesel current_year entropy (Some d) g r.
Proof. intros H. unfold Pl.pesel. rewrite H. reflexivity. Qed.

Section Sessions.

Variable mt_stream : SeedValue -> nat -> Z.
Variable EAN_MASKS : list (string * string).
Variable IMEI_TACS : list string.
Variable ISBN_GROUPS : list (string * string).
Variable ISBN_MASKS : list (string * string).
Variable LOCALE_CODES : list string.
Variable CREDIT_CARD_NETWORKS : Payment.networks.
Variable ISBNFormat : Enum.
Variable EANFormat : Enum.
Variable CardType : Enum.

Let call : Type := Session.call ISBNFormat EANFormat CardType.

Let run (current_year : Z) (fresh : nat -> nat -> Z) :=
  Session.run EAN_MASKS IMEI_TACS ISBN_GROUPS ISBN_MASKS LOCALE_CODES
    CREDIT_CARD_NETWORKS ISBNFormat EANFormat CardType current_year fresh.

(** An explicit seed fixes the generator of a provider, at construction
    and on reseeding alike, whatever its earlier state and the clock. *)
Lemma explicit_seed_fixes_generator (S : SeedValue) (p : BaseProvider)
    (r : option Random) (e e0 e1 : nat -> Z) :
  random_ (reseed mt_stream (Explicit S) e p) = mkRandom (mt_stream S) 0
  /\ random_ (BaseProvider_init mt_stream (Explicit S) r e0 e1)
     = mkRandom (mt_stream S) 0.
Proof. split; reflexivity. Qed.

(** Calls that make no generator of their own draw from the provider's
    generator only: from the same state they give the same answers,
    whatever the clock and the operating system supply. *)
Lemma own_generator_calls_agree (budget : nat) (calls : list call) :
  forallb (fun c => negb (Session.makes_generator c)) calls = true ->
  forall (year1 year2 : Z) (fresh1 fresh2 : nat -> nat -> Z)
         (made1 made2 : nat) (r : Random),
    run year1 fresh1 budget calls made1 r
    = run year2 fresh2 budget calls made2 r.
Proof.
  induction calls as [|c calls IH]; intros Hown year1 year2 fresh1 fresh2
    made1 made2 r; [reflexivity|].
  cbn [forallb] in Hown. apply andb_true_iff in Hown.
  destruct Hown as [Hc Hown]. apply negb_true_iff in Hc.
  unfold run in *. cbn [Session.run]. rewrite Hc.
  assert (Hp : Session.perform EAN_MASKS IMEI_TACS ISBN_GROUPS ISBN_MASKS
                 LOCALE_CODES CREDIT_CARD_NETWORKS ISBNFormat EANFormat CardType
                 year1 fresh1 budget c made1
               = Session.perform EAN_MASKS IMEI_TACS ISBN_GROUPS ISBN_MASKS
                   LOCALE_CODES CREDIT_CARD_NETWORKS ISBNFormat EANFormat
                   CardType year2 fresh2 budget c made2).
  { destruct c; try reflexivity.
    destruct birth_date; [reflexivity|discriminate Hc]. }
  rewrite Hp.
  destruct (Session.perform _ _ _ _ _ _ _ _ _ _ _ _ _ _ r) as [o r'].
  f_equal. apply IH. exact Hown.
Qed.

(** C3 fails on the code: for every explicit seed, two providers
    constructed with that seed can answer the single call pesel(), with
    no birth date, differently.  The birth date comes from a new
    [Datetime()] provider that is given neither the seed nor the
    generator, so it follows the operating system's entropy: here, in
    the year 2024, one session draws the first of January and the other
    the sixth of June. *)
Theorem same_seed_pesel_outputs_differ
    (S : SeedValue) (budget : nat) (gender : option It.Gender)
    (r1 r2 : option Random) (e1 e1' e2 e2' : nat -> Z) :
  exists fresh1 fresh2 : nat -> nat -> Z,
    run 2024 fresh1 budget [Session.Pesel _ _ _ None gender] 0
        (random_ (BaseProvider_init mt_stream (Explicit S) r1 e1 e1'))
    <> run 2024 fresh2 budget [Session.Pesel _ _ _ None gender] 0
           (random_ (BaseProvider_init mt_stream (Explicit S) r2 e2 e2')).
Proof.
  exists (fun _ _ => 0), (fun _ _ => 5).
  destruct (explicit_seed_fixes_generator S (mkProvider (Samples.constant 0)
              MissingSeed) r1 e1 e1 e1') as [_ H1].
  destruct (explicit_seed_fixes_generator S (mkProvider (Samples.constant 0)
              MissingSeed) r2 e2 e2 e2') as [_ H2].
  rewrite H1, H2. set (r := mkRandom (mt_stream S) 0).
  unfold run. cbn [Session.run Session.perform Session.makes_generator].
  unfold Session.as_str, bind.
  rewrite (pesel_takes_fresh_date 2024 (fun _ => 0) (Datetime.mkDate 2024 1 1)
             (Datetime.mkTime 0 0 0 0) gender r) by (vm_compute; reflexivity).
  rewrite (pesel_takes_fresh_date 2024 (fun _ => 5) (Datetime.mkDate 2024 6 6)
             (Datetime.mkTime 5 5 5 5) gender r) by (vm_compute; reflexivity).
  destruct (pesel_opens_with_date 2024 (fun _ => 0) (Datetime.mkDate 2024 1 1)
              gender r) as [tail1 T1]; [simpl; lia..|].
  destruct (pesel_opens_with_date 2024 (fun _ => 5) (Datetime.mkDate 2024 6 6)
              gender r) as [tail2 T2]; [simpl; lia..|].
  destruct (Pl.pesel 2024 (fun _ => 0) (Some (Datetime.mkDate 2024 1 1)) gender r)
    as [o1 s1].
  destruct (Pl.pesel 2024 (fun _ => 5) (Some (Datetime.mkDate 2024 6 6)) gender r)
    as [o2 s2].
  cbn [fst] in T1, T2. subst o1 o2. cbn [ret].
  intros H. inversion H.
Qed.

End Sessions.

(** ** Rounding to the nearest double *)

Import Binary64.

Lemma round_half_even_floor (y : Q) : Qfloor y <= round_half_even y <= Qfloor y + 1.
Proof.
  unfold round_half_even. cbv zeta.
  destruct (Qcompare _ _); [destruct (Z.even _)|..]; lia.
Qed.

Lemma round_half_even_mono (y1 y2 : Q) :
  (y1 <= y2)%Q -> round_half_even y1 <= round_half_even y2.
Proof.
  intros H. pose proof (Qfloor_resp_le _ _ H) as Hf.
  destruct (Z.eq_dec (Qfloor y1) (Qfloor y2)) as [E|E].
  - unfold round_half_even. cbv zeta. rewrite E.
    destruct (Qcompare_spec (y1 - inject_Z (Qfloor y2)) (1 # 2)),
             (Qcompare_spec (y2 - inject_Z (Qfloor y2)) (1 # 2));
      destruct (Z.even (Qfloor y2)); try lia; lra.
  - pose proof (round_half_even_floor y1). pose proof (round_half_even_floor y2). lia.
Qed.

Lemma round_half_even_int (n : Z) : round_half_even (inject_Z n) = n.
Proof.
  unfold round_half_even. cbv zeta. rewrite Qfloor_Z.
  destruct (Qcompare_spec (inject_Z n - inject_Z n) (1 # 2)); try lra.
  reflexivity.
Qed.

Lemma exponent_nonneg (t : Q) : 0 <= exponent t.
Proof. unfold exponent. lia. Qed.

Lemma spacing_pos (t : Q) : 0 < spacing t.
Proof. unfold spacing. apply Z.pow_pos_nonneg; [lia|apply exponent_nonneg]. Qed.

Lemma exponent_mono (t1 t2 : Q) :
  (t1 <= t2)%Q -> exponent t1 <= exponent t2.
Proof.
  intros H. unfold exponent.
  pose proof (Z.log2_le_mono _ _ (Qfloor_resp_le _ _ H)). lia.
Qed.

Lemma floor_below_top (t : Q) :
  (0 <= t)%Q -> Qfloor t + 1 <= 2 ^ (exponent t + 53).
Proof.
  intros Ht.
  assert (Hf : 0 <= Qfloor t).
  { change 0 with (Qfloor 0). now apply Qfloor_resp_le. }
  assert (Hl : Qfloor t + 1 <= 2 ^ (Z.log2 (Qfloor t) + 1)).
  { destruct (Z.eq_dec (Qfloor t) 0) as [E|E].
    - rewrite E. simpl. lia.
    - pose proof (Z.log2_spec (Qfloor t) ltac:(lia)) as [_ Hs].
      unfold Z.succ in Hs. lia. }
  apply Z.le_trans with (1 := Hl).
  apply Z.pow_le_mono_r; [lia|]. unfold exponent. lia.
Qed.

Lemma floor_above_bottom (t : Q) :
  0 < exponent t -> 2 ^ (exponent t + 52) <= Qfloor t.
Proof.
  intros Hs. unfold exponent in *.
  assert (Hl : 53 < Z.log2 (Qfloor t) + 1) by lia.
  assert (Hpos : 0 < Qfloor t).
  { destruct (Z.log2_null (Qfloor t)) as [_ Hn].
    destruct (Z.le_gt_cases (Qfloor t) 1) as [Hle|Hgt]; [|lia].
    rewrite (Hn Hle) in Hl. lia. }
  pose proof (Z.log2_spec (Qfloor t) Hpos) as [Hlo _].
  replace (Z.max 0 (Z.log2 (Qfloor t) + 1 - 53) + 52)
    with (Z.log2 (Qfloor t)) by lia.
  exact Hlo.
Qed.

Lemma scaled_le_top (t : Q) :
  (0 <= t)%Q -> (t / inject_Z (spacing t) <= inject_Z (2 ^ 53))%Q.
Proof.
  intros Ht. pose proof (spacing_pos t) as Hsp.
  apply Qle_shift_div_r.
  - change 0%Q with (inject_Z 0). now rewrite <- Zlt_Qlt.
  - rewrite <- inject_Z_mult.
    apply Qle_trans with (inject_Z (Qfloor t + 1)).
    + apply Qlt_le_weak. apply Qlt_floor.
    + rewrite <- Zle_Qle.
      replace (2 ^ 53 * spacing t) with (2 ^ (exponent t + 53)).
      * now apply floor_below_top.
      * unfold spacing. rewrite Z.pow_add_r by (try apply exponent_nonneg; lia).
        lia.
Qed.

Lemma scaled_ge_bottom (t : Q) :
  0 < exponent t -> (inject_Z (2 ^ 52) <= t / inject_Z (spacing t))%Q.
Proof.
  intros Hs. pose proof (spacing_pos t) as Hsp.
  apply Qle_shift_div_l.
  - change 0%Q with (inject_Z 0). now rewrite <- Zlt_Qlt.
  - rewrite <- inject_Z_mult.
    apply Qle_trans with (inject_Z (Qfloor t)); [|apply Qfloor_le].
    rewrite <- Zle_Qle.
    replace (2 ^ 52 * spacing t) with (2 ^ (exponent t + 52)).
    + now apply floor_above_bottom.
    + unfold spacing. rewrite Z.pow_add_r by (try apply exponent_nonneg; lia).
      lia.
Qed.

Lemma round_scaled_mono (t1 t2 : Q) :
  (0 <= t1)%Q -> (t1 <= t2)%Q -> round_scaled t1 <= round_scaled t2.
Proof.
  intros H1 H12. assert (H2 : (0 <= t2)%Q) by lra.
  pose proof (exponent_mono _ _ H12) as He.
  pose proof (spacing_pos t1) as Hp1. pose proof (spacing_pos t2) as Hp2.
  unfold round_scaled.
  destruct (Z.eq_dec (exponent t1) (exponent t2)) as [E|E].
  - assert (Es : spacing t1 = spacing t2) by (unfold spacing; now rewrite E).
    rewrite Es. apply Z.mul_le_mono_nonneg_r; [lia|].
    apply round_half_even_mono. apply Qmult_le_compat_r; [exact H12|].
    apply Qinv_le_0_compat. change 0%Q with (inject_Z 0).
    rewrite <- Zle_Qle. lia.
  - assert (Hlt : exponent t1 + 1 <= exponent t2) by lia.
    pose proof (round_half_even_mono _ _ (scaled_le_top t1 H1)) as Htop.
    rewrite round_half_even_int in Htop.
    assert (Hpos2 : 0 < exponent t2) by (pose proof (exponent_nonneg t1); lia).
    pose proof (round_half_even_mono _ _ (scaled_ge_bottom t2 Hpos2)) as Hbot.
    rewrite round_half_even_int in Hbot.
    apply Z.le_trans with (2 ^ 53 * spacing t1);
      [apply Z.mul_le_mono_nonneg_r; lia|].
    apply Z.le_trans with (2 ^ 52 * spacing t2);
      [|apply Z.mul_le_mono_nonneg_r; lia].
    unfold spacing.
    rewrite <- !Z.pow_add_r by (try apply exponent_nonneg; lia).
    apply Z.pow_le_mono_r; lia.
Qed.

Lemma round_half_even_of_int (x : Q) (c : Z) : (x == inject_Z c)%Q -> round_half_even x = c.
Proof.
  intros E.
  assert (H1 : (x <= inject_Z c)%Q) by lra.
  assert (H2 : (inject_Z c <= x)%Q) by lra.
  apply round_half_even_mono in H1. apply round_half_even_mono in H2. rewrite round_half_even_int in *. lia.
Qed.

Lemma round_scaled_exact (K : Z) :
  (spacing (inject_Z K) | K) -> round_scaled (inject_Z K) = K.
Proof.
  intros [c Hc]. unfold round_scaled.
  pose proof (spacing_pos (inject_Z K)) as Hsp.
  set (sp := spacing (inject_Z K)) in *. clearbody sp.
  rewrite (round_half_even_of_int _ c); [lia|].
  subst K. rewrite inject_Z_mult. field.
  intros H0. assert (H1 : (0 < inject_Z sp)%Q).
  { change 0%Q with (inject_Z 0). now rewrite <- Zlt_Qlt. }
  lra.
Qed.

Lemma round_scaled_nonneg (t : Q) : (0 <= t)%Q -> 0 <= round_scaled t.
Proof.
  intros Ht. pose proof (spacing_pos t) as Hsp. unfold round_scaled.
  apply Z.mul_nonneg_nonneg; [|lia].
  assert (H : (inject_Z 0 <= t / inject_Z (spacing t))%Q).
  { apply Qle_shift_div_l.
    - change 0%Q with (inject_Z 0). now rewrite <- Zlt_Qlt.
    - change (inject_Z 0) with 0%Q. lra. }
  apply round_half_even_mono in H. now rewrite round_half_even_int in H.
Qed.

Lemma scale_pos : (0 < inject_Z scale)%Q.
Proof. change 0%Q with (inject_Z 0). rewrite <- Zlt_Qlt. reflexivity. Qed.

Lemma nearest_mono (q1 q2 : Q) : (q1 <= q2)%Q -> (nearest q1 <= nearest q2)%Q.
Proof.
  intros H. pose proof scale_pos as Hs. unfold nearest.
  destruct (Qle_bool 0 q1) eqn:E1, (Qle_bool 0 q2) eqn:E2.
  - apply Qle_bool_iff in E1. apply Qle_bool_iff in E2.
    apply Qmult_le_compat_r; [|apply Qinv_le_0_compat; lra].
    rewrite <- Zle_Qle. apply round_scaled_mono; nra.
  - apply Qle_bool_iff in E1.
    assert (~ (0 <= q2)%Q) by (rewrite <- Qle_bool_iff; congruence). lra.
  - apply Qle_bool_iff in E2.
    assert (N1 : ~ (0 <= q1)%Q) by (rewrite <- Qle_bool_iff; congruence).
    assert (A : (0 <= inject_Z (round_scaled (- q1 * inject_Z scale))
                      / inject_Z scale)%Q).
    { apply Qle_shift_div_l; [exact Hs|]. rewrite Qmult_0_l.
      change 0%Q with (inject_Z 0). rewrite <- Zle_Qle.
      apply round_scaled_nonneg. nra. }
    assert (B : (0 <= inject_Z (round_scaled (q2 * inject_Z scale))
                      / inject_Z scale)%Q).
    { apply Qle_shift_div_l; [exact Hs|]. rewrite Qmult_0_l.
      change 0%Q with (inject_Z 0). rewrite <- Zle_Qle.
      apply round_scaled_nonneg. nra. }
    lra.
  - assert (N1 : ~ (0 <= q1)%Q) by (rewrite <- Qle_bool_iff; congruence).
    assert (N2 : ~ (0 <= q2)%Q) by (rewrite <- Qle_bool_iff; congruence).
    apply Qopp_le_compat.
    apply Qmult_le_compat_r; [|apply Qinv_le_0_compat; lra].
    rewrite <- Zle_Qle. apply round_scaled_mono; nra.
Qed.

Lemma spacing_divides_int (z : Z) :
  0 <= z <= 2 ^ 53 -> (spacing (inject_Z (z * scale)) | z * scale).
Proof.
  intros Hz. unfold spacing, exponent. rewrite Qfloor_Z.
  destruct (Z.eq_dec z 0) as [->|Hnz]; [exists 0; reflexivity|].
  unfold scale. rewrite Z.log2_mul_pow2 by lia.
  destruct (Z.eq_dec z (2 ^ 53)) as [->|Hne].
  - vm_compute. exists (2 ^ 52). reflexivity.
  - assert (Hl : Z.log2 z < 53) by (apply Z.log2_lt_pow2; lia).
    pose proof (Z.log2_nonneg z) as Hl0.
    set (e := Z.max 0 (1074 + Z.log2 z + 1 - 53)).
    assert (He : 0 <= e <= 1074) by (unfold e; lia).
    exists (z * 2 ^ (1074 - e)).
    rewrite <- Z.mul_assoc, <- Z.pow_add_r by lia.
    now replace (1074 - e + e) with 1074 by lia.
Qed.

Lemma nearest_int (z : Z) :
  - 2 ^ 53 <= z <= 2 ^ 53 -> (nearest (inject_Z z) == inject_Z z)%Q.
Proof.
  intros Hz. pose proof scale_pos as Hs. unfold nearest.
  destruct (Qle_bool 0 (inject_Z z)) eqn:E.
  - apply Qle_bool_iff in E. change 0%Q with (inject_Z 0) in E.
    rewrite <- Zle_Qle in E.
    assert (Hr : round_scaled (inject_Z z * inject_Z scale) = z * scale).
    { apply Z.le_antisymm.
      - rewrite <- (round_scaled_exact (z * scale))
          by (apply spacing_divides_int; lia).
        apply round_scaled_mono.
        + rewrite <- inject_Z_mult. change 0%Q with (inject_Z 0).
          rewrite <- Zle_Qle. unfold scale. lia.
        + rewrite inject_Z_mult. lra.
      - rewrite <- (round_scaled_exact (z * scale)) at 1
          by (apply spacing_divides_int; lia).
        apply round_scaled_mono.
        + change 0%Q with (inject_Z 0).
          rewrite <- Zle_Qle. unfold scale. lia.
        + rewrite inject_Z_mult. lra. }
    rewrite Hr, inject_Z_mult. field. lra.
  - assert (N : ~ (0 <= inject_Z z)%Q) by (rewrite <- Qle_bool_iff; congruence).
    assert (Hneg : z < 0).
    { destruct (Z.lt_ge_cases z 0) as [H|H]; [exact H|].
      exfalso. apply N. change 0%Q with (inject_Z 0). now rewrite <- Zle_Qle. }
    assert (Hr : round_scaled (- inject_Z z * inject_Z scale) = - z * scale).
    { apply Z.le_antisymm.
      - rewrite <- (round_scaled_exact (- z * scale))
          by (apply spacing_divides_int; lia).
        apply round_scaled_mono.
        + assert (0 < inject_Z (- z))%Q
            by (change 0%Q with (inject_Z 0); rewrite <- Zlt_Qlt; lia).
          rewrite inject_Z_opp in *. nra.
        + rewrite inject_Z_mult, inject_Z_opp. lra.
      - rewrite <- (round_scaled_exact (- z * scale)) at 1
          by (apply spacing_divides_int; lia).
        apply round_scaled_mono.
        + change 0%Q with (inject_Z 0).
          rewrite <- Zle_Qle. unfold scale. lia.
        + rewrite inject_Z_mult, inject_Z_opp. lra. }
    rewrite Hr, inject_Z_mult, inject_Z_opp. field. lra.
Qed.

Lemma nearest_between (a b : Z) (q : Q) :
  - 2 ^ 53 <= a -> b <= 2 ^ 53 ->
  (inject_Z a <= q)%Q -> (q <= inject_Z b)%Q ->
  (inject_Z a <= nearest q)%Q /\ (nearest q <= inject_Z b)%Q.
Proof.
  intros Ha Hb Haq Hqb.
  assert (Hab : a <= b) by (rewrite Zle_Qle; lra).
  split.
  - rewrite <- (nearest_int a) by lia. now apply nearest_mono.
  - rewrite <- (nearest_int b) by lia. now apply nearest_mono.
Qed.

(** ** Rounded uniform draws *)

Lemma round_half_even_ge (y : Q) (N : Z) :
  (inject_Z N <= y)%Q -> N <= round_half_even y.
Proof.
  intros Hy. unfold round_half_even. cbv zeta.
  assert (Hle : N <= Qfloor y).
  { rewrite <- (Qfloor_Z N). now apply Qfloor_resp_le. }
  destruct (Qcompare _ _); [destruct (Z.even _)| |]; lia.
Qed.

Lemma Qpower_10_Z (p : Z) :
  0 <= p -> (Qpower 10 p == inject_Z (10 ^ p))%Q /\ 0 < 10 ^ p.
Proof.
  intros Hp. split.
  - rewrite (Zpower_Qpower 10 p Hp). reflexivity.
  - apply Z.pow_pos_nonneg; lia.
Qed.

Lemma round_le (x : Q) (n p : Z) :
  0 <= p -> (x <= inject_Z n)%Q -> (round x p <= inject_Z n)%Q.
Proof.
  intros Hp Hx. unfold round.
  destruct (Qpower_10_Z p Hp) as [HP Hpos].
  assert (HposQ : (0 < Qpower 10 p)%Q).
  { rewrite HP. change 0%Q with (inject_Z 0). now rewrite <- Zlt_Qlt. }
  apply Qle_shift_div_r; [exact HposQ|].
  assert (Hb : (x * Qpower 10 p <= inject_Z (n * 10 ^ p))%Q).
  { rewrite inject_Z_mult, <- HP.
    apply Qmult_le_compat_r; [exact Hx|now apply Qlt_le_weak]. }
  apply round_half_even_le in Hb.
  rewrite HP at 2. rewrite <- inject_Z_mult, <- Zle_Qle. exact Hb.
Qed.

Lemma round_ge (x : Q) (n p : Z) :
  0 <= p -> (inject_Z n <= x)%Q -> (inject_Z n <= round x p)%Q.
Proof.
  intros Hp Hx. unfold round.
  destruct (Qpower_10_Z p Hp) as [HP Hpos].
  assert (HposQ : (0 < Qpower 10 p)%Q).
  { rewrite HP. change 0%Q with (inject_Z 0). now rewrite <- Zlt_Qlt. }
  apply Qle_shift_div_l; [exact HposQ|].
  assert (Hb : (inject_Z (n * 10 ^ p) <= x * Qpower 10 p)%Q).
  { rewrite inject_Z_mult, <- HP.
    apply Qmult_le_compat_r; [exact Hx|now apply Qlt_le_weak]. }
  apply round_half_even_ge in Hb.
  rewrite HP at 1. rewrite <- inject_Z_mult, <- Zle_Qle. exact Hb.
Qed.

Lemma to_double_between (a b : Z) (q : Q) :
  - 2 ^ 53 <= a -> b <= 2 ^ 53 ->
  (inject_Z a <= q)%Q -> (q <= inject_Z b)%Q ->
  exists x, to_double q = Finite x
            /\ (inject_Z a <= x)%Q /\ (x <= inject_Z b)%Q.
Proof.
  intros Ha Hb Haq Hqb.
  destruct (nearest_between a b q Ha Hb Haq Hqb) as [Hlo Hhi].
  exists (nearest q). unfold to_double. cbv zeta.
  destruct (Qle_bool (inject_Z (2 ^ 1024)) (Qabs (nearest q))) eqn:E;
    [|now repeat split].
  exfalso. apply Qle_bool_iff in E.
  assert (Habs : (Qabs (nearest q) <= inject_Z (2 ^ 53))%Q).
  { apply Qabs_Qle_condition.
    assert (H1 : (inject_Z (- 2 ^ 53) <= inject_Z a)%Q)
      by (now rewrite <- Zle_Qle).
    assert (H2 : (inject_Z b <= inject_Z (2 ^ 53))%Q)
      by (now rewrite <- Zle_Qle).
    rewrite inject_Z_opp in H1. split; lra. }
  assert (Hbig : (inject_Z (2 ^ 53) < inject_Z (2 ^ 1024))%Q)
    by (rewrite <- Zlt_Qlt; reflexivity).
  lra.
Qed.

Lemma of_int_exact (z : Z) :
  - 2 ^ 53 <= z <= 2 ^ 53 ->
  exists x, of_int z = Return x /\ (x == inject_Z z)%Q.
Proof.
  intros Hz. unfold of_int.
  destruct (to_double_between z z (inject_Z z)) as [x [Hx [Hlo Hhi]]];
    try lia; try lra.
  exists x. rewrite Hx. split; [reflexivity|lra].
Qed.

(** In binary64 arithmetic and between integer bounds
    -2^52 <= a <= b <= 2^52, with a non-negative precision, uniform
    always returns a finite value within [a, b]: neither the rounding of
    the product and the sum nor the rounding to decimals takes it
    outside. *)
Theorem uniform_within_integer_bounds (a b p : Z) (r : Random) :
  - 2 ^ 52 <= a -> a <= b -> b <= 2 ^ 52 -> 0 <= p ->
  exists x : Q,
    fst (Binary64.uniform a b p r) = Return (Finite x)
    /\ (inject_Z a <= x)%Q /\ (x <= inject_Z b)%Q.
Proof.
  intros Ha Hab Hb Hp. unfold Binary64.uniform.
  destruct (random_unit_interval r) as [u [r' [Hu [H0 H1]]]].
  rewrite (bind_run _ _ _ _ _ Hu).
  destruct (of_int_exact (b - a)) as [d [Hd Ed]]; [lia|].
  unfold lift at 1. unfold bind at 1. rewrite Hd.
  destruct (of_int_exact a) as [xa [Hxa Exa]]; [lia|].
  unfold lift at 1. unfold bind at 1. rewrite Hxa. unfold lift. cbn [fst].
  assert (HabQ : (0 <= inject_Z (b - a))%Q).
  { change 0%Q with (inject_Z 0). rewrite <- Zle_Qle. lia. }
  destruct (to_double_between 0 (b - a) (d * u)) as [m [Hm [Hm0 Hm1]]];
    [lia|lia| |nra|].
  { change (inject_Z 0) with 0%Q. nra. }
  rewrite Hm. cbn [add].
  assert (Eba : (inject_Z (b - a) == inject_Z b - inject_Z a)%Q).
  { unfold Z.sub. now rewrite inject_Z_plus, inject_Z_opp. }
  change (inject_Z 0) with 0%Q in Hm0.
  destruct (to_double_between a b (xa + m)) as [s [Hs [Hs0 Hs1]]];
    [lia|lia|lra|lra|].
  rewrite Hs. cbn [round_].
  destruct (to_double_between a b (round s p)) as [y [Hy [Hy0 Hy1]]];
    [lia|lia|now apply round_ge|now apply round_le|].
  rewrite Hy. exists y. now repeat split.
Qed.

Lemma uniform_within_integer_bounds_witness :
  exists x : Q,
    fst (Binary64.uniform 1 6 2 (Samples.constant 12345)) = Return (Finite x)
    /\ (inject_Z 1 <= x)%Q /\ (x <= inject_Z 6)%Q.
Proof.
  apply (uniform_within_integer_bounds 1 6 2 (Samples.constant 12345)); lia.
Defined.

(** ** Weighted choice over integer weights *)

Lemma sum_nonneg (ws : list Z) : Forall (fun w => 0 <= w) ws -> 0 <= sum ws.
Proof.
  induction 1 as [|w ws Hw _ IH]; [reflexivity|]. rewrite sum_cons. lia.
Qed.

Lemma walk_returns {K} (items : list (K * Z)) :
  forall x : Q,
    items <> [] ->
    Forall (fun w => 0 <= w) (map snd items) ->
    sum (map snd items) <= 2 ^ 53 ->
    (0 <= x)%Q -> (x <= inject_Z (sum (map snd items)))%Q ->
    exists k, walk (Finite x) items = Return (Some k) /\ In k (map fst items).
Proof.
  induction items as [|[k w] items IH]; intros x Hne Hall Hsum Hx0 Hx1;
    [contradiction|].
  cbn [map fst snd] in *. rewrite sum_cons in Hsum, Hx1.
  apply Forall_cons_iff in Hall. destruct Hall as [Hw Hall].
  pose proof (sum_nonneg _ Hall) as Hrest.
  cbn [walk].
  destruct (of_int_exact w) as [wq [Hwq Ewq]]; [lia|].
  rewrite Hwq. cbn [obind sub].
  rewrite inject_Z_plus in Hx1.
  destruct (to_double_between (- w) (sum (map snd items)) (x - wq))
    as [r' [Hr [Hr0 Hr1]]]; [lia|lia| |lra|].
  { rewrite inject_Z_opp. lra. }
  rewrite Hr. cbn [le_zero].
  destruct (Qle_bool r' 0) eqn:E.
  - exists k. split; [reflexivity|now left].
  - assert (Hpos : ~ (r' <= 0)%Q) by (rewrite <- Qle_bool_iff; congruence).
    destruct items as [|kw items'].
    + exfalso. apply Hpos. exact Hr1.
    + destruct (IH r') as [k' [Hk' Hin]];
        [discriminate|exact Hall|lia|lra|exact Hr1|].
      exists k'. split; [exact Hk'|now right].
Qed.

(** In binary64 arithmetic, for a non-empty mapping whose weights are
    non-negative integers with a sum of at most 2^53, weighted_choice
    always returns one of the mapping's keys: it neither raises nor
    falls through to None. *)
Theorem weighted_choice_integer_weights {K} (choices : list (K * Z)) (r : Random) :
  choices <> [] ->
  Forall (fun w => 0 <= w) (map snd choices) ->
  sum (map snd choices) <= 2 ^ 53 ->
  exists k,
    fst (Binary64.weighted_choice choices r) = Return (Some k)
    /\ In k (map fst choices).
Proof.
  intros Hne Hall Hsum. unfold Binary64.weighted_choice.
  destruct choices as [|c0 rest] eqn:Ec; [contradiction|].
  rewrite <- Ec in *. cbv zeta.
  pose proof (sum_nonneg _ Hall) as Htot.
  set (total := sum (map snd choices)) in *.
  assert (Hu : exists x r', Binary64.uniform 0 total 15 r = (Return (Finite x), r')
                            /\ (0 <= x)%Q /\ (x <= inject_Z total)%Q).
  { unfold Binary64.uniform.
    destruct (random_unit_interval r) as [u [r' [Hu [H0 H1]]]].
    rewrite (bind_run _ _ _ _ _ Hu).
    replace (total - 0) with total by lia.
    destruct (of_int_exact total) as [d [Hd Ed]]; [lia|].
    unfold lift at 1. unfold bind at 1. rewrite Hd.
    destruct (of_int_exact 0) as [xa [Hxa Exa]]; [lia|].
    unfold lift at 1. unfold bind at 1. rewrite Hxa. unfold lift.
    assert (HtQ : (0 <= inject_Z total)%Q).
    { change 0%Q with (inject_Z 0). now rewrite <- Zle_Qle. }
    change (inject_Z 0) with 0%Q in Exa.
    destruct (to_double_between 0 total (d * u)) as [m [Hm [Hm0 Hm1]]];
      [lia|lia| |nra|].
    { change (inject_Z 0) with 0%Q. nra. }
    rewrite Hm. cbn [add]. change (inject_Z 0) with 0%Q in Hm0.
    destruct (to_double_between 0 total (xa + m)) as [s [Hs [Hs0 Hs1]]];
      [lia|lia| |lra|].
    { change (inject_Z 0) with 0%Q. lra. }
    rewrite Hs. cbn [round_].
    destruct (to_double_between 0 total (round s 15)) as [y [Hy [Hy0 Hy1]]];
      [lia|lia|apply round_ge; [lia|exact Hs0]|apply round_le; [lia|exact Hs1]|].
    rewrite Hy. exists y, r'. change (inject_Z 0) with 0%Q in Hy0.
    now repeat split. }
  destruct Hu as [x [r' [Hu [Hx0 Hx1]]]].
  rewrite (bind_run _ _ _ _ _ Hu). unfold lift. cbn [fst].
  apply walk_returns; assumption.
Qed.

Lemma weighted_choice_integer_weights_witness :
  exists k,
    fst (Binary64.weighted_choice [("a", 1); ("b", 2)]
           (Samples.constant (3 * 2 ^ 51)))
    = Return (Some k)
    /\ In k (map fst [("a", 1); ("b", 2)]).
Proof.
  apply (weighted_choice_integer_weights [("a", 1); ("b", 2)]
           (Samples.constant (3 * 2 ^ 51))).
  - discriminate.
  - repeat constructor; simpl; lia.
  - vm_compute. discriminate.
Defined.
